(** * GameFeeder / valveGamesAnnouncerBot: command dispatch, permissions,
      subscriber persistence and markdown conversion.

    A shallow embedding of the TypeScript sources and the properties the
    specification states about them. *)

From Stdlib Require Import Ascii String List Bool Arith Lia ZArith DecimalString.
From stdpp Require Import base option list strings gmap.

Local Open Scope string_scope.
Local Open Scope list_scope.
Local Open Scope nat_scope.

(** ** JavaScript helpers shared by every module *)

(** The line feed, which a Rocq string literal cannot escape. *)
Definition LF : string := String (ascii_of_nat 10) EmptyString.

(** [Array.prototype.includes] on an array of strings. *)
Definition includes (l : list string) (x : string) : bool :=
  existsb (String.eqb x) l.

Lemma includes_In l x : includes l x = true <-> In x l.
Proof.
  unfold includes. rewrite existsb_exists. split.
  - intros (y & Hy & E). apply String.eqb_eq in E. now subst.
  - intros H. exists x. split; [exact H | apply String.eqb_refl].
Qed.

Lemma includes_not_In l x : includes l x = false <-> ~ In x l.
Proof.
  rewrite <- includes_In. destruct (includes l x); split; congruence.
Qed.

(** [a.splice(i, 1)]. *)
Definition splice1 {A} (i : nat) (a : list A) : list A :=
  firstn i a ++ skipn (S i) a.

(** [Array.prototype.findIndex], with [None] for -1. *)
Fixpoint findIndexFrom {A} (p : A -> bool) (a : list A) (i : nat) : option nat :=
  match a with
  | [] => None
  | x :: a' => if p x then Some i else findIndexFrom p a' (S i)
  end.

Definition findIndex {A} (p : A -> bool) (a : list A) : option nat :=
  findIndexFrom p a 0.

(** [Number.prototype.toString] on an integer: its decimal numeral. *)
Definition toString (n : Z) : string := NilZero.string_of_int (Z.to_int n).

(** Splicing out the element after [front] leaves what is around it. *)
Lemma splice1_middle {A} (front back : list A) (x : A) :
  splice1 (length front) (front ++ x :: back) = front ++ back.
Proof.
  unfold splice1. induction front as [|y front IH]; cbn; [reflexivity|].
  cbn in IH. now rewrite IH.
Qed.

Lemma findIndexFrom_appended {A} (p : A -> bool) (a : list A) (x : A) :
  existsb p a = false -> p x = true ->
  forall k, findIndexFrom p (a ++ [x]) k = Some (k + length a).
Proof.
  intros Hnone Hx. induction a as [|y a IH]; cbn in *; intros k.
  - rewrite Hx. f_equal. lia.
  - apply orb_false_iff in Hnone as [-> Hnone]. rewrite IH by assumption.
    f_equal. lia.
Qed.

Lemma findIndexFrom_none {A} (p : A -> bool) (a : list A) :
  existsb p a = false -> forall k, findIndexFrom p a k = None.
Proof.
  intros Hnone. induction a as [|y a IH]; cbn in *; intros k; [reflexivity|].
  apply orb_false_iff in Hnone as [-> Hnone]. now apply IH.
Qed.

Lemma findIndexFrom_found {A} (p : A -> bool) (a : list A) :
  forall k i,
    findIndexFrom p a k = Some i ->
    exists front x back,
      a = front ++ x :: back /\ existsb p front = false /\ p x = true
      /\ i = k + length front.
Proof.
  induction a as [|y a IH]; cbn; intros k i H; [discriminate|].
  destruct (p y) eqn:Hy.
  - injection H as <-. exists [], y, a. cbn. repeat split; auto; lia.
  - apply IH in H as (front & x & back & -> & Hfront & Hx & ->).
    exists (y :: front), x, back. cbn. rewrite Hy, Hfront.
    repeat split; auto; lia.
Qed.

(** ** ECMAScript regular expressions

    The bot builds its patterns as strings and hands them to [new RegExp], and
    the markdown conversion is a chain of [String.prototype.replace] calls on
    regular-expression literals. This module models the fragment of the
    pattern language those sources use: its syntax, the backtracking matcher
    with its priorities (greedy and lazy quantifiers, ordered alternation,
    capture groups, lookahead), [exec], [replace] and [split]. A JavaScript
    string is the list of its code units; code units are [ascii]. *)

Module JSRegExp.

Local Open Scope nat_scope.

Coercion list_ascii_of_string : string >-> list.

Definition code (c : ascii) : nat := nat_of_ascii c.

(** WhiteSpace and LineTerminator code units below 256: what [\s] matches. *)
Definition isSpace (c : ascii) : bool :=
  existsb (Nat.eqb (code c)) [9; 10; 11; 12; 13; 32; 160].

(** LineTerminator: what [.] does not match. *)
Definition isLineTerminator (c : ascii) : bool :=
  existsb (Nat.eqb (code c)) [10; 13].

Definition isDigit (c : ascii) : bool :=
  ((48 <=? code c) && (code c <=? 57))%nat.

Definition isWord (c : ascii) : bool :=
  (isDigit c
   || ((65 <=? code c) && (code c <=? 90))
   || ((97 <=? code c) && (code c <=? 122))
   || (code c =? 95))%nat.

Inductive classItem : Type :=
| ItemChar (c : ascii)
| ItemRange (lo hi : ascii)
| ItemSpace (neg : bool)
| ItemDigit (neg : bool)
| ItemWord (neg : bool).

Inductive charset : Type :=
| CsAny
| CsChar (c : ascii)
| CsSpace (neg : bool)
| CsDigit (neg : bool)
| CsWord (neg : bool)
| CsClass (neg : bool) (items : list classItem).

Definition matchesItem (i : classItem) (c : ascii) : bool :=
  match i with
  | ItemChar c' => Ascii.eqb c' c
  | ItemRange lo hi => ((code lo <=? code c) && (code c <=? code hi))%nat
  | ItemSpace neg => xorb neg (isSpace c)
  | ItemDigit neg => xorb neg (isDigit c)
  | ItemWord neg => xorb neg (isWord c)
  end.

Definition matchesCs (cs : charset) (c : ascii) : bool :=
  match cs with
  | CsAny => negb (isLineTerminator c)
  | CsChar c' => Ascii.eqb c' c
  | CsSpace neg => xorb neg (isSpace c)
  | CsDigit neg => xorb neg (isDigit c)
  | CsWord neg => xorb neg (isWord c)
  | CsClass neg items => xorb neg (existsb (fun i => matchesItem i c) items)
  end.

(** The abstract syntax of a pattern. [r+] is [Seq r (Star r)]. *)
Inductive regex : Type :=
| Empty
| Chr (cs : charset)
| Seq (r1 r2 : regex)
| Alt (r1 r2 : regex)
| Star (greedy : bool) (r : regex)
| Opt (greedy : bool) (r : regex)
| Group (n : nat) (name : string) (r : regex)
| Bol
| Eol
| Look (neg : bool) (r : regex).

(** *** The matcher *)

(** A position in the subject: how many code units lie before it, the code
    units from it on, and the captures made so far. *)
Record mstate := {
  pos : nat;
  rest : list ascii;
  caps : list (nat * list ascii)
}.

Definition Cont : Type := mstate -> option mstate.

Fixpoint groupsOf (r : regex) : list nat :=
  match r with
  | Empty | Chr _ | Bol | Eol => []
  | Seq r1 r2 | Alt r1 r2 => groupsOf r1 ++ groupsOf r2
  | Star _ r1 | Opt _ r1 | Look _ r1 => groupsOf r1
  | Group n _ r1 => n :: groupsOf r1
  end.

Definition setCap (n : nat) (v : list ascii) (cs : list (nat * list ascii)) :=
  (n, v) :: List.filter (fun p => negb (fst p =? n)) cs.

Definition getCap (n : nat) (cs : list (nat * list ascii)) : option (list ascii) :=
  snd <$> find (fun p => fst p =? n) cs.

(** The captures of the groups [gs] become undefined again: what a quantifier
    does when it enters its atom once more. *)
Definition resetCaps (gs : list nat) (st : mstate) : mstate :=
  {| pos := pos st; rest := rest st;
     caps := List.filter (fun p => negb (existsb (Nat.eqb (fst p)) gs)) (caps st) |}.

(** The iterations of [body*]: an iteration that consumes nothing is
    rejected, so [n] iterations need at least [n] code units. *)
Fixpoint starLoop (body : mstate -> Cont -> option mstate) (greedy : bool)
    (k : Cont) (n : nat) (st : mstate) : option mstate :=
  match n with
  | 0 => k st
  | S n' =>
      let again (_ : unit) :=
        body st (fun st' =>
          if length (rest st') <? length (rest st)
          then starLoop body greedy k n' st' else None) in
      if greedy then
        match again tt with Some res => Some res | None => k st end
      else
        match k st with Some res => Some res | None => again tt end
  end.

Fixpoint run (r : regex) (st : mstate) (k : Cont) : option mstate :=
  match r with
  | Empty => k st
  | Chr cs =>
      match rest st with
      | c :: tl =>
          if matchesCs cs c
          then k {| pos := S (pos st); rest := tl; caps := caps st |}
          else None
      | [] => None
      end
  | Seq r1 r2 => run r1 st (fun st' => run r2 st' k)
  | Alt r1 r2 =>
      match run r1 st k with Some res => Some res | None => run r2 st k end
  | Star greedy r1 =>
      starLoop (fun st' k' => run r1 (resetCaps (groupsOf r1) st') k')
        greedy k (S (length (rest st))) st
  | Opt greedy r1 =>
      let once (_ : unit) :=
        run r1 (resetCaps (groupsOf r1) st) (fun st' =>
          if length (rest st') <? length (rest st) then k st' else None) in
      if greedy then
        match once tt with Some res => Some res | None => k st end
      else
        match k st with Some res => Some res | None => once tt end
  | Group n _ r1 =>
      run r1 st (fun st' =>
        k {| pos := pos st'; rest := rest st';
             caps := setCap n (firstn (pos st' - pos st) (rest st)) (caps st') |})
  | Bol => if pos st =? 0 then k st else None
  | Eol => match rest st with [] => k st | _ :: _ => None end
  | Look neg r1 =>
      match run r1 st Some with
      | Some st' =>
          if neg then None
          else k {| pos := pos st; rest := rest st; caps := caps st' |}
      | None => if neg then k st else None
      end
  end.

(** A match: where it starts, where it ends and what its groups captured. *)
Record MatchResult := {
  index : nat;
  lastIndex : nat;
  captures : list (nat * list ascii)
}.

(** The leftmost match at or after position [p], [s] being the subject from
    [p] on. *)
Fixpoint search (r : regex) (p : nat) (s : list ascii) : option MatchResult :=
  match run r {| pos := p; rest := s; caps := [] |} Some with
  | Some st => Some {| index := p; lastIndex := pos st; captures := caps st |}
  | None =>
      match s with
      | [] => None
      | _ :: tl => search r (S p) tl
      end
  end.

(** [RegExp.prototype.exec] of a pattern without flags. *)
Definition exec (r : regex) (s : list ascii) : option MatchResult := search r 0 s.

Definition test (r : regex) (s : list ascii) : bool := bool_decide (is_Some (exec r s)).

(** *** The parser of pattern strings *)

Definition mkSeq (r1 r2 : regex) : regex :=
  match r2 with Empty => r1 | _ => Seq r1 r2 end.

(** The quantifier, if any, that follows an atom. *)
Definition quantified (r : regex) (s : list ascii) : regex * list ascii :=
  match s with
  | "*" :: "?" :: s' => (Star false r, s')
  | "*" :: s' => (Star true r, s')
  | "+" :: "?" :: s' => (Seq r (Star false r), s')
  | "+" :: s' => (Seq r (Star true r), s')
  | "?" :: "?" :: s' => (Opt false r, s')
  | "?" :: s' => (Opt true r, s')
  | _ => (r, s)
  end%char.

(** A character escape outside a class. *)
Definition escape (c : ascii) : option charset :=
  (if Ascii.eqb c "s" then Some (CsSpace false)
   else if Ascii.eqb c "S" then Some (CsSpace true)
   else if Ascii.eqb c "d" then Some (CsDigit false)
   else if Ascii.eqb c "D" then Some (CsDigit true)
   else if Ascii.eqb c "w" then Some (CsWord false)
   else if Ascii.eqb c "W" then Some (CsWord true)
   else if Ascii.eqb c "n" then Some (CsChar (ascii_of_nat 10))
   else if Ascii.eqb c "r" then Some (CsChar (ascii_of_nat 13))
   else if Ascii.eqb c "t" then Some (CsChar (ascii_of_nat 9))
   else if Ascii.eqb c "v" then Some (CsChar (ascii_of_nat 11))
   else if Ascii.eqb c "f" then Some (CsChar (ascii_of_nat 12))
   else if isWord c then None
   else Some (CsChar c))%char.

Definition itemOf (cs : charset) : option classItem :=
  match cs with
  | CsChar c => Some (ItemChar c)
  | CsSpace neg => Some (ItemSpace neg)
  | CsDigit neg => Some (ItemDigit neg)
  | CsWord neg => Some (ItemWord neg)
  | _ => None
  end.

(** The items of a class up to its closing bracket. *)
Fixpoint parseClass (s : list ascii) : option (list classItem * list ascii) :=
  match s with
  | [] => None
  | "]" :: s' => Some ([], s')
  | "\" :: c :: s' =>
      i ← escape c ≫= itemOf;
      '(items, s'') ← parseClass s';
      Some (i :: items, s'')
  | "\" :: [] => None
  | lo :: "-" :: "]" :: s' => Some ([ItemChar lo; ItemChar "-"], s')
  | _ :: "-" :: "\" :: _ => None
  | lo :: "-" :: hi :: s' =>
      '(items, s'') ← parseClass s';
      Some (ItemRange lo hi :: items, s'')
  | c :: s' =>
      '(items, s'') ← parseClass s';
      Some (ItemChar c :: items, s'')
  end%char.

(** The name of a named group, up to its closing angle. *)
Fixpoint parseName (s : list ascii) : option (list ascii * list ascii) :=
  match s with
  | [] => None
  | ">" :: s' => Some ([], s')
  | c :: s' =>
      if isWord c then
        '(name, s'') ← parseName s'; Some (c :: name, s'')
      else None
  end%char.

Definition closing (s : list ascii) : option (list ascii) :=
  match s with
  | ")" :: s' => Some s'
  | _ => None
  end%char.

(** Disjunction, Alternative and Term of the pattern grammar. The result is
    the pattern read, the input left and the index of the next group. *)
Fixpoint parseDisjunction (fuel : nat) (s : list ascii) (gi : nat)
    : option (regex * list ascii * nat) :=
  match fuel with
  | 0 => None
  | S fuel =>
      '(r1, s1, g1) ← parseAlternative fuel s gi;
      match s1 with
      | "|" :: s1' =>
          '(r2, s2, g2) ← parseDisjunction fuel s1' g1;
          Some (Alt r1 r2, s2, g2)
      | _ => Some (r1, s1, g1)
      end
  end%char
with parseAlternative (fuel : nat) (s : list ascii) (gi : nat)
    : option (regex * list ascii * nat) :=
  match fuel with
  | 0 => None
  | S fuel =>
      match s with
      | [] => Some (Empty, s, gi)
      | "|" :: _ => Some (Empty, s, gi)
      | ")" :: _ => Some (Empty, s, gi)
      | _ =>
          '(r1, s1, g1) ← parseTerm fuel s gi;
          '(r2, s2, g2) ← parseAlternative fuel s1 g1;
          Some (mkSeq r1 r2, s2, g2)
      end
  end%char
with parseTerm (fuel : nat) (s : list ascii) (gi : nat)
    : option (regex * list ascii * nat) :=
  match fuel with
  | 0 => None
  | S fuel =>
      match s with
      | [] => None
      | "^" :: s' => Some (Bol, s', gi)
      | "$" :: s' => Some (Eol, s', gi)
      | "(" :: "?" :: "=" :: s' =>
          '(r, s1, g1) ← parseDisjunction fuel s' gi;
          s2 ← closing s1; Some (Look false r, s2, g1)
      | "(" :: "?" :: "!" :: s' =>
          '(r, s1, g1) ← parseDisjunction fuel s' gi;
          s2 ← closing s1; Some (Look true r, s2, g1)
      | "(" :: "?" :: ":" :: s' =>
          '(r, s1, g1) ← parseDisjunction fuel s' gi;
          s2 ← closing s1;
          let '(q, s3) := quantified r s2 in Some (q, s3, g1)
      | "(" :: "?" :: "<" :: s' =>
          '(name, s0) ← parseName s';
          '(r, s1, g1) ← parseDisjunction fuel s0 (S gi);
          s2 ← closing s1;
          let '(q, s3) := quantified (Group gi (string_of_list_ascii name) r) s2 in
          Some (q, s3, g1)
      | "(" :: "?" :: _ => None
      | "(" :: s' =>
          '(r, s1, g1) ← parseDisjunction fuel s' (S gi);
          s2 ← closing s1;
          let '(q, s3) := quantified (Group gi EmptyString r) s2 in Some (q, s3, g1)
      | "[" :: "^" :: s' =>
          '(items, s1) ← parseClass s';
          let '(q, s2) := quantified (Chr (CsClass true items)) s1 in
          Some (q, s2, gi)
      | "[" :: s' =>
          '(items, s1) ← parseClass s';
          let '(q, s2) := quantified (Chr (CsClass false items)) s1 in
          Some (q, s2, gi)
      | "\" :: c :: s' =>
          cs ← escape c;
          let '(q, s1) := quantified (Chr cs) s' in Some (q, s1, gi)
      | "\" :: [] => None
      | "." :: s' =>
          let '(q, s1) := quantified (Chr CsAny) s' in Some (q, s1, gi)
      | "*" :: _ => None
      | "+" :: _ => None
      | "?" :: _ => None
      | "{" :: _ => None
      | ")" :: _ => None
      | "|" :: _ => None
      | c :: s' =>
          let '(q, s1) := quantified (Chr (CsChar c)) s' in Some (q, s1, gi)
      end
  end%char.

(** [new RegExp(source)]: [None] when the constructor throws a SyntaxError
    (or the source leaves the modelled fragment). *)
Definition compile (source : list ascii) : option regex :=
  match parseDisjunction (3 * length source + 3) source 1 with
  | Some (r, [], _) => Some r
  | _ => None
  end.

(** *** [String.prototype.replace] and [split] *)

Fixpoint maxGroup (r : regex) : nat :=
  match r with
  | Empty | Chr _ | Bol | Eol => 0
  | Seq r1 r2 | Alt r1 r2 => Nat.max (maxGroup r1) (maxGroup r2)
  | Star _ r1 | Opt _ r1 | Look _ r1 => maxGroup r1
  | Group n _ r1 => Nat.max n (maxGroup r1)
  end.

Definition digitValue (c : ascii) : nat := code c - 48.

(** The replacement text of one match: [$$], [$&] and [$n] for a group [n]
    of the pattern (an undefined capture is the empty string); any other
    text stands for itself. *)
Fixpoint expand (groups : nat) (tmpl matched : list ascii)
    (cs : list (nat * list ascii)) : list ascii :=
  match tmpl with
  | [] => []
  | "$" :: "$" :: t => "$" :: expand groups t matched cs
  | "$" :: "&" :: t => matched ++ expand groups t matched cs
  | "$" :: d :: t =>
      if (isDigit d && (1 <=? digitValue d) && (digitValue d <=? groups))%nat
      then default [] (getCap (digitValue d) cs) ++ expand groups t matched cs
      else "$" :: d :: expand groups t matched cs
  | c :: t => c :: expand groups t matched cs
  end%char.

Definition substitution (r : regex) (tmpl s : list ascii) (m : MatchResult)
    : list ascii :=
  expand (maxGroup r) tmpl
    (firstn (lastIndex m - index m) (skipn (index m) s)) (captures m).

(** [s.replace(r, tmpl)] for a pattern without the global flag. *)
Definition replace (r : regex) (tmpl s : list ascii) : list ascii :=
  match exec r s with
  | None => s
  | Some m =>
      firstn (index m) s ++ substitution r tmpl s m ++ skipn (lastIndex m) s
  end.

(** The matches of a global pattern from position [p] on, [s] being the
    subject from [p] on: after an empty match the next search starts one
    code unit further. *)
Fixpoint replaceFrom (fuel : nat) (r : regex) (tmpl : list ascii) (p : nat)
    (s : list ascii) : list ascii :=
  match fuel with
  | 0 => s
  | S fuel =>
      match search r p s with
      | None => s
      | Some m =>
          let before := firstn (index m - p) s in
          let matched := firstn (lastIndex m - index m) (skipn (index m - p) s) in
          let out := before ++ expand (maxGroup r) tmpl matched (captures m) in
          if lastIndex m =? index m then
            match skipn (index m - p) s with
            | [] => out
            | c :: tl => out ++ c :: replaceFrom fuel r tmpl (S (index m)) tl
            end
          else
            out ++ replaceFrom fuel r tmpl (lastIndex m) (skipn (lastIndex m - p) s)
      end
  end.

(** [s.replace(r, tmpl)] for a pattern with the global flag. *)
Definition replaceAll (r : regex) (tmpl s : list ascii) : list ascii :=
  replaceFrom (S (length s)) r tmpl 0 s.

(** [s.split(sep)] for a separator of one code unit. *)
Fixpoint split (sep : ascii) (s : list ascii) : list (list ascii) :=
  match s with
  | [] => [[]]
  | c :: s' =>
      if Ascii.eqb c sep then [] :: split sep s'
      else
        match split sep s' with
        | l :: ls => (c :: l) :: ls
        | [] => [[c]]
        end
  end.

(** A regular-expression literal of the source: its pattern always compiles. *)
Definition literal (source : string) : regex :=
  default (Look true Empty) (compile source).

(** *** The package escape-string-regexp

    [EscapeRegex(s)] puts a backslash before each of the characters
    [| \ { } ( ) [ ] ^ $ + * ? .] of [s]. *)
Definition isSpecial (c : ascii) : bool :=
  existsb (Ascii.eqb c)
    ["|"; "\"; "{"; "}"; "("; ")"; "["; "]"; "^"; "$"; "+"; "*"; "?"; "."]%char.

Definition EscapeRegex (s : list ascii) : list ascii :=
  flat_map (fun c => if isSpecial c then ["\"%char; c] else [c]) s.

(** *** What a match must consume

    [minOcc c r] occurrences of the code unit [c] lie in every string that
    [r] matches, so a subject with fewer of them has no match. *)

Fixpoint occ (c : ascii) (s : list ascii) : nat :=
  match s with
  | [] => 0
  | a :: s' => (if Ascii.eqb a c then 1 else 0) + occ c s'
  end.

Definition csOnly (c : ascii) (cs : charset) : bool :=
  match cs with
  | CsChar c' => Ascii.eqb c' c
  | _ => false
  end.

Fixpoint minOcc (c : ascii) (r : regex) : nat :=
  match r with
  | Chr cs => if csOnly c cs then 1 else 0
  | Seq r1 r2 => minOcc c r1 + minOcc c r2
  | Alt r1 r2 => Nat.min (minOcc c r1) (minOcc c r2)
  | Group _ _ r1 => minOcc c r1
  | _ => 0
  end.

Lemma occ_app c s1 s2 : occ c (s1 ++ s2) = occ c s1 + occ c s2.
Proof. induction s1 as [|a s1 IH]; cbn; [reflexivity | rewrite IH; lia]. Qed.

Lemma occ_absent c s : ~ In c s -> occ c s = 0.
Proof.
  induction s as [|a s IH]; cbn; [reflexivity|]. intros H.
  destruct (Ascii.eqb_spec a c) as [->|_]; [exfalso; auto|].
  apply IH. auto.
Qed.

Section Consumes.
Variable c : ascii.

(** A continuation that fails on every position reached after consuming at
    least [m] occurrences of [c] from [st]. *)
Definition failsAfter (m : nat) (st : mstate) (k : Cont) : Prop :=
  forall st', occ c (rest st') + m <= occ c (rest st) -> k st' = None.

Lemma starLoop_consumes body greedy k bound :
  (forall st k', failsAfter 0 st k' -> body st k' = None) ->
  (forall st', occ c (rest st') <= bound -> k st' = None) ->
  forall n st, occ c (rest st) <= bound -> starLoop body greedy k n st = None.
Proof.
  intros Hbody Hk. induction n as [|n IH]; intros st Hst; cbn [starLoop].
  - apply Hk, Hst.
  - assert (body st (fun st' =>
              if length (rest st') <? length (rest st)
              then starLoop body greedy k n st' else None) = None) as Hagain.
    { apply Hbody. intros st' Hst'. destruct (_ <? _); [|reflexivity].
      apply IH. lia. }
    rewrite Hagain, (Hk st Hst). destruct greedy; reflexivity.
Qed.

Lemma run_consumes r :
  forall st k, failsAfter (minOcc c r) st k -> run r st k = None.
Proof.
  induction r as [|cs|r1 IH1 r2 IH2|r1 IH1 r2 IH2|g r1 IH1|g r1 IH1
                  |n name r1 IH1| | |neg r1 IH1]; intros st k Hk; cbn [run].
  - apply Hk. cbn. lia.
  - destruct (rest st) as [|a tl] eqn:Hrest; [reflexivity|].
    destruct (matchesCs cs a) eqn:Hm; [|reflexivity].
    apply Hk. cbn [rest]. rewrite Hrest. cbn [occ minOcc].
    destruct (csOnly c cs) eqn:Hc; [|lia].
    destruct cs; try discriminate Hc. cbn in Hc, Hm.
    apply Ascii.eqb_eq in Hc, Hm. subst. rewrite Ascii.eqb_refl. lia.
  - apply IH1. intros st1 H1. apply IH2. intros st2 H2. apply Hk.
    cbn [minOcc]. lia.
  - rewrite IH1, IH2; [reflexivity| |]; intros st' H'; apply Hk;
      cbn [minOcc]; lia.
  - apply starLoop_consumes with (bound := occ c (rest st)); [| |lia].
    + intros st1 k1 H1. apply IH1. intros st' H'. apply H1.
      cbn [rest resetCaps] in H'. lia.
    + intros st' H'. apply Hk. cbn [minOcc]. lia.
  - assert (run r1 (resetCaps (groupsOf r1) st) (fun st' =>
              if length (rest st') <? length (rest st) then k st' else None)
            = None) as Honce.
    { apply IH1. intros st' H'. destruct (_ <? _); [|reflexivity].
      apply Hk. cbn [rest resetCaps] in H'. cbn [minOcc]. lia. }
    rewrite Honce, (Hk st); [destruct g; reflexivity | cbn [minOcc]; lia].
  - apply IH1. intros st' H'. apply Hk. cbn [rest minOcc]. lia.
  - destruct (pos st =? 0); [|reflexivity]. apply Hk. cbn. lia.
  - destruct (rest st) eqn:Hrest; [|reflexivity]. apply Hk. rewrite Hrest. cbn. lia.
  - destruct (run r1 st Some), neg; try reflexivity; apply Hk; cbn; lia.
Qed.

Lemma search_absent r s :
  occ c s < minOcc c r -> forall p, search r p s = None.
Proof.
  induction s as [|a s IH]; intros Hlt p; cbn.
  - rewrite run_consumes; [reflexivity|]. intros st' H'. cbn in *. lia.
  - rewrite run_consumes; [|intros st' H'; cbn in *; lia].
    apply IH. cbn in Hlt. lia.
Qed.

Lemma replaceAll_absent r tmpl s :
  occ c s < minOcc c r -> replaceAll r tmpl s = s.
Proof.
  intros H. unfold replaceAll. cbn. now rewrite search_absent.
Qed.

Lemma replace_absent r tmpl s :
  occ c s < minOcc c r -> replace r tmpl s = s.
Proof.
  intros H. unfold replace, exec. now rewrite search_absent.
Qed.

End Consumes.

Lemma split_absent sep s : ~ In sep s -> split sep s = [s].
Proof.
  induction s as [|a s IH]; cbn; [reflexivity|]. intros H.
  destruct (Ascii.eqb_spec a sep) as [->|_]; [exfalso; auto|].
  rewrite IH; auto.
Qed.

Lemma split_app_sep sep s1 s2 :
  ~ In sep s1 -> split sep (s1 ++ sep :: s2) = s1 :: split sep s2.
Proof.
  induction s1 as [|a s1 IH]; cbn; intros H.
  - now rewrite Ascii.eqb_refl.
  - destruct (Ascii.eqb_spec a sep) as [->|_]; [exfalso; auto|].
    rewrite IH; auto.
Qed.

(** *** What the matcher finds

    Captures never decide whether a pattern of this fragment matches: there
    are no backreferences. [matchesAt r x y] says that [r] can match from the
    place [x], a position and the code units from it on, up to the place
    [y]; the backtracking matcher fails exactly when its continuation fails
    at every such [y]. *)

Definition place : Type := nat * list ascii.

Definition placeOf (st : mstate) : place := (pos st, rest st).

Definition stateAt (y : place) (cs : list (nat * list ascii)) : mstate :=
  {| pos := fst y; rest := snd y; caps := cs |}.

(** Iterations of a quantified atom, each consuming something. *)
Inductive iter (R : place -> place -> Prop) : place -> place -> Prop :=
| iter_done x : iter R x x
| iter_step x y z :
    R x y -> length (snd y) < length (snd x) -> iter R y z -> iter R x z.

Fixpoint matchesAt (r : regex) (x y : place) : Prop :=
  match r with
  | Empty => y = x
  | Chr cs =>
      exists c, snd x = c :: snd y /\ matchesCs cs c = true /\ fst y = S (fst x)
  | Seq r1 r2 => exists z, matchesAt r1 x z /\ matchesAt r2 z y
  | Alt r1 r2 => matchesAt r1 x y \/ matchesAt r2 x y
  | Star _ r1 => iter (matchesAt r1) x y
  | Opt _ r1 =>
      y = x \/ (matchesAt r1 x y /\ length (snd y) < length (snd x))
  | Group _ _ r1 => matchesAt r1 x y
  | Bol => y = x /\ fst x = 0
  | Eol => y = x /\ snd x = []
  | Look neg r1 =>
      y = x /\ (if neg then ~ (exists z, matchesAt r1 x z)
                else ~ ~ (exists z, matchesAt r1 x z))
  end.

(** A continuation whose failure depends on the place only. *)
Definition blind (k : Cont) : Prop :=
  forall st1 st2, placeOf st1 = placeOf st2 -> k st1 = None -> k st2 = None.

(** The continuation fails wherever the pattern can end. *)
Definition failsOn (R : place -> place -> Prop) (x : place) (k : Cont) : Prop :=
  forall y, R x y -> forall cs, k (stateAt y cs) = None.

Definition agrees (body : mstate -> Cont -> option mstate)
    (R : place -> place -> Prop) : Prop :=
  forall st k, blind k -> (body st k = None <-> failsOn R (placeOf st) k).

Lemma stateAt_placeOf st : stateAt (placeOf st) (caps st) = st.
Proof. destruct st; reflexivity. Qed.

Lemma placeOf_stateAt y cs : placeOf (stateAt y cs) = y.
Proof. destruct y; reflexivity. Qed.

Lemma blind_at k st cs :
  blind k -> k st = None -> k (stateAt (placeOf st) cs) = None.
Proof. intros Hk. apply Hk. reflexivity. Qed.

Lemma blind_from k y cs st :
  blind k -> placeOf st = y -> k (stateAt y cs) = None -> k st = None.
Proof. intros Hk <-. apply Hk. reflexivity. Qed.

Lemma orElse_none {A} (a b : option A) :
  match a with Some res => Some res | None => b end = None
  <-> a = None /\ b = None.
Proof.
  destruct a, b; split; intros H; try tauto; try discriminate;
    destruct H; discriminate.
Qed.

Lemma failsOn_here R st k :
  blind k -> failsOn R (placeOf st) k -> R (placeOf st) (placeOf st) ->
  k st = None.
Proof.
  intros Hk Hall Hhere. apply (blind_from k (placeOf st) [] st Hk eq_refl).
  now apply Hall.
Qed.

Lemma starLoop_none body greedy k n st :
  starLoop body greedy k (S n) st = None
  <-> body st (fun st' =>
                 if length (rest st') <? length (rest st)
                 then starLoop body greedy k n st' else None) = None
      /\ k st = None.
Proof.
  cbn [starLoop]. destruct greedy; rewrite orElse_none; tauto.
Qed.

Lemma agrees_blind body R st1 st2 k :
  agrees body R -> blind k -> placeOf st1 = placeOf st2 ->
  body st1 k = None -> body st2 k = None.
Proof.
  intros Hbody Hk E H. apply (Hbody st2 k Hk). rewrite <- E.
  now apply (Hbody st1 k Hk).
Qed.

Lemma blind_guard (k : Cont) (bound : nat) :
  blind k ->
  blind (fun st' => if length (rest st') <? bound then k st' else None).
Proof.
  intros Hk x1 x2 Ex. assert (rest x1 = rest x2) as -> by (now injection Ex).
  destruct (_ <? _); [now apply Hk | reflexivity].
Qed.

Lemma starLoop_blind body R greedy k :
  agrees body R -> blind k -> forall n, blind (starLoop body greedy k n).
Proof.
  intros Hbody Hk. induction n as [|n IH]; [exact Hk|].
  intros st1 st2 E. rewrite !starLoop_none.
  assert (rest st1 = rest st2) as Er by (now injection E).
  rewrite <- Er. intros [Hagain Hdone]. split; [|now apply (Hk st1 st2)].
  eapply agrees_blind; eauto. now apply blind_guard.
Qed.

Lemma starLoop_agrees body R greedy k :
  agrees body R -> blind k ->
  forall n st, length (rest st) < n ->
    (starLoop body greedy k n st = None <-> failsOn (iter R) (placeOf st) k).
Proof.
  intros Hbody Hk.
  induction n as [|n IH]; intros st Hn; [lia|].
  rewrite starLoop_none.
  rewrite (Hbody st _ (blind_guard _ _ (starLoop_blind body R greedy k Hbody Hk n))).
  split.
  - intros [Hstep Hdone] y Hy cs.
    inversion Hy as [|x' z y' Hxz Hlt Hzy]; subst.
    + now apply blind_at.
    + specialize (Hstep z Hxz []). cbn -[Nat.ltb] in Hstep, Hlt.
      apply Nat.ltb_lt in Hlt as Hlt'. rewrite Hlt' in Hstep.
      apply IH in Hstep; [|cbn; lia].
      rewrite placeOf_stateAt in Hstep. now apply Hstep.
  - intros Hall. split.
    + intros z Hxz cs. cbn -[Nat.ltb].
      destruct (_ <? _) eqn:Hlt; [|reflexivity].
      apply Nat.ltb_lt in Hlt. apply IH; [cbn; lia|].
      rewrite placeOf_stateAt.
      intros y Hzy cs'. apply Hall. eapply iter_step; eauto.
    + apply (failsOn_here _ _ _ Hk Hall). constructor.
Qed.

Lemma blind_Some : blind Some.
Proof. intros st1 st2 _ H. discriminate H. Qed.

(** The matcher fails exactly when its continuation fails wherever the
    pattern can end. *)
Lemma run_agrees r : agrees (run r) (matchesAt r).
Proof.
  induction r as [|chars|r1 IH1 r2 IH2|r1 IH1 r2 IH2|g r1 IH1|g r1 IH1
                  |n name r1 IH1| | |neg r1 IH1]; intros st k Hk;
    cbn [run matchesAt].
  - split.
    + intros H y -> cs. now apply blind_at.
    + intros H. now apply (failsOn_here _ _ _ Hk H).
  - destruct (rest st) as [|c tl] eqn:Hrest.
    + split; [|reflexivity]. intros _ y (c & Hc & _) cs. cbn in Hc.
      rewrite Hrest in Hc. discriminate.
    + destruct (matchesCs chars c) eqn:Hm.
      * split.
        -- intros H [yp ys] (c' & Hc & Hm' & Hp) cs'. cbn in Hc, Hp.
           rewrite Hrest in Hc. injection Hc as _ <-. subst yp.
           eapply Hk; [|exact H]. reflexivity.
        -- intros H.
           eapply (blind_from k (S (pos st), tl) []); [exact Hk|reflexivity|].
           apply H. exists c. cbn. auto.
      * split; [|reflexivity]. intros _ [yp ys] (c' & Hc & Hm' & _) cs'.
        cbn in Hc. rewrite Hrest in Hc. injection Hc as <- _. congruence.
  - assert (blind (fun st' => run r2 st' k)) as Hk2.
    { intros x1 x2 E. now apply (agrees_blind _ _ _ _ _ IH2 Hk). }
    rewrite (IH1 st _ Hk2). split.
    + intros H y (z & Hz & Hy) cs. specialize (H z Hz []). cbn beta in H.
      apply (IH2 _ k Hk) in H. rewrite placeOf_stateAt in H. now apply H.
    + intros H z Hz cs. apply (IH2 _ k Hk). rewrite placeOf_stateAt.
      intros y Hy cs'. apply H. exists z. auto.
  - rewrite orElse_none, (IH1 st k Hk), (IH2 st k Hk). split.
    + intros [H1 H2] y [Hy|Hy]; auto.
    + intros H. split; intros y Hy; apply H; auto.
  - assert (agrees (fun st' k' => run r1 (resetCaps (groupsOf r1) st') k')
              (matchesAt r1)) as Hbody.
    { intros st' k' Hk'. apply (IH1 (resetCaps (groupsOf r1) st') k' Hk'). }
    apply (starLoop_agrees _ _ g k Hbody Hk). lia.
  - assert (run r1 (resetCaps (groupsOf r1) st)
              (fun st' => if length (rest st') <? length (rest st)
                          then k st' else None) = None
            /\ k st = None
            <-> failsOn (fun x y => y = x \/ matchesAt r1 x y
                                    /\ length (snd y) < length (snd x))
                  (placeOf st) k) as H.
    { rewrite (IH1 (resetCaps (groupsOf r1) st) _ (blind_guard _ _ Hk)).
      split.
      - intros [Hstep Hdone] y [->|[Hy Hlt]] cs.
        + now apply blind_at.
        + specialize (Hstep y Hy cs). cbn -[Nat.ltb] in Hstep, Hlt.
          apply Nat.ltb_lt in Hlt. now rewrite Hlt in Hstep.
      - intros Hall. split.
        + intros y Hy cs. cbn -[Nat.ltb]. destruct (_ <? _) eqn:Hlt; [|reflexivity].
          apply Nat.ltb_lt in Hlt. apply Hall. right. split; [exact Hy|].
          exact Hlt.
        + apply (failsOn_here _ _ _ Hk Hall). now left. }
    rewrite <- H. destruct g; rewrite orElse_none; tauto.
  - rewrite (IH1 st).
    2:{ intros x1 x2 Ex Hx. eapply Hk; [|exact Hx].
        unfold placeOf in *. cbn. exact Ex. }
    split.
    + intros H y Hy cs. specialize (H y Hy cs). cbn in H.
      eapply Hk; [|exact H]. reflexivity.
    + intros H y Hy cs. cbn. apply (blind_from k y [] _ Hk (placeOf_stateAt y _)).
      apply (H y Hy []).
  - destruct (pos st =? 0) eqn:Hp.
    + apply Nat.eqb_eq in Hp. split.
      * intros H y [-> _] cs. now apply blind_at.
      * intros H. apply (failsOn_here _ _ _ Hk H). now split.
    + apply Nat.eqb_neq in Hp. split; [|reflexivity].
      intros _ y [_ H0]. cbn in H0. contradiction.
  - destruct (rest st) eqn:Hr.
    + split.
      * intros H y [-> _] cs. now apply blind_at.
      * intros H. apply (failsOn_here _ _ _ Hk H). now split.
    + split; [|reflexivity]. intros _ y [_ H0]. cbn in H0. congruence.
  - pose proof (IH1 st Some blind_Some) as Hlook.
    assert (run r1 st Some = None <-> ~ (exists z, matchesAt r1 (placeOf st) z))
      as Hnone.
    { rewrite Hlook. split.
      - intros H [z Hz]. specialize (H z Hz []). discriminate H.
      - intros H z Hz. exfalso. eauto. }
    destruct (run r1 st Some) as [st'|] eqn:Hrun.
    + assert (~ ~ (exists z, matchesAt r1 (placeOf st) z)) as Hex.
      { intros Hn. apply Hnone in Hn. discriminate Hn. }
      destruct neg.
      * split; [|reflexivity]. intros _ y [_ Hn]. contradiction.
      * split.
        -- intros H y [-> _] cs. eapply Hk; [|exact H]. reflexivity.
        -- intros H.
           eapply (blind_from k (placeOf st) []); [exact Hk|reflexivity|].
           apply H. now split.
    + assert (~ (exists z, matchesAt r1 (placeOf st) z)) as Hex
        by (now apply Hnone).
      destruct neg.
      * split.
        -- intros H y [-> _] cs. now apply blind_at.
        -- intros H.
           eapply (blind_from k (placeOf st) []); [exact Hk|reflexivity|].
           apply H. now split.
      * split; [|reflexivity]. intros _ y [_ Hn]. contradiction.
Qed.

(** A pattern finds a match in a text exactly when it can match from one of
    the text's positions. *)
Lemma search_agrees r :
  forall s p,
    search r p s = None
    <-> forall i y, i <= length s -> ~ matchesAt r (p + i, skipn i s) y.
Proof.
  induction s as [|c s IH]; intros p; cbn [search].
  - pose proof (run_agrees r {| pos := p; rest := []; caps := [] |} Some blind_Some)
      as H.
    destruct (run r _ Some) eqn:Hrun.
    + split; [discriminate|]. intros Hall. exfalso.
      assert (Some m = None) as E; [|discriminate E].
      apply H. intros y Hy. exfalso. apply (Hall 0 y); [cbn; lia|].
      now rewrite Nat.add_0_r.
    + split; [|reflexivity]. intros _ i y Hi Hy. cbn in Hi.
      assert (i = 0) as -> by lia. rewrite Nat.add_0_r in Hy.
      destruct H as [H _]. specialize (H eq_refl y Hy []). discriminate H.
  - pose proof (run_agrees r {| pos := p; rest := c :: s; caps := [] |} Some
                  blind_Some) as H.
    destruct (run r _ Some) eqn:Hrun.
    + split; [discriminate|]. intros Hall. exfalso.
      assert (Some m = None) as E; [|discriminate E].
      apply H. intros y Hy. exfalso. apply (Hall 0 y); [cbn; lia|].
      now rewrite Nat.add_0_r.
    + rewrite IH. split.
      * intros Hall i y Hi Hy. destruct i as [|i].
        -- rewrite Nat.add_0_r in Hy. destruct H as [H _].
           specialize (H eq_refl y Hy []). discriminate H.
        -- apply (Hall i y); [cbn in Hi; lia|].
           now replace (S p + i) with (p + S i) by lia.
      * intros Hall i y Hi Hy. apply (Hall (S i) y); [cbn; lia|].
        now replace (p + S i) with (S p + i) by lia.
Qed.

(** When the matcher succeeds, the pattern can end where the continuation
    succeeded. *)
Lemma starLoop_finds body R greedy k :
  (forall st k' res, body st k' = Some res ->
     exists y cs, R (placeOf st) y /\ k' (stateAt y cs) = Some res) ->
  forall n st res,
    starLoop body greedy k n st = Some res ->
    exists y cs, iter R (placeOf st) y /\ k (stateAt y cs) = Some res.
Proof.
  intros Hbody. induction n as [|n IH]; intros st res; cbn [starLoop].
  - intros H. exists (placeOf st), (caps st). split; [constructor|].
    now rewrite stateAt_placeOf.
  - set (again := body st _).
    assert (again = Some res ->
            exists y cs, iter R (placeOf st) y /\ k (stateAt y cs) = Some res)
      as Hagain.
    { intros H. apply Hbody in H as (z & cs & Hz & H).
      cbn -[Nat.ltb] in H. destruct (_ <? _) eqn:Hlt; [|discriminate].
      apply Nat.ltb_lt in Hlt. apply IH in H as (y & cs' & Hy & H).
      rewrite placeOf_stateAt in Hy.
      exists y, cs'. split; [|exact H]. eapply iter_step; eauto. }
    assert (k st = Some res ->
            exists y cs, iter R (placeOf st) y /\ k (stateAt y cs) = Some res)
      as Hdone.
    { intros H. exists (placeOf st), (caps st). split; [constructor|].
      now rewrite stateAt_placeOf. }
    destruct greedy.
    + destruct again as [res'|]; [intros [= <-]; auto | auto].
    + destruct (k st) as [res'|]; [intros [= <-]; auto | auto].
Qed.

Lemma run_finds r :
  forall st k res,
    run r st k = Some res ->
    exists y cs, matchesAt r (placeOf st) y /\ k (stateAt y cs) = Some res.
Proof.
  induction r as [|chars|r1 IH1 r2 IH2|r1 IH1 r2 IH2|g r1 IH1|g r1 IH1
                  |n name r1 IH1| | |neg r1 IH1]; intros st k res;
    cbn [run matchesAt].
  - intros H. exists (placeOf st), (caps st). rewrite stateAt_placeOf. auto.
  - destruct (rest st) as [|c tl] eqn:Hrest; [discriminate|].
    destruct (matchesCs chars c) eqn:Hm; [|discriminate].
    intros H. exists (S (pos st), tl), (caps st). split; [|exact H].
    exists c. cbn. auto.
  - intros H. apply IH1 in H as (z & cs & Hz & H).
    apply IH2 in H as (y & cs' & Hy & H). rewrite placeOf_stateAt in Hy.
    exists y, cs'. split; [|exact H]. exists z. auto.
  - destruct (run r1 st k) as [res'|] eqn:H1.
    + intros [= <-]. apply IH1 in H1 as (y & cs & Hy & H). eauto.
    + intros H. apply IH2 in H as (y & cs & Hy & H). eauto.
  - apply starLoop_finds. intros st' k' res' H.
    apply IH1 in H as (y & cs & Hy & H). eauto.
  - set (once := run r1 _ _).
    assert (once = Some res ->
            exists y cs,
              (y = placeOf st
               \/ matchesAt r1 (placeOf st) y
                  /\ length (snd y) < length (snd (placeOf st)))
              /\ k (stateAt y cs) = Some res) as Honce.
    { intros H. apply IH1 in H as (y & cs & Hy & H).
      cbn -[Nat.ltb] in H. destruct (_ <? _) eqn:Hlt; [|discriminate].
      apply Nat.ltb_lt in Hlt. exists y, cs. split; [|exact H]. right.
      split; [exact Hy | exact Hlt]. }
    assert (k st = Some res ->
            exists y cs,
              (y = placeOf st
               \/ matchesAt r1 (placeOf st) y
                  /\ length (snd y) < length (snd (placeOf st)))
              /\ k (stateAt y cs) = Some res) as Hdone.
    { intros H. exists (placeOf st), (caps st). rewrite stateAt_placeOf. auto. }
    destruct g.
    + destruct once as [res'|]; [intros [= <-]; auto | auto].
    + destruct (k st) as [res'|]; [intros [= <-]; auto | auto].
  - intros H. apply IH1 in H as (y & cs & Hy & H). cbn in H. eauto.
  - destruct (pos st =? 0) eqn:Hp; [|discriminate]. apply Nat.eqb_eq in Hp.
    intros H. exists (placeOf st), (caps st). rewrite stateAt_placeOf. auto.
  - destruct (rest st) eqn:Hr; [|discriminate].
    intros H. exists (placeOf st), (caps st). rewrite stateAt_placeOf. auto.
  - destruct (run r1 st Some) as [st'|] eqn:Hlook.
    + destruct neg; [discriminate|]. intros H.
      exists (placeOf st), (caps st'). split; [|exact H]. split; [reflexivity|].
      apply IH1 in Hlook as (z & _ & Hz & _). intros Hn. apply Hn. eauto.
    + destruct neg; [|discriminate]. intros H.
      exists (placeOf st), (caps st). rewrite stateAt_placeOf.
      split; [|exact H]. split; [reflexivity|].
      intros [z Hz].
      apply (run_agrees r1 st Some blind_Some) in Hlook.
      specialize (Hlook z Hz []). discriminate Hlook.
Qed.

(** [exec] finds a match exactly when the pattern can match from a position
    of the text. *)
Lemma search_finds r :
  forall s p m,
    search r p s = Some m ->
    exists i y, i <= length s /\ matchesAt r (p + i, skipn i s) y.
Proof.
  induction s as [|c s IH]; intros p m; cbn [search].
  - destruct (run r _ Some) eqn:Hrun; [|discriminate]. intros _.
    apply run_finds in Hrun as (y & _ & Hy & _).
    exists 0, y. rewrite Nat.add_0_r. auto.
  - destruct (run r _ Some) eqn:Hrun.
    + intros _. apply run_finds in Hrun as (y & _ & Hy & _).
      exists 0, y. rewrite Nat.add_0_r. split; [cbn; lia | exact Hy].
    + intros H. apply IH in H as (i & y & Hi & Hy).
      exists (S i), y. split; [cbn; lia|].
      now replace (p + S i) with (S p + i) by lia.
Qed.

Lemma test_true r s :
  test r s = true
  <-> exists i y, i <= length s /\ matchesAt r (i, skipn i s) y.
Proof.
  unfold test, exec. rewrite bool_decide_eq_true. split.
  - intros [m H]. now apply search_finds in H.
  - intros (i & y & Hi & Hy). destruct (search r 0 s) eqn:H; [eauto|].
    exfalso. apply (proj1 (search_agrees r s 0) H i y Hi). exact Hy.
Qed.

(** The pattern that matches the code units of [s], one after the other. *)
Definition literalOf (s : list ascii) : regex :=
  fold_right (fun c r => mkSeq (Chr (CsChar c)) r) Empty s.

(** A string at whose head no quantifier stands. *)
Definition startsInert (s : list ascii) : bool :=
  match s with
  | c :: _ => negb (Ascii.eqb c "*" || Ascii.eqb c "+" || Ascii.eqb c "?")
  | [] => true
  end.

(** A string at whose head an alternative ends. *)
Definition startsClosed (s : list ascii) : bool :=
  match s with
  | c :: _ => Ascii.eqb c ")" || Ascii.eqb c "|"
  | [] => true
  end.

Ltac each_ascii c :=
  destruct c as [[] [] [] [] [] [] [] []].

Lemma quantified_inert r s : startsInert s = true -> quantified r s = (r, s).
Proof.
  destruct s as [|c s]; [reflexivity|]. intros H.
  each_ascii c; try discriminate H; reflexivity.
Qed.

Lemma parseTerm_plain fuel c s gi :
  isSpecial c = false ->
  parseTerm (S fuel) (c :: s) gi
  = (let '(q, s1) := quantified (Chr (CsChar c)) s in Some (q, s1, gi)).
Proof.
  intros H. each_ascii c; try discriminate H; reflexivity.
Qed.

Lemma parseTerm_escaped fuel c s gi :
  isSpecial c = true ->
  parseTerm (S fuel) ("\"%char :: c :: s) gi
  = (let '(q, s1) := quantified (Chr (CsChar c)) s in Some (q, s1, gi)).
Proof.
  intros H. each_ascii c; try discriminate H; reflexivity.
Qed.

Lemma parseAlternative_plain fuel c s gi :
  isSpecial c = false ->
  parseAlternative (S fuel) (c :: s) gi
  = ('(r1, s1, g1) ← parseTerm fuel (c :: s) gi;
     '(r2, s2, g2) ← parseAlternative fuel s1 g1;
     Some (mkSeq r1 r2, s2, g2)).
Proof.
  intros H. each_ascii c; try discriminate H; reflexivity.
Qed.

Lemma startsInert_escaped s rest :
  startsInert rest = true -> startsInert (EscapeRegex s ++ rest) = true.
Proof.
  destruct s as [|c s]; [trivial|]. intros _.
  unfold EscapeRegex. cbn [flat_map].
  destruct (isSpecial c) eqn:H; [reflexivity|]. cbn [app startsInert].
  each_ascii c; try discriminate H; reflexivity.
Qed.

Lemma startsClosed_inert s : startsClosed s = true -> startsInert s = true.
Proof.
  destruct s as [|c s]; [trivial|]. cbn. intros H.
  each_ascii c; try discriminate H; reflexivity.
Qed.

Lemma parseAlternative_closed fuel s gi :
  startsClosed s = true -> parseAlternative (S fuel) s gi = Some (Empty, s, gi).
Proof.
  destruct s as [|c s]; [reflexivity|]. cbn [startsClosed]. intros H.
  each_ascii c; try discriminate H; reflexivity.
Qed.

Lemma parseAlternative_escaped s :
  forall fuel rest gi,
    length (EscapeRegex s) < fuel -> startsClosed rest = true ->
    parseAlternative fuel (EscapeRegex s ++ rest) gi
    = Some (literalOf s, rest, gi).
Proof.
  induction s as [|c s IH]; intros fuel rest gi Hfuel Hrest.
  - destruct fuel as [|fuel]; [lia|]. now apply parseAlternative_closed.
  - assert (startsInert (EscapeRegex s ++ rest) = true) as Hq
      by (apply startsInert_escaped, startsClosed_inert, Hrest).
    unfold EscapeRegex in *. cbn [flat_map] in *.
    fold (EscapeRegex s) in *.
    destruct (isSpecial c) eqn:Hc; cbn [app] in *.
    + destruct fuel as [|[|fuel]]; cbn [length] in Hfuel; try lia.
      change (parseAlternative (S (S fuel)) ("\"%char :: c :: EscapeRegex s ++ rest) gi)
        with ('(r1, s1, g1) ← parseTerm (S fuel) ("\"%char :: c :: EscapeRegex s ++ rest) gi;
              '(r2, s2, g2) ← parseAlternative (S fuel) s1 g1;
              Some (mkSeq r1 r2, s2, g2)).
      rewrite parseTerm_escaped, quantified_inert by assumption.
      cbn [mbind option_bind].
      rewrite IH by (assumption || lia). reflexivity.
    + destruct fuel as [|[|fuel]]; cbn [length] in Hfuel; try lia.
      rewrite parseAlternative_plain, parseTerm_plain, quantified_inert
        by assumption.
      cbn [mbind option_bind].
      rewrite IH by (assumption || lia). reflexivity.
Qed.

Lemma compile_escaped s : compile (EscapeRegex s) = Some (literalOf s).
Proof.
  unfold compile.
  replace (3 * length (EscapeRegex s) + 3)
    with (S (S (3 * length (EscapeRegex s) + 1))) by lia.
  cbn [parseDisjunction].
  rewrite <- (app_nil_r (EscapeRegex s)) at 2.
  rewrite parseAlternative_escaped by (reflexivity || lia).
  reflexivity.
Qed.

(** *** Literal patterns and white space *)

(** From the place [x] the code units [s] lead to the place [y]. *)
Definition leads (s : list ascii) (x y : place) : Prop :=
  snd x = s ++ snd y /\ fst y = fst x + length s.

Lemma matchesAt_mkSeq r1 r2 x y :
  matchesAt (mkSeq r1 r2) x y <-> exists z, matchesAt r1 x z /\ matchesAt r2 z y.
Proof.
  destruct r2; try reflexivity. cbn. split.
  - intros H. exists y. auto.
  - intros (z & H & ->). exact H.
Qed.

Lemma matchesAt_literal s : forall x y, matchesAt (literalOf s) x y <-> leads s x y.
Proof.
  unfold leads. induction s as [|c s IH]; intros [xp xs] [yp ys]; cbn [literalOf fold_right].
  - cbn. split.
    + intros [= -> ->]. split; [reflexivity | lia].
    + intros [-> ->]. f_equal. lia.
  - fold (literalOf s). rewrite matchesAt_mkSeq. split.
    + intros ([zp zs] & (c' & Hc & Hm & Hp) & Hz). apply IH in Hz as [Hs Hl].
      cbn in *. apply Ascii.eqb_eq in Hm. subst. split; [reflexivity | lia].
    + intros [Hs Hl]. cbn in *. exists (S xp, s ++ ys). split.
      * exists c. cbn. rewrite Ascii.eqb_refl. auto.
      * apply IH. cbn. split; [reflexivity | lia].
Qed.

Definition spaces : regex := Star true (Chr (CsSpace false)).

Definition allSpace (w : list ascii) : Prop := forallb isSpace w = true.

Lemma matchesAt_spaces x y :
  matchesAt spaces x y <-> exists w, allSpace w /\ leads w x y.
Proof.
  unfold spaces, allSpace, leads. cbn [matchesAt]. split.
  - induction 1 as [[xp xs]|[xp xs] [zp zs] [yp ys] (c & Hc & Hm & Hp) _ _
                             (w & Hw & Hs & Hl)].
    + exists []. cbn. split; [reflexivity|]. split; [reflexivity | lia].
    + cbn in *. exists (c :: w). subst. cbn. rewrite Hm, Hw.
      split; [reflexivity|]. split; [reflexivity | lia].
  - intros (w & Hw & Hs & Hl). revert x Hs Hl.
    induction w as [|c w IH]; intros [xp xs] Hs Hl; cbn in *.
    + destruct y as [yp ys]. cbn in *. subst.
      replace (xp + 0) with xp by lia. constructor.
    + apply andb_true_iff in Hw as [Hc Hw].
      apply iter_step with (y := (S xp, w ++ snd y)).
      * exists c. cbn. auto.
      * cbn. subst. cbn. lia.
      * apply IH; [exact Hw | reflexivity | cbn; lia].
Qed.

(** *** Reading a pattern source piece by piece *)

(** [reads parse n s gi res]: the parser [parse] reads [res] from [s] with
    any fuel above [n]. *)
Definition reads
    (parse : nat -> list ascii -> nat -> option (regex * list ascii * nat))
    (n : nat) (s : list ascii) (gi : nat) (res : regex * list ascii * nat)
    : Prop :=
  forall fuel, n < fuel -> parse fuel s gi = Some res.

(** What follows the first alternative of a disjunction. *)
Definition readsTail (n : nat) (r1 : regex) (s1 : list ascii) (g1 : nat)
    (res : regex * list ascii * nat) : Prop :=
  match s1 with
  | "|"%char :: s1' =>
      exists r2 s2 g2,
        reads parseDisjunction n s1' g1 (r2, s2, g2) /\ res = (Alt r1 r2, s2, g2)
  | _ => res = (r1, s1, g1)
  end.

(** A string at whose head a term begins. *)
Definition startsTerm (s : list ascii) : bool :=
  match s with
  | c :: _ => negb (Ascii.eqb c ")" || Ascii.eqb c "|")
  | [] => false
  end.

(** A string that opens a plain capture group. *)
Definition startsGroup (s : list ascii) : bool :=
  match s with
  | c :: _ => negb (Ascii.eqb c "?")
  | [] => true
  end.

Lemma reads_disjunction n1 n2 s gi r1 s1 g1 res :
  reads parseAlternative n1 s gi (r1, s1, g1) ->
  readsTail n2 r1 s1 g1 res ->
  reads parseDisjunction (S (n1 + n2)) s gi res.
Proof.
  intros Halt Htail [|fuel] Hfuel; [lia|]. cbn [parseDisjunction].
  rewrite Halt by lia. cbn [mbind option_bind]. unfold readsTail in Htail.
  destruct s1 as [|c s1]; [now subst|].
  each_ascii c; try (now subst).
  destruct Htail as (r2 & s2 & g2 & Hdis & ->).
  rewrite Hdis by lia. reflexivity.
Qed.

Lemma reads_alternative_end s gi :
  startsClosed s = true -> reads parseAlternative 0 s gi (Empty, s, gi).
Proof.
  intros H [|fuel] Hfuel; [lia|]. now apply parseAlternative_closed.
Qed.

Lemma reads_alternative n1 n2 s gi r1 s1 g1 r2 s2 g2 :
  startsTerm s = true ->
  reads parseTerm n1 s gi (r1, s1, g1) ->
  reads parseAlternative n2 s1 g1 (r2, s2, g2) ->
  reads parseAlternative (S (n1 + n2)) s gi (mkSeq r1 r2, s2, g2).
Proof.
  intros Hs Hterm Halt [|fuel] Hfuel; [lia|].
  assert (parseAlternative (S fuel) s gi
          = ('(r1, s1, g1) ← parseTerm fuel s gi;
             '(r2, s2, g2) ← parseAlternative fuel s1 g1;
             Some (mkSeq r1 r2, s2, g2))) as ->.
  { destruct s as [|c s]; [discriminate Hs|].
    each_ascii c; try discriminate Hs; reflexivity. }
  rewrite Hterm by lia. cbn [mbind option_bind].
  rewrite Halt by lia. reflexivity.
Qed.

Lemma reads_alternative_escaped s rest gi :
  startsClosed rest = true ->
  reads parseAlternative (length (EscapeRegex s)) (EscapeRegex s ++ rest) gi
    (literalOf s, rest, gi).
Proof.
  intros H fuel Hfuel. now apply parseAlternative_escaped.
Qed.

Lemma reads_assertion_start s gi : reads parseTerm 0 ("^"%char :: s) gi (Bol, s, gi).
Proof. intros [|fuel] Hfuel; [lia|]. reflexivity. Qed.

Lemma reads_escape c chars s gi q s1 :
  escape c = Some chars ->
  quantified (Chr chars) s = (q, s1) ->
  reads parseTerm 0 ("\"%char :: c :: s) gi (q, s1, gi).
Proof.
  intros Hc Hq [|fuel] Hfuel; [lia|]. cbn [parseTerm].
  rewrite Hc. cbn [mbind option_bind]. now rewrite Hq.
Qed.

Lemma reads_group n s gi r s1 g1 q s3 :
  startsGroup s = true ->
  reads parseDisjunction n s (S gi) (r, ")"%char :: s1, g1) ->
  quantified (Group gi EmptyString r) s1 = (q, s3) ->
  reads parseTerm (S n) ("("%char :: s) gi (q, s3, g1).
Proof.
  intros Hs Hdis Hq [|fuel] Hfuel; [lia|].
  assert (parseTerm (S fuel) ("("%char :: s) gi
          = ('(r, s1, g1) ← parseDisjunction fuel s (S gi);
             s2 ← closing s1;
             let '(q, s3) := quantified (Group gi EmptyString r) s2 in
             Some (q, s3, g1))) as ->.
  { destruct s as [|c s]; [reflexivity|].
    each_ascii c; try discriminate Hs; reflexivity. }
  rewrite Hdis by lia. cbn [mbind option_bind closing]. now rewrite Hq.
Qed.

Lemma startsGroup_escaped s rest :
  startsGroup rest = true -> startsGroup (EscapeRegex s ++ rest) = true.
Proof.
  destruct s as [|c s]; [trivial|]. intros _.
  unfold EscapeRegex. cbn [flat_map].
  destruct (isSpecial c) eqn:H; [reflexivity|]. cbn [app startsGroup].
  each_ascii c; try discriminate H; reflexivity.
Qed.

Lemma startsTerm_escaped s rest :
  startsTerm rest = true -> startsTerm (EscapeRegex s ++ rest) = true.
Proof.
  destruct s as [|c s]; [trivial|]. intros _.
  unfold EscapeRegex. cbn [flat_map].
  destruct (isSpecial c) eqn:H; [reflexivity|]. cbn [app startsTerm].
  each_ascii c; try discriminate H; reflexivity.
Qed.

Lemma quantified_star r s :
  startsGroup s = true -> quantified r ("*"%char :: s) = (Star true r, s).
Proof.
  destruct s as [|c s]; [reflexivity|]. intros H.
  each_ascii c; try discriminate H; reflexivity.
Qed.

(** Reads a pattern source whose holes are escaped strings. *)
Ltac read_source :=
  lazymatch goal with
  | |- reads parseDisjunction _ _ _ _ =>
      eapply reads_disjunction; [read_source | read_tail]
  | |- reads parseAlternative _ (EscapeRegex _ ++ _) _ _ =>
      eapply reads_alternative_escaped; reflexivity
  | |- reads parseAlternative _ [] _ _ =>
      eapply reads_alternative_end; reflexivity
  | |- reads parseAlternative _ (")"%char :: _) _ _ =>
      eapply reads_alternative_end; reflexivity
  | |- reads parseAlternative _ ("|"%char :: _) _ _ =>
      eapply reads_alternative_end; reflexivity
  | |- reads parseAlternative _ _ _ _ =>
      eapply reads_alternative; [reflexivity | read_source | read_source]
  | |- reads parseTerm _ ("^"%char :: _) _ _ =>
      eapply reads_assertion_start
  | |- reads parseTerm _ ("\"%char :: _) _ _ =>
      eapply reads_escape;
      [ reflexivity
      | first [ reflexivity
              | apply quantified_star, startsGroup_escaped; reflexivity ] ]
  | |- reads parseTerm _ ("("%char :: _) _ _ =>
      eapply reads_group;
      [ first [reflexivity | apply startsGroup_escaped; reflexivity]
      | read_source
      | reflexivity ]
  end
with read_tail :=
  lazymatch goal with
  | |- readsTail _ _ ("|"%char :: _) _ _ =>
      do 3 eexists; split; [read_source | reflexivity]
  | |- readsTail ?n _ _ _ _ => unify n 0; reflexivity
  end.

(** A string without a character that [EscapeRegex] escapes is its own
    escaped form. *)
Lemma EscapeRegex_plain (s : list ascii) :
  forallb (fun c => negb (isSpecial c)) s = true -> EscapeRegex s = s.
Proof.
  unfold EscapeRegex. induction s as [|c s IH]; [reflexivity|].
  cbn [forallb flat_map]. intros [Hc Hs]%andb_true_iff.
  destruct (isSpecial c); [discriminate Hc|]. cbn [app]. now rewrite IH.
Qed.

(** *** Lines *)

Lemma split_nonempty sep s : split sep s <> [].
Proof.
  destruct s as [|c s]; cbn; [discriminate|].
  destruct (Ascii.eqb c sep); [discriminate|].
  destruct (split sep s); discriminate.
Qed.

(** Every line followed by the separator, one after the other, is the text
    followed by the separator. *)
Lemma split_lines sep s :
  concat (map (fun line => line ++ [sep]) (split sep s)) = s ++ [sep].
Proof.
  induction s as [|c s IH]; cbn; [reflexivity|].
  destruct (Ascii.eqb_spec c sep) as [->|_]; cbn; [now rewrite IH|].
  pose proof (split_nonempty sep s) as Hne.
  destruct (split sep s) as [|l ls]; [congruence|].
  cbn in *. now rewrite IH.
Qed.

Lemma split_In sep s :
  forall line, In line (split sep s) -> forall c, In c line -> In c s.
Proof.
  induction s as [|a s IH]; cbn; intros line Hline c Hc.
  - destruct Hline as [<-|[]]. destruct Hc.
  - destruct (Ascii.eqb a sep).
    + destruct Hline as [<-|Hline]; [destruct Hc|]. right. eapply IH; eauto.
    + pose proof (split_nonempty sep s) as Hne.
      destruct (split sep s) as [|l ls]; [congruence|].
      destruct Hline as [<-|Hline].
      * destruct Hc as [<-|Hc]; [now left|]. right. apply (IH l); [now left|exact Hc].
      * right. apply (IH line); [now right|exact Hc].
Qed.

Lemma split_no_sep sep s : forall line, In line (split sep s) -> ~ In sep line.
Proof.
  induction s as [|a s IH]; cbn; intros line Hline.
  - destruct Hline as [<-|[]]. intros [].
  - destruct (Ascii.eqb_spec a sep) as [->|Hne'].
    + destruct Hline as [<-|Hline]; [intros []|]. now apply IH.
    + pose proof (split_nonempty sep s) as Hne.
      destruct (split sep s) as [|l ls]; [congruence|].
      destruct Hline as [<-|Hline].
      * intros [E|Hin]; [congruence|]. apply (IH l); [now left|exact Hin].
      * apply IH. now right.
Qed.

Lemma fold_left_lines (sep : ascii) (lines : list (list ascii)) :
  forall acc,
    fold_left (fun newMarkdown line => newMarkdown ++ line ++ [sep]) lines acc
    = acc ++ concat (map (fun line => line ++ [sep]) lines).
Proof.
  induction lines as [|l ls IH]; intros acc; cbn.
  - now rewrite app_nil_r.
  - rewrite IH. now rewrite <- !app_assoc.
Qed.

(** *** How a literal pattern runs *)

(** What is left of [s] after the code units [lit] it begins with. *)
Fixpoint startsWith (lit s : list ascii) : option (list ascii) :=
  match lit with
  | [] => Some s
  | c :: lit' =>
      match s with
      | a :: s' => if Ascii.eqb c a then startsWith lit' s' else None
      | [] => None
      end
  end.

Lemma startsWith_app lit s tl : startsWith lit s = Some tl <-> s = lit ++ tl.
Proof.
  revert s. induction lit as [|c lit IH]; intros s; cbn.
  - split; [now intros [= ->] | now intros ->].
  - destruct s as [|a s]; [split; discriminate|].
    destruct (Ascii.eqb_spec c a) as [->|Hne].
    + rewrite IH. split; [now intros -> | now intros [= ->]].
    + split; [discriminate | intros [= -> _]; congruence].
Qed.

Lemma run_literalOf lit :
  forall st k,
    run (literalOf lit) st k
    = match startsWith lit (rest st) with
      | Some tl =>
          k {| pos := length lit + pos st; rest := tl; caps := caps st |}
      | None => None
      end.
Proof.
  induction lit as [|c lit IH]; intros [p s cs] k; cbn [literalOf fold_right].
  - reflexivity.
  - fold (literalOf lit).
    assert (run (mkSeq (Chr (CsChar c)) (literalOf lit))
              {| pos := p; rest := s; caps := cs |} k
            = run (Chr (CsChar c)) {| pos := p; rest := s; caps := cs |}
                (fun st' => run (literalOf lit) st' k)) as ->.
    { destruct (literalOf lit); reflexivity. }
    cbn [run rest startsWith matchesCs]. destruct s as [|a s]; [reflexivity|].
    destruct (Ascii.eqb c a); [|reflexivity].
    rewrite IH. cbn [rest pos caps length].
    destruct (startsWith lit s); [|reflexivity].
    now rewrite Nat.add_succ_r.
Qed.

(** A pattern that begins with [^] matches at the start of the subject or
    nowhere. *)
Lemma search_anchored_later r s :
  forall p, 0 < p -> search (Seq Bol r) p s = None.
Proof.
  induction s as [|c s IH]; intros p Hp; cbn [search run].
  - destruct p; [lia | reflexivity].
  - destruct p; [lia|]. cbn [pos Nat.eqb]. apply IH. lia.
Qed.

Lemma exec_anchored r s :
  exec (Seq Bol r) s
  = match run r {| pos := 0; rest := s; caps := [] |} Some with
    | Some st =>
        Some {| index := 0; lastIndex := pos st; captures := caps st |}
    | None => None
    end.
Proof.
  unfold exec. destruct s as [|c s]; cbn [search run pos Nat.eqb].
  - reflexivity.
  - destruct (run r _ Some); [reflexivity|].
    apply search_anchored_later. lia.
Qed.

(** The code units [lit], one after the other, and then [r]: what the parser
    reads of a literal that a pattern follows. *)
Fixpoint literalThen (lit : list ascii) (r : regex) : regex :=
  match lit with
  | [] => r
  | c :: lit' => Seq (Chr (CsChar c)) (literalThen lit' r)
  end.

Lemma run_literalThen lit r :
  forall st k,
    run (literalThen lit r) st k
    = match startsWith lit (rest st) with
      | Some tl =>
          run r {| pos := length lit + pos st; rest := tl; caps := caps st |} k
      | None => None
      end.
Proof.
  induction lit as [|c lit IH]; intros [p s cs] k; cbn [literalThen].
  - reflexivity.
  - cbn [run rest startsWith matchesCs]. destruct s as [|a s]; [reflexivity|].
    destruct (Ascii.eqb c a); [|reflexivity].
    rewrite IH. cbn [rest pos caps length].
    destruct (startsWith lit s); [|reflexivity].
    now rewrite Nat.add_succ_r.
Qed.

End JSRegExp.

Import JSRegExp.

(** [String.prototype.trim]: white space and line terminators are removed
    from both ends. *)
Fixpoint trimStart (s : list ascii) : list ascii :=
  match s with
  | c :: s' => if isSpace c then trimStart s' else s
  | [] => []
  end.

Definition trim (s : string) : string :=
  string_of_list_ascii (rev (trimStart (rev (trimStart s)))).

(** ** Asynchronous code that may throw and that has effects

    An [async] function either returns a value or throws. What it does to the
    outside is recorded in order: the errors it logs, the command handlers it
    calls and the messages it sends. *)

Inductive outcome (A : Type) : Type :=
| Returned (a : A)
| Thrown (error : string).
Arguments Returned {A} a.
Arguments Thrown {A} error.

Inductive effect : Type :=
| LoggedError (msg : string)
| Logged (level : string) (msg : string)
| Ran (command : string) (user : string)
| Sent (channel : string) (text : string).

Definition Async (A : Type) : Type := list effect -> outcome A * list effect.

Definition ret {A} (a : A) : Async A := fun log => (Returned a, log).

Definition bind {A B} (m : Async A) (k : A -> Async B) : Async B :=
  fun log =>
    match m log with
    | (Returned a, log') => k a log'
    | (Thrown e, log') => (Thrown e, log')
    end.

(** [await p] on a promise that has settled. *)
Definition await {A} (p : outcome A) : Async A := fun log => (p, log).

(** [try { body } catch (error) { handler }]. *)
Definition tryCatch {A} (body : Async A) (handler : string -> Async A) : Async A :=
  fun log =>
    match body log with
    | (Returned a, log') => (Returned a, log')
    | (Thrown e, log') => handler e log'
    end.

Definition perform (e : effect) : Async unit :=
  fun log => (Returned tt, log ++ [e]).

Definition logError (msg : string) : Async unit := perform (LoggedError msg).

Lemma bind_returned {A B} (m : Async A) (k : A -> Async B) log a log' :
  m log = (Returned a, log') -> bind m k log = k a log'.
Proof. unfold bind. now intros ->. Qed.

Lemma bind_thrown {A B} (m : Async A) (k : A -> Async B) log e log' :
  m log = (Thrown e, log') -> bind m k log = (Thrown e, log').
Proof. unfold bind. now intros ->. Qed.

Notation "'let*' x ':=' m 'in' k" := (bind m (fun x => k))
  (at level 10, x name, m at level 100, k at level 200).
Notation "'do*' m 'in' k" := (bind m (fun _ => k))
  (at level 10, m at level 100, k at level 200).

(** The handlers a run called, in order. *)
Definition handlersRun (log : list effect) : list string :=
  omap (fun e => match e with Ran command _ => Some command | _ => None end) log.

(** ** The roles *)

Inductive UserPermission : Type := USER | ADMIN | OWNER.

#[global] Instance UserPermission_eq_dec : EqDecision UserPermission.
Proof. solve_decision. Defined.

Definition ordinal (p : UserPermission) : nat :=
  match p with USER => 0 | ADMIN => 1 | OWNER => 2 end.

(** Modelled from the spec: the role comparison of the user class
    ([hasPermission], [hasRole]) is not among the sources. A requirement is
    satisfied by an actual role iff the actual role is the same or a stricter
    one in the order USER < ADMIN < OWNER. *)
Definition satisfies (actual required : UserPermission) : bool :=
  ordinal required <=? ordinal actual.

(** ** The Telegram client ([TelegramBot]) and the command class *)

Module Telegram.

Record BotUser := { user_id : string }.

(** Modelled from the spec: the channel class is not among the sources. A
    channel has an id and a prefix of its own that, when unset, defaults to
    the prefix its bot is configured with. *)
Record BotChannel := {
  channel_id : string;
  channel_prefix : option string
}.

(** What [getChat] resolves to, as far as the resolver reads it. *)
Record Chat := {
  all_members_are_administrators : bool;
  chat_type : string
}.

(** An entry of [getChatAdministrators]: [admin.user.id] is a number. *)
Record ChatMember := { member_user_id : Z }.

(** The Telegram API as the bot sees it: each call is a promise that
    resolves or rejects. [getChatAdministrators] may resolve to nothing,
    which the source turns into the empty array with [|| []]. *)
Record TelegramAPI := {
  getMe : outcome string;
  getChat : string -> outcome Chat;
  getChatAdministrators : string -> outcome (option (list ChatMember));
  apiSendMessage : string -> string -> outcome unit
}.

Record TelegramBot := {
  bot : TelegramAPI;
  (** [BotClient.prefix], the prefix the bot is configured with. *)
  prefix : string;
  (** [ConfigManager.getBotConfig().telegram.owners], possibly absent. *)
  config_owners : option (list string);
  (** [getChannelByID], inherited from the client class. *)
  getChannelByID : string -> BotChannel
}.

Definition channelAuthorID : string := "-322".

(** Modelled from the spec: [channel.getPrefix()] of the missing channel
    class, the channel's own prefix or, when it has none, the bot's. *)
Definition getPrefix (client : TelegramBot) (channel : BotChannel) : string :=
  match channel_prefix channel with
  | Some p => if String.eqb p EmptyString then prefix client else p
  | None => prefix client
  end.

(** [getUserName] catches a failure of [getMe], logs it and returns
    nothing. *)
Definition getUserName (this : TelegramBot) : Async (option string) :=
  tryCatch
    (let* userName := await (getMe (bot this)) in ret (Some userName))
    (fun error =>
       do* logError ("Failed to get user name:" +:+ LF +:+ error) in ret None).

(** The template literal prints an undefined user name as [undefined]. *)
Definition getUserTag (this : TelegramBot) : Async (option string) :=
  tryCatch
    (let* userName := getUserName this in
     ret (Some ("@" +:+ default "undefined" userName)))
    (fun error =>
       do* logError ("Failed to get user tag:" +:+ LF +:+ error) in
       ret None).

Definition getOwners (this : TelegramBot) : Async (list BotUser) :=
  let ownerIds := default [] (config_owners this) in
  ret (map (fun id => {| user_id := id |}) ownerIds).

(** The body of the [try] block: [Some p] when it executed [return p],
    [None] when control fell off its end. *)
Definition getUserPermission_try (this : TelegramBot) (user : BotUser)
    (channel : BotChannel) : Async (option UserPermission) :=
  if String.eqb (user_id user) channelAuthorID then ret (Some ADMIN) else
  let* owners := getOwners this in
  let ownerIds := map user_id owners in
  if includes ownerIds (user_id user) then ret (Some OWNER) else
  let* chat := await (getChat (bot this) (channel_id channel)) in
  if all_members_are_administrators chat || String.eqb (chat_type chat) "private"
  then ret (Some ADMIN) else
  let* chatAdmins := await (getChatAdministrators (bot this) (channel_id channel)) in
  let chatAdmins := default [] chatAdmins in
  let adminIds := map (fun admin => toString (member_user_id admin)) chatAdmins in
  if includes adminIds (user_id user) then ret (Some ADMIN) else
  ret None.

Definition getUserPermission (this : TelegramBot) (user : BotUser)
    (channel : BotChannel) : Async UserPermission :=
  let* r := tryCatch (getUserPermission_try this user channel)
              (fun error =>
                 do* logError ("Failed to get chat admins:" +:+ LF +:+ error) in
                 ret None) in
  match r with
  | Some p => ret p
  | None => ret USER
  end.

(** *** [msgFromMarkdown] *)

Definition nl : ascii := ascii_of_nat 10.

Definition msgFromMarkdown (markdownText : list ascii) : list ascii :=
  let markdown := markdownText in
  match markdown with [] => [] | _ =>
  (* Image Links *)
  let markdown := replaceAll (literal "\[\!\[\]\((.*)\)\]\((.*)\)") "[Image]($1) ([Link]($2))" markdown in
  let markdown := replaceAll (literal "\[\!\[(.*)\]\((.*)\)\]\((.*)\)") "[$1]($2) ([Link]($3))" markdown in
  let markdown := replaceAll (literal "\!\[\]\((.*)\)") "[Image]($1)" markdown in
  let markdown := replaceAll (literal "\!\[(.*)\]\((.*)\)") "[$1]($2)" markdown in
  (* Italic *)
  let markdown := replaceAll (literal "\*(?!\*)(.+)(?!\*)\*") "_$1_" markdown in
  (* Bold *)
  let markdown := replaceAll (literal "__(.+)__") "*$1*" markdown in
  let markdown := replaceAll (literal "\*\*(.+)\*\*") "*$1*" markdown in
  (* Formatting with Links *)
  let markdown := replaceAll (literal "\*(.*)[ \t]*\[(.*)\]\((.*)\)[ \t]*(.*)\*") "*$1* [$2]($3) *$4*" markdown in
  let markdown := replaceAll (literal "__(.*)[ \t]*\[(.*)\]\((.*)\)[ \t]*(.*)__") "__$1__ [$2]($3) __$4__" markdown in
  let markdown := replaceAll (literal "\[\*(.*)\*\]\((.*)\)") "[$1]($2)" markdown in
  let markdown := replaceAll (literal "\[__(.*)__\]\((.*)\)") "[$1]($2)" markdown in
  let markdown := replaceAll (literal "\*\[(.*)\]\((.*)\)\*") "[$1]($2)" markdown in
  let markdown := replaceAll (literal "__\[(.*)\]\((.*)\)__") "[$1]($2)" markdown in
  (* Remove empty formatting rules *)
  let markdown := replaceAll (literal "\*\*") [] markdown in
  let markdown := replaceAll (literal "____") [] markdown in
  (* Compress multiple linebreaks *)
  let markdown := replaceAll (literal "\s*\n\s*\n\s*") [nl; nl] markdown in
  (* Linewise formatting *)
  let lineArray := split nl markdown in
  let lineArray :=
    map (fun line =>
           (* H1-6 *)
           let line := replace (literal "^\s*##?#?\s*(.*)") "*$1*" line in
           (* Lists *)
           replace (literal "^\s*\*\s+") "- " line) lineArray in
  fold_left (fun newMarkdown line => newMarkdown ++ line ++ [nl]) lineArray []
  end.

(** The patterns of [msgFromMarkdown], as they stand in the source. *)
Definition markdownPatterns : list string := [
  "\[\!\[\]\((.*)\)\]\((.*)\)";
  "\[\!\[(.*)\]\((.*)\)\]\((.*)\)";
  "\!\[\]\((.*)\)";
  "\!\[(.*)\]\((.*)\)";
  "\*(?!\*)(.+)(?!\*)\*";
  "__(.+)__";
  "\*\*(.+)\*\*";
  "\*(.*)[ \t]*\[(.*)\]\((.*)\)[ \t]*(.*)\*";
  "__(.*)[ \t]*\[(.*)\]\((.*)\)[ \t]*(.*)__";
  "\[\*(.*)\*\]\((.*)\)";
  "\[__(.*)__\]\((.*)\)";
  "\*\[(.*)\]\((.*)\)\*";
  "__\[(.*)\]\((.*)\)__";
  "\*\*";
  "____";
  "\s*\n\s*\n\s*";
  "^\s*##?#?\s*(.*)";
  "^\s*\*\s+"
].

(** Every regular-expression literal of [msgFromMarkdown] is read whole by
    the parser: none of them falls back to the pattern that never matches. *)
Lemma markdownPatterns_compile :
  forallb (fun source : string => bool_decide (is_Some (compile source)))
    markdownPatterns = true.
Proof. vm_compute. reflexivity. Qed.

(** [sendMessage] of a text: the text is converted, and a failure of the API
    call is logged. *)
Definition sendMessage (this : TelegramBot) (channel : BotChannel)
    (messageText : string) : Async bool :=
  let message := string_of_list_ascii (msgFromMarkdown messageText) in
  do* tryCatch
        (do* await (apiSendMessage (bot this) (channel_id channel) message) in
         perform (Sent (channel_id channel) message))
        (fun error =>
           logError ("Failed to send message to channel:" +:+ LF +:+ error)) in
  ret true.

(** *** The command class *)

Record Command := {
  label : string;
  description : string;
  triggerLabel : string;
  trigger : string;
  permission : UserPermission;
  hasPrefix : bool
}.

(** The constructor, with its defaults for the optional arguments. *)
Definition newCommand (label description triggerLabel trigger : string)
    (permission : option UserPermission) (hasPrefix : option bool) : Command :=
  {| label := label; description := description;
     triggerLabel := triggerLabel; trigger := trigger;
     permission := default USER permission;
     hasPrefix := default true hasPrefix |}.

(** The address clause both [Command.getRegExp] and the command group's
    trigger generator build: the tag and the channel's prefix arrive escaped,
    the bot's own prefix is interpolated as it is configured. *)
Definition addressClause (userTag channelPrefix botPrefix : list ascii)
    : list ascii :=
  "^\s*((" ++ userTag ++ ")|((" ++ channelPrefix ++ ")(\s*" ++ userTag
    ++ ")?)|((" ++ botPrefix ++ ")\s*(" ++ userTag ++ ")))\s*".

Definition regexString (this : Command) (client : TelegramBot)
    (channel : BotChannel) (tag : string) : list ascii :=
  let userTag := EscapeRegex tag in
  let channelPrefix := EscapeRegex (getPrefix client channel) in
  let prefixClause :=
    if hasPrefix this then addressClause userTag channelPrefix (prefix client)
    else [] in
  prefixClause ++ trigger this.

Definition newRegExp (source : list ascii) : outcome regex :=
  match compile source with
  | Some r => Returned r
  | None =>
      Thrown ("SyntaxError: Invalid regular expression: /"
              +:+ string_of_list_ascii source +:+ "/")
  end.

(** [EscapeRegex] throws on anything but a string. *)
Definition getRegExp (this : Command) (client : TelegramBot)
    (channel : BotChannel) : Async regex :=
  let* tag := getUserTag client in
  match tag with
  | Some tag => await (newRegExp (regexString this client channel tag))
  | None => await (Thrown "TypeError: Expected a string")
  end.

(** Modelled from the spec: the user class is not among the sources. A user
    has a permission on a channel when the role the client resolves for them
    satisfies it. *)
Definition hasPermission (client : TelegramBot) (user : BotUser)
    (channel : BotChannel) (required : UserPermission) : Async bool :=
  let* actual := getUserPermission client user channel in
  ret (satisfies actual required).

(** The template literal prints the member of the [UserPermission] enum,
    whose declaration is not among the sources; the model prints the role's
    name. *)
Definition permissionName (p : UserPermission) : string :=
  match p with USER => "User" | ADMIN => "Admin" | OWNER => "Owner" end.

(** [Command.execute]: the callback is the command's handler, which the
    model records by the command's label. *)
Definition execute (this : Command) (client : TelegramBot)
    (channel : BotChannel) (user : BotUser) (regMatch : MatchResult)
    : Async bool :=
  let* allowed := hasPermission client user channel (permission this) in
  if allowed then
    do* perform (Ran (label this) (user_id user)) in
    ret true
  else
    do* sendMessage client channel
          ("You need the permission '" +:+ permissionName (permission this)
           +:+ "' on this server to execute this command!") in
    ret false.

(** *** Registration and dispatch *)

Record Message := {
  chat_id : Z;
  from_id : option Z;
  text : string
}.

(** Executes the given command if the message matches the regex. *)
Definition onMessage (this : TelegramBot) (msg : Message) (command : Command)
    : Async unit :=
  tryCatch
    (let channel := getChannelByID this (toString (chat_id msg)) in
     let* reg := getRegExp command this channel in
     match exec reg (text msg) with
     | Some regMatch =>
         let userID :=
           match from_id msg with
           | Some id => toString id
           | None => channelAuthorID
           end in
         do* execute command this channel {| user_id := userID |} regMatch in
         ret tt
     | None => ret tt
     end)
    (fun error =>
       logError ("Failed to execute command " +:+ label command +:+ ":"
                 +:+ LF +:+ error)).

Inductive EventName : Type := message | channel_post.

#[global] Instance EventName_eq_dec : EqDecision EventName.
Proof. solve_decision. Defined.

(** The listeners of the bot's event emitter, in the order of [on]. *)
Definition Listeners : Type := list (EventName * Command).

Definition registerCommand (listeners : Listeners) (command : Command)
    : Listeners :=
  listeners ++ [(message, command); (channel_post, command)].

(** [registerCommands], for one bot. *)
Definition registerCommands (commands : list Command) : Listeners :=
  fold_left registerCommand commands [].

(** The emitter calls the listeners of the event in the order they were
    added. A listener is an async function that nobody awaits: its call
    returns at its first [await], and the runs of all the listeners called
    are in flight together, each resumed when the remote call it waits for
    settles. [emit] gives, for every listener called, the effects of its
    run, in their order; a listener's decision depends on nothing another
    listener does. *)
Fixpoint emit (this : TelegramBot) (listeners : Listeners) (event : EventName)
    (msg : Message) : list (list effect) :=
  match listeners with
  | [] => []
  | (ev, command) :: listeners' =>
      if decide (ev = event) then
        snd (onMessage this msg command []) :: emit this listeners' event msg
      else emit this listeners' event msg
  end.

(** The event loop resumes one run at a time. [resume i runs] lets the run
    of index [i] perform its next effect; a run that has ended cannot be
    resumed. *)
Fixpoint resume (i : nat) (runs : list (list effect))
    : option (effect * list (list effect)) :=
  match runs, i with
  | [], _ => None
  | [] :: _, 0 => None
  | (e :: run) :: runs', 0 => Some (e, run :: runs')
  | run :: runs', S i' =>
      match resume i' runs' with
      | Some (e, runs'') => Some (e, run :: runs'')
      | None => None
      end
  end.

(** The effects of the runs in the order of a schedule, the indices of the
    runs resumed one after the other until every run has ended. Which
    schedule it is depends on when the remote calls settle; a run is resumed
    after an [await] only, so the orders the program can show are among
    those of the schedules. *)
Fixpoint settle (schedule : list nat) (runs : list (list effect))
    : option (list effect) :=
  match schedule with
  | [] =>
      if forallb (fun run => match run with [] => true | _ => false end) runs
      then Some [] else None
  | i :: schedule' =>
      match resume i runs with
      | Some (e, runs') =>
          match settle schedule' runs' with
          | Some log => Some (e :: log)
          | None => None
          end
      | None => None
      end
  end.

(** The standard commands, as first declared. *)
Definition commands : list Command := [
  newCommand "Help" "Display a list of all available commands." "help"
    "help\s*$" None None;
  newCommand "About" "Display info about the bot." "about"
    "(about)|(info)\s*$" None None;
  newCommand "Games" "Display all available games." "games"
    "games\s*$" None None;
  newCommand "Subscribe" "Subscribe to the given game's feed."
    "subscribe <game name>" "sub(scribe)?(?<alias>.*)" (Some ADMIN) None;
  newCommand "Unsubscribe" "Unsubscribe from the given game's feed"
    "unsubscribe <game name>" "unsub(scribe)?(?<alias>.*)" (Some ADMIN) None;
  newCommand "Prefix" "Change the bot's prefix used in this channel."
    "prefix" "prefix(?<newPrefix>.*)$" (Some ADMIN) None
].

(** *** Permission resolution *)

(** The ids of the administrators a resolved administrator list names. *)
Definition adminIdsOf (admins : option (list ChatMember)) : list string :=
  map (fun admin => toString (member_user_id admin)) (default [] admins).

Definition grantsAdmin (chat : Chat) : bool :=
  all_members_are_administrators chat || String.eqb (chat_type chat) "private".

(** The resolver as the specification words its failure semantics: a failed
    remote call at step 3 or step 4 is logged and the resolution goes on
    with the next check. *)
Definition resolveRole_fallthrough (this : TelegramBot) (user : BotUser)
    (channel : BotChannel) : UserPermission :=
  if String.eqb (user_id user) channelAuthorID then ADMIN else
  if includes (default [] (config_owners this)) (user_id user) then OWNER else
  let step4 :=
    match getChatAdministrators (bot this) (channel_id channel) with
    | Returned admins =>
        if includes (adminIdsOf admins) (user_id user) then ADMIN else USER
    | Thrown _ => USER
    end in
  match getChat (bot this) (channel_id channel) with
  | Returned chat => if grantsAdmin chat then ADMIN else step4
  | Thrown _ => step4
  end.

(** The specification's failure semantics as a property of the code: whatever
    the remote calls do, the resolver returns what the fall-through reading
    computes. *)
Definition falls_through_on_failure : Prop :=
  forall this user channel log,
    fst (getUserPermission this user channel log)
    = Returned (resolveRole_fallthrough this user channel).

Definition mkChannel (id : string) : BotChannel :=
  {| channel_id := id; channel_prefix := None |}.

(** A bot whose [getChat] rejects while its administrator list resolves. *)
Definition flakyChatBot : TelegramBot :=
  {| bot := {| getMe := Returned "GameFeederBot";
               getChat := fun _ => Thrown "ETELEGRAM: 502 Bad Gateway";
               getChatAdministrators := fun _ =>
                 Returned (Some [ {| member_user_id := 42 |} ]);
               apiSendMessage := fun _ _ => Returned tt |};
     prefix := "/";
     config_owners := Some ["7"];
     getChannelByID := fun id => {| channel_id := id; channel_prefix := None |} |}.

(** A bot on a group whose only administrator is user 42, owned by user 7. *)
Definition groupBot : TelegramBot :=
  {| bot := {| getMe := Returned "GameFeederBot";
               getChat := fun _ =>
                 Returned {| all_members_are_administrators := false;
                             chat_type := "group" |};
               getChatAdministrators := fun _ =>
                 Returned (Some [ {| member_user_id := 42 |} ]);
               apiSendMessage := fun _ _ => Returned tt |};
     prefix := "/";
     config_owners := Some ["7"];
     getChannelByID := fun id => {| channel_id := id; channel_prefix := None |} |}.

Ltac run_async :=
  unfold getUserPermission, getUserPermission_try, getOwners, tryCatch, bind,
    ret, await, logError, perform; cbn [fst snd].

Lemma owner_ids_roundtrip (ids : list string) :
  map user_id (map (fun id => {| user_id := id |}) ids) = ids.
Proof. induction ids as [|i ids IH]; cbn; [reflexivity | now rewrite IH]. Qed.

(** What one run of the resolver does, case by case in the order of the
    source. Every other statement about it is read off this equation. *)
Lemma getUserPermission_run this user channel log :
  getUserPermission this user channel log =
    if String.eqb (user_id user) channelAuthorID then (Returned ADMIN, log) else
    if includes (default [] (config_owners this)) (user_id user)
    then (Returned OWNER, log) else
    match getChat (bot this) (channel_id channel) with
    | Thrown e => (Returned USER, log ++ [LoggedError ("Failed to get chat admins:" +:+ LF +:+ e)])
    | Returned chat =>
        if grantsAdmin chat then (Returned ADMIN, log) else
        match getChatAdministrators (bot this) (channel_id channel) with
        | Thrown e =>
            (Returned USER, log ++ [LoggedError ("Failed to get chat admins:" +:+ LF +:+ e)])
        | Returned admins =>
            if includes (adminIdsOf admins) (user_id user)
            then (Returned ADMIN, log) else (Returned USER, log)
        end
    end.
Proof.
  run_async. rewrite owner_ids_roundtrip.
  destruct (String.eqb (user_id user) channelAuthorID); [reflexivity|].
  destruct (includes _ (user_id user)); [reflexivity|].
  destruct (getChat _ _) as [chat|e]; [|reflexivity].
  unfold grantsAdmin.
  destruct (all_members_are_administrators chat || _); [reflexivity|].
  destruct (getChatAdministrators _ _) as [admins|e]; [|reflexivity].
  unfold adminIdsOf.
  destruct (includes _ (user_id user)); reflexivity.
Qed.

(** C1. [getUserPermission] follows the ordered, short-circuiting algorithm:
    the placeholder author id gives ADMIN; otherwise a configured owner id
    gives OWNER whatever the platform reports or fails to report; otherwise a
    chat that reports all members as administrators, or is private, gives
    ADMIN; otherwise an id in the reported administrator list gives ADMIN;
    otherwise the result is USER. *)
Theorem getUserPermission_ordered (this : TelegramBot) (user : BotUser)
    (channel : BotChannel) (log : list effect) :
  let result := fst (getUserPermission this user channel log) in
  let uid := user_id user in
  let owners := default [] (config_owners this) in
  let chatOf := getChat (bot this) (channel_id channel) in
  let adminsOf := getChatAdministrators (bot this) (channel_id channel) in
  (uid = channelAuthorID -> result = Returned ADMIN) /\
  (uid <> channelAuthorID -> In uid owners -> result = Returned OWNER) /\
  (forall chat,
     uid <> channelAuthorID -> ~ In uid owners -> chatOf = Returned chat ->
     all_members_are_administrators chat = true \/ chat_type chat = "private" ->
     result = Returned ADMIN) /\
  (forall chat admins,
     uid <> channelAuthorID -> ~ In uid owners -> chatOf = Returned chat ->
     all_members_are_administrators chat = false ->
     chat_type chat <> "private" ->
     adminsOf = Returned admins ->
     (In uid (adminIdsOf admins) -> result = Returned ADMIN) /\
     (~ In uid (adminIdsOf admins) -> result = Returned USER)).
Proof.
  cbv zeta. rewrite getUserPermission_run.
  split; [|split; [|split]].
  - intros ->. reflexivity.
  - intros Hne Hin. apply String.eqb_neq in Hne. rewrite Hne.
    apply includes_In in Hin. rewrite Hin. reflexivity.
  - intros chat Hne Hnin Hchat Hflag.
    apply String.eqb_neq in Hne. rewrite Hne.
    apply includes_not_In in Hnin. rewrite Hnin, Hchat.
    assert (grantsAdmin chat = true) as ->; [|reflexivity].
    unfold grantsAdmin. destruct Hflag as [-> | ->]; [reflexivity|].
    apply orb_true_r.
  - intros chat admins Hne Hnin Hchat Hall Hty Hadm.
    apply String.eqb_neq in Hne. rewrite Hne.
    apply includes_not_In in Hnin. rewrite Hnin, Hchat.
    unfold grantsAdmin. rewrite Hall. apply String.eqb_neq in Hty. rewrite Hty.
    cbn [orb]. rewrite Hadm. split; intros Hin.
    + apply includes_In in Hin. rewrite Hin. reflexivity.
    + apply includes_not_In in Hin. rewrite Hin. reflexivity.
Qed.

Lemma getUserPermission_ordered_witness :
  fst (getUserPermission groupBot {| user_id := "42" |}
         (mkChannel "-1001") []) = Returned ADMIN
  /\ fst (getUserPermission groupBot {| user_id := "43" |}
            (mkChannel "-1001") []) = Returned USER.
Proof.
  split.
  - pose proof (getUserPermission_ordered groupBot {| user_id := "42" |}
                  (mkChannel "-1001") []) as (_ & _ & _ & H).
    refine (proj1 (H {| all_members_are_administrators := false;
                        chat_type := "group" |}
                     (Some [ {| member_user_id := 42 |} ]) _ _ _ _ _ _) _);
      cbn; try reflexivity; try discriminate.
    + intros [E | []]; discriminate.
    + left; reflexivity.
  - pose proof (getUserPermission_ordered groupBot {| user_id := "43" |}
                  (mkChannel "-1001") []) as (_ & _ & _ & H).
    refine (proj2 (H {| all_members_are_administrators := false;
                        chat_type := "group" |}
                     (Some [ {| member_user_id := 42 |} ]) _ _ _ _ _ _) _);
      cbn; try reflexivity; try discriminate.
    + intros [E | []]; discriminate.
    + intros [E | []]; discriminate.
Defined.

(** C4, as stated, fails: when [getChat] rejects, the single [catch] ends the
    resolution with USER although the administrator list, had it been asked,
    names the user. *)
Lemma getUserPermission_skips_admin_list_after_failure :
  ~ falls_through_on_failure.
Proof.
  intros H.
  specialize (H flakyChatBot {| user_id := "42" |} (mkChannel "-1001") []).
  vm_compute in H. discriminate H.
Qed.

(** C4, amended. [getUserPermission] never throws: it always returns a role;
    a remote call that fails at step 3 or at step 4 is caught and logged once,
    every check after it is skipped and the role is USER. *)
Theorem getUserPermission_never_throws (this : TelegramBot) (user : BotUser)
    (channel : BotChannel) (log : list effect) :
  let uid := user_id user in
  let owners := default [] (config_owners this) in
  let chatOf := getChat (bot this) (channel_id channel) in
  let adminsOf := getChatAdministrators (bot this) (channel_id channel) in
  let failed e := log ++ [LoggedError ("Failed to get chat admins:" +:+ LF +:+ e)] in
  exists role log',
    getUserPermission this user channel log = (Returned role, log') /\
    (forall e,
       uid <> channelAuthorID -> ~ In uid owners -> chatOf = Thrown e ->
       role = USER /\ log' = failed e) /\
    (forall chat e,
       uid <> channelAuthorID -> ~ In uid owners -> chatOf = Returned chat ->
       grantsAdmin chat = false -> adminsOf = Thrown e ->
       role = USER /\ log' = failed e).
Proof.
  cbv zeta. rewrite getUserPermission_run.
  destruct (String.eqb (user_id user) channelAuthorID) eqn:Hid.
  { apply String.eqb_eq in Hid. eexists _, _. split; [reflexivity|].
    split; intros; congruence. }
  destruct (includes _ (user_id user)) eqn:Hown.
  { apply includes_In in Hown. eexists _, _. split; [reflexivity|].
    split; intros; contradiction. }
  destruct (getChat _ _) as [chat|e] eqn:Hchat.
  - destruct (grantsAdmin chat) eqn:Hgrant.
    { eexists _, _. split; [reflexivity|]. split; intros; congruence. }
    destruct (getChatAdministrators _ _) as [admins|e] eqn:Hadm.
    + destruct (includes (adminIdsOf admins) (user_id user));
        eexists _, _; (split; [reflexivity|]); split; intros; congruence.
    + eexists _, _. split; [reflexivity|]. split; intros; [congruence|].
      split; [reflexivity|]. congruence.
  - eexists _, _. split; [reflexivity|]. split; intros; [|congruence].
    split; [reflexivity|]. congruence.
Qed.

Lemma getUserPermission_never_throws_witness :
  getUserPermission flakyChatBot {| user_id := "42" |}
    (mkChannel "-1001") []
  = (Returned USER,
     [LoggedError ("Failed to get chat admins:" +:+ LF +:+ "ETELEGRAM: 502 Bad Gateway")]).
Proof.
  destruct (getUserPermission_never_throws flakyChatBot {| user_id := "42" |}
              (mkChannel "-1001") []) as (role & log' & Hrun & H3 & _).
  assert (role = USER /\ log' =
            [] ++ [LoggedError ("Failed to get chat admins:" +:+ LF +:+ "ETELEGRAM: 502 Bad Gateway")])
    as [-> ->].
  { apply H3; cbn.
    - discriminate.
    - intros [E | []]; discriminate.
    - reflexivity. }
  exact Hrun.
Defined.

(** *** Dispatch *)

(** The channel and the user a message is dispatched for. *)
Definition channelOf (this : TelegramBot) (msg : Message) : BotChannel :=
  getChannelByID this (toString (chat_id msg)).

Definition senderOf (msg : Message) : BotUser :=
  {| user_id := match from_id msg with
                | Some id => toString id
                | None => channelAuthorID
                end |}.

(** The tag [getUserTag] returns: the user name is [undefined] when [getMe]
    fails. *)
Definition tagOf (this : TelegramBot) : string :=
  "@" +:+ match getMe (bot this) with
          | Returned userName => userName
          | Thrown _ => "undefined"
          end.

(** The message text matches the pattern the command compiles to on the
    message's channel. *)
Definition triggers (this : TelegramBot) (msg : Message) (command : Command)
    : bool :=
  match compile (regexString command this (channelOf this msg) (tagOf this)) with
  | Some reg => bool_decide (is_Some (exec reg (text msg)))
  | None => false
  end.

(** The role the resolver returns for the sender. *)
Definition roleOf (this : TelegramBot) (msg : Message) : UserPermission :=
  match fst (getUserPermission this (senderOf msg) (channelOf this msg) []) with
  | Returned role => role
  | Thrown _ => USER
  end.

Definition permitted (this : TelegramBot) (msg : Message) (command : Command)
    : bool :=
  satisfies (roleOf this msg) (permission command).

(** C2 as the specification states it: one message runs at most one
    handler. *)
Definition at_most_one_handler : Prop :=
  forall this cmds event msg schedule log,
    settle schedule (emit this (registerCommands cmds) event msg) = Some log ->
    length (handlersRun log) <= 1.

(** A private chat with the bot, whose user tag is [@GameFeederBot] and
    whose prefix is the slash. *)
Definition privateChatBot : TelegramBot :=
  {| bot := {| getMe := Returned "GameFeederBot";
               getChat := fun _ =>
                 Returned {| all_members_are_administrators := false;
                             chat_type := "private" |};
               getChatAdministrators := fun _ => Returned None;
               apiSendMessage := fun _ _ => Returned tt |};
     prefix := "/";
     config_owners := None;
     getChannelByID := mkChannel |}.

Definition textMessage (t : string) : Message :=
  {| chat_id := 5; from_id := Some 42%Z; text := t |}.

Lemma handlersRun_app l1 l2 :
  handlersRun (l1 ++ l2) = handlersRun l1 ++ handlersRun l2.
Proof. apply omap_app. Qed.

(** One run of the resolver leaves the log as it found it, but for the
    failure it may report, and returns the role [roleOf] names. *)
Lemma getUserPermission_frame this user channel log :
  exists extra,
    getUserPermission this user channel log
    = (Returned (match fst (getUserPermission this user channel []) with
                 | Returned role => role
                 | Thrown _ => USER
                 end), log ++ extra)
    /\ handlersRun extra = [].
Proof.
  rewrite !getUserPermission_run.
  destruct (String.eqb (user_id user) channelAuthorID).
  { exists []. now rewrite app_nil_r. }
  destruct (includes _ (user_id user)).
  { exists []. now rewrite app_nil_r. }
  destruct (getChat _ _) as [chat|e].
  - destruct (grantsAdmin chat).
    { exists []. now rewrite app_nil_r. }
    destruct (getChatAdministrators _ _) as [admins|e].
    + destruct (includes (adminIdsOf admins) (user_id user));
        exists []; now rewrite app_nil_r.
    + eexists. split; reflexivity.
  - eexists. split; reflexivity.
Qed.

(** [getUserTag] never throws and never returns nothing. *)
Lemma getUserTag_run this log :
  exists extra,
    getUserTag this log = (Returned (Some (tagOf this)), log ++ extra)
    /\ handlersRun extra = [].
Proof.
  unfold getUserTag, getUserName, tagOf, tryCatch, bind, ret, await, logError,
    perform.
  destruct (getMe (bot this)) as [userName|e]; cbn.
  - exists []. now rewrite app_nil_r.
  - eexists. split; reflexivity.
Qed.

Lemma sendMessage_run this channel messageText log :
  exists extra,
    sendMessage this channel messageText log = (Returned true, log ++ extra)
    /\ handlersRun extra = [].
Proof.
  unfold sendMessage, tryCatch, bind, ret, await, logError, perform.
  destruct (apiSendMessage _ _ _) as [[]|e]; eexists; split; reflexivity.
Qed.

Lemma getRegExp_run command this channel log :
  exists extra,
    getRegExp command this channel log
    = (newRegExp (regexString command this channel (tagOf this)), log ++ extra)
    /\ handlersRun extra = [].
Proof.
  unfold getRegExp.
  destruct (getUserTag_run this log) as (extra & Htag & Hextra).
  exists extra. split; [|exact Hextra].
  now rewrite (bind_returned _ _ _ _ _ Htag).
Qed.

Lemma execute_run command this channel user regMatch log :
  exists allowed log',
    execute command this channel user regMatch log = (Returned allowed, log')
    /\ handlersRun log'
       = handlersRun log
         ++ (if satisfies
                  (match fst (getUserPermission this user channel []) with
                   | Returned role => role
                   | Thrown _ => USER
                   end) (permission command)
             then [label command] else []).
Proof.
  unfold execute, hasPermission.
  destruct (getUserPermission_frame this user channel log) as (x & Hrole & Hx).
  rewrite (bind_returned _ _ _ _ _ (bind_returned _ _ _ _ _ Hrole)).
  unfold ret at 1.
  destruct (satisfies _ _).
  - unfold bind, perform, ret. eexists _, _. split; [reflexivity|].
    rewrite !handlersRun_app, Hx, app_nil_r. reflexivity.
  - destruct (sendMessage_run this channel
                ("You need the permission '"
                 +:+ permissionName (permission command)
                 +:+ "' on this server to execute this command!")
                (log ++ x)) as (x' & Hsend & Hx').
    rewrite (bind_returned _ _ _ _ _ Hsend).
    unfold ret. eexists _, _. split; [reflexivity|].
    now rewrite !handlersRun_app, Hx, Hx', !app_nil_r.
Qed.

(** What one listener does to the handlers run: it never throws, and it
    calls its command's handler exactly when the text matches and the sender
    has the permission. *)
Lemma onMessage_run this msg command log :
  exists log',
    onMessage this msg command log = (Returned tt, log')
    /\ handlersRun log'
       = handlersRun log
         ++ (if triggers this msg command && permitted this msg command
             then [label command] else []).
Proof.
  unfold onMessage, triggers, permitted, roleOf, tryCatch.
  fold (channelOf this msg). fold (senderOf msg).
  destruct (getRegExp_run command this (channelOf this msg) log)
    as (x & Hreg & Hx).
  unfold newRegExp in Hreg.
  destruct (compile _) as [reg|]; cbn [andb].
  - rewrite (bind_returned _ _ _ _ _ Hreg).
    destruct (exec reg (text msg)) as [regMatch|] eqn:Hm.
    + rewrite bool_decide_eq_true_2 by eauto. cbn [andb].
      destruct (execute_run command this (channelOf this msg) (senderOf msg)
                  regMatch (log ++ x)) as (allowed & log' & Hexec & Hrun).
      rewrite (bind_returned _ _ _ _ _ Hexec). unfold ret.
      exists log'. split; [reflexivity|].
      now rewrite Hrun, handlersRun_app, Hx, app_nil_r.
    + rewrite bool_decide_eq_false_2 by (now intros [? ?]). cbn [andb].
      unfold ret. eexists. split; [reflexivity|].
      now rewrite handlersRun_app, Hx.
  - rewrite (bind_thrown _ _ _ _ _ Hreg).
    unfold logError, perform. eexists. split; [reflexivity|].
    rewrite !handlersRun_app, Hx. cbn. now rewrite !app_nil_r.
Qed.

Lemma registerCommands_listeners cmds :
  registerCommands cmds
  = flat_map (fun c => [(message, c); (channel_post, c)]) cmds.
Proof.
  unfold registerCommands.
  enough (forall acc,
            fold_left registerCommand cmds acc
            = acc ++ flat_map (fun c => [(message, c); (channel_post, c)]) cmds)
    as H by apply (H []).
  induction cmds as [|c cmds IH]; intros acc; cbn.
  - now rewrite app_nil_r.
  - rewrite IH. unfold registerCommand. now rewrite <- app_assoc.
Qed.

(** The runs of the listeners of the commands, joined one after the other,
    call the handlers of the commands the text triggers and the sender is
    permitted. *)
Lemma emit_handlers this event msg cmds :
  handlersRun
    (concat
       (emit this (flat_map (fun c => [(message, c); (channel_post, c)]) cmds)
          event msg))
  = map label
      (List.filter (fun c => triggers this msg c && permitted this msg c) cmds).
Proof.
  induction cmds as [|c cmds IH]; [reflexivity|].
  destruct (onMessage_run this msg c []) as (log1 & Hon & Hrun1).
  assert (handlersRun
            (concat
               (emit this [(message, c); (channel_post, c)] event msg))
          = if triggers this msg c && permitted this msg c
            then [label c] else []) as Hc.
  { cbn [emit]. destruct event; repeat case_decide; try congruence;
      cbn [concat]; rewrite Hon, app_nil_r; exact Hrun1. }
  cbn [flat_map app emit List.filter] in *.
  destruct event; repeat case_decide; try congruence;
    cbn [concat] in *; rewrite handlersRun_app, IH;
    rewrite app_nil_r in Hc; rewrite Hc;
    destruct (triggers this msg c && permitted this msg c); reflexivity.
Qed.

Lemma resume_effects i :
  forall runs e runs',
    resume i runs = Some (e, runs') -> concat runs ≡ₚ e :: concat runs'.
Proof.
  induction i as [|i IH]; intros [|run runs] e runs' H; cbn in H;
    try discriminate.
  - destruct run as [|e0 run]; [discriminate|]. now injection H as <- <-.
  - destruct (resume i runs) as [[e0 runs0]|] eqn:Hi;
      [|destruct run; discriminate].
    assert (e0 = e /\ run :: runs0 = runs') as [-> <-]
      by (destruct run; injection H as <- <-; auto).
    cbn [concat]. rewrite (IH _ _ _ Hi). symmetry. apply Permutation_middle.
Qed.

(** Whatever the schedule, the log holds the effects of the runs, each
    once. *)
Lemma settle_effects schedule :
  forall runs log, settle schedule runs = Some log -> concat runs ≡ₚ log.
Proof.
  induction schedule as [|i schedule IH]; intros runs log H; cbn in H.
  - destruct (forallb _ runs) eqn:Hended; [|discriminate].
    injection H as <-. induction runs as [|[|e run] runs IHruns];
      cbn in *; try discriminate; auto.
  - destruct (resume i runs) as [[e runs']|] eqn:Hi; [|discriminate].
    destruct (settle schedule runs') as [log'|] eqn:Hrest; [|discriminate].
    injection H as <-.
    rewrite (resume_effects _ _ _ _ Hi). constructor. now apply IH.
Qed.

Lemma resume_some runs :
  forallb (fun run => match run with [] => true | _ => false end) runs = true
  \/ exists i e runs',
       resume i runs = Some (e, runs')
       /\ length (concat runs') < length (concat runs).
Proof.
  induction runs as [|[|e run] runs IH].
  - now left.
  - destruct IH as [Hended|(i & e & runs' & Hi & Hless)]; [now left|].
    right. exists (S i), e, ([] :: runs'). cbn. rewrite Hi. auto.
  - right. exists 0, e, (run :: runs). cbn. split; [reflexivity | lia].
Qed.

(** Some schedule lets every run end. *)
Lemma settle_some runs : exists schedule log, settle schedule runs = Some log.
Proof.
  remember (length (concat runs)) as n eqn:Hn. revert runs Hn.
  induction n as [n IH] using lt_wf_ind. intros runs ->.
  destruct (resume_some runs) as [Hended|(i & e & runs' & Hi & Hless)].
  - exists [], []. cbn. now rewrite Hended.
  - destruct (IH _ Hless runs' eq_refl) as (schedule & log & Hrest).
    exists (i :: schedule), (e :: log). cbn. now rewrite Hi, Hrest.
Qed.

Lemma settle_handlersRun this event msg cmds schedule log :
  settle schedule (emit this (registerCommands cmds) event msg) = Some log ->
  handlersRun log
  ≡ₚ map label
       (List.filter (fun c => triggers this msg c && permitted this msg c) cmds).
Proof.
  intros Hsettle. apply settle_effects in Hsettle.
  rewrite registerCommands_listeners in Hsettle.
  rewrite <- (emit_handlers this event msg cmds). unfold handlersRun.
  now rewrite Hsettle.
Qed.

(** C2, as stated, fails: in a private chat the text [/subscribe info] runs
    the handler of About, whose pattern ends in the alternative [(info)\s*$],
    and the handler of Subscribe, whichever listener is resumed first. *)
Lemma two_handlers_run_for_one_message :
  ~ at_most_one_handler
  /\ forall schedule log,
       settle schedule
         (emit privateChatBot (registerCommands commands) message
            (textMessage "/subscribe info")) = Some log ->
       length (handlersRun log) = 2.
Proof.
  split.
  - intros H.
    specialize (H privateChatBot commands message
                  (textMessage "/subscribe info") [1; 3]
                  [Ran "About" "42"; Ran "Subscribe" "42"] eq_refl).
    cbn in H. lia.
  - intros schedule log Hsettle. apply settle_handlersRun in Hsettle.
    now rewrite (Permutation_length Hsettle).
Qed.

(** C2, amended. Every command is registered as a listener of its own, so one
    inbound message is tested against every command, each on its own, and
    every command whose compiled pattern matches the text has its handler
    run, once, provided the sender has the permission: when an earlier
    command A and a later command C both match, both handlers run. The
    listeners are in flight together, so the order of the handlers is that
    of the schedule, not that of the declaration. *)
Theorem emit_runs_every_matching_command (this : TelegramBot)
    (cmds : list Command) (event : EventName) (msg : Message) :
  let runs := emit this (registerCommands cmds) event msg in
  let matching :=
    List.filter (fun c => triggers this msg c && permitted this msg c) cmds in
  (exists schedule log, settle schedule runs = Some log)
  /\ forall schedule log,
       settle schedule runs = Some log ->
       handlersRun log ≡ₚ map label matching
       /\ (forall A C,
             In A cmds -> In C cmds ->
             triggers this msg A && permitted this msg A = true ->
             triggers this msg C && permitted this msg C = true ->
             In (label A) (handlersRun log) /\ In (label C) (handlersRun log)).
Proof.
  cbv zeta. split; [apply settle_some|].
  intros schedule log Hsettle. apply settle_handlersRun in Hsettle.
  split; [exact Hsettle|].
  intros A C HA HC HtA HtC.
  split; apply (Permutation_in _ (Permutation_sym Hsettle));
    apply in_map; apply filter_In; auto.
Qed.

Lemma emit_runs_every_matching_command_witness :
  settle [3; 1]
    (emit privateChatBot (registerCommands commands) message
       (textMessage "/subscribe info"))
  = Some [Ran "Subscribe" "42"; Ran "About" "42"]
  /\ handlersRun [Ran "Subscribe" "42"; Ran "About" "42"]
     ≡ₚ ["About"; "Subscribe"].
Proof.
  split; [vm_compute; reflexivity|].
  destruct (emit_runs_every_matching_command privateChatBot commands message
              (textMessage "/subscribe info")) as [_ Hruns].
  destruct (Hruns [3; 1] [Ran "Subscribe" "42"; Ran "About" "42"])
    as [Hrun _]; [vm_compute; reflexivity|].
  exact Hrun.
Defined.

(** *** The markdown conversion *)

(** The code units the conversion gives a meaning to. *)
Definition isMarkup (c : ascii) : bool :=
  existsb (Ascii.eqb c) ["["; "*"; "_"; "#"; nl]%char.

(** A text without markup and without line breaks. *)
Definition plain (t : list ascii) : Prop :=
  forall c, In c t -> isMarkup c = false.

Lemma plain_absent t c : plain t -> isMarkup c = true -> ~ In c t.
Proof. intros Hp Hc Hin. apply Hp in Hin. congruence. Qed.

Lemma plain_occ t c : plain t -> isMarkup c = true -> occ c t = 0.
Proof. intros Hp Hc. apply occ_absent. now apply plain_absent. Qed.

Ltac absent_of c t Hp :=
  first [apply (replaceAll_absent c) | apply (replace_absent c)];
  rewrite ?occ_app, (plain_occ t c Hp) by reflexivity;
  vm_compute; lia.

Ltac absent t Hp :=
  first [ solve [absent_of "["%char t Hp]
        | solve [absent_of "*"%char t Hp]
        | solve [absent_of "_"%char t Hp]
        | solve [absent_of "#"%char t Hp]
        | solve [absent_of nl t Hp] ].

Lemma msgFromMarkdown_plain t :
  t <> [] -> plain t -> msgFromMarkdown t = t ++ [nl].
Proof.
  intros Hne Hp. unfold msgFromMarkdown. destruct t as [|a t']; [congruence|].
  set (t := a :: t') in *.
  repeat (match goal with
          | |- context [replaceAll ?r ?tmpl t] =>
              replace (replaceAll r tmpl t) with t by (symmetry; absent t Hp)
          end).
  rewrite split_absent by (apply (plain_absent _ _ Hp); reflexivity).
  cbn [map fold_left app].
  repeat (match goal with
          | |- context [replace ?r ?tmpl t] =>
              replace (replace r tmpl t) with t by (symmetry; absent t Hp)
          end).
  reflexivity.
Qed.

Lemma msgFromMarkdown_plain_line t :
  t <> [] -> plain t -> msgFromMarkdown (t ++ [nl]) = t ++ [nl; nl].
Proof.
  intros Hne Hp. unfold msgFromMarkdown.
  destruct (t ++ [nl]) as [|a t'] eqn:E; [destruct t; discriminate|].
  rewrite <- E. clear E a t'.
  repeat (match goal with
          | |- context [replaceAll ?r ?tmpl (t ++ [nl])] =>
              replace (replaceAll r tmpl (t ++ [nl])) with (t ++ [nl])
                by (symmetry; absent t Hp)
          end).
  rewrite split_app_sep by (apply (plain_absent _ _ Hp); reflexivity).
  cbn [split map fold_left app].
  repeat (match goal with
          | |- context [replace ?r ?tmpl t] =>
              replace (replace r tmpl t) with t by (symmetry; absent t Hp)
          end).
  replace (replace (literal "^\s*##?#?\s*(.*)") "*$1*" []) with (@nil ascii)
    by (vm_compute; reflexivity).
  replace (replace (literal "^\s*\*\s+") "- " []) with (@nil ascii)
    by (vm_compute; reflexivity).
  rewrite <- app_assoc. reflexivity.
Qed.

(** C9 as the specification states it. *)
Definition idempotent_conversion : Prop :=
  forall t, msgFromMarkdown (msgFromMarkdown t) = msgFromMarkdown t.

(** C9, as stated, fails: the conversion of [a] is [a] and a line break, and
    converting that again adds a second line break. *)
Lemma msgFromMarkdown_not_idempotent : ~ idempotent_conversion.
Proof.
  intros H. specialize (H (list_ascii_of_string "a")).
  vm_compute in H. discriminate H.
Qed.

(** C9, amended. The conversion is not idempotent: it ends every line of its
    output, the last one included, with a line break. For every non-empty
    text [t] without markup characters and without line breaks,
    [msgFromMarkdown t] is [t] followed by one line break, and converting the
    result again yields [t] followed by two. *)
Theorem msgFromMarkdown_appends_line_break (t : list ascii) :
  t <> [] -> plain t ->
  msgFromMarkdown t = t ++ [nl]
  /\ msgFromMarkdown (msgFromMarkdown t) = t ++ [nl; nl].
Proof.
  intros Hne Hp. rewrite (msgFromMarkdown_plain t Hne Hp). split; [reflexivity|].
  apply msgFromMarkdown_plain_line; assumption.
Qed.

Lemma msgFromMarkdown_appends_line_break_witness :
  msgFromMarkdown "update" = "update" ++ [nl]
  /\ msgFromMarkdown (msgFromMarkdown "update") = "update" ++ [nl; nl].
Proof.
  apply (msgFromMarkdown_appends_line_break "update").
  - discriminate.
  - intros c Hc. cbn in Hc.
    repeat (destruct Hc as [<- | Hc]; [reflexivity|]). destruct Hc.
Defined.

(** *** What the conversion always does *)

Lemma lines_end_with_line_break (lines : list (list ascii)) :
  lines <> [] ->
  exists body,
    fold_left (fun newMarkdown line => newMarkdown ++ line ++ [nl]) lines []
    = body ++ [nl].
Proof.
  intros Hne. rewrite fold_left_lines. cbn [app].
  destruct (exists_last Hne) as (front & line & ->).
  exists (concat (map (fun l => l ++ [nl]) front) ++ line).
  rewrite map_app, concat_app. cbn. now rewrite app_nil_r, app_assoc.
Qed.

(** The conversion of a text that is not empty ends with a line break,
    whatever the text holds: every line of the line-wise pass, the last one
    included, is written back followed by one. *)
Theorem msgFromMarkdown_ends_with_line_break (text : list ascii) :
  text <> [] -> exists body, msgFromMarkdown text = body ++ [nl].
Proof.
  intros Hne. unfold msgFromMarkdown. destruct text as [|a text]; [congruence|].
  apply lines_end_with_line_break.
  intros H. apply map_eq_nil in H. now apply split_nonempty in H.
Qed.

Lemma msgFromMarkdown_ends_with_line_break_witness :
  exists body, msgFromMarkdown "**Patch** [notes](https://x.y)" = body ++ [nl].
Proof. apply msgFromMarkdown_ends_with_line_break. discriminate. Defined.

(** *** Sending *)

(** [sendMessage] of a text never throws and always resolves to true: when
    the API call rejects, the failure is logged and nothing is sent. *)
Theorem sendMessage_never_throws (this : TelegramBot) (channel : BotChannel)
    (messageText : string) (log : list effect) :
  let message := string_of_list_ascii (msgFromMarkdown messageText) in
  sendMessage this channel messageText log
  = (Returned true,
     log ++ [match apiSendMessage (bot this) (channel_id channel) message with
             | Returned _ => Sent (channel_id channel) message
             | Thrown error =>
                 LoggedError ("Failed to send message to channel:" +:+ LF +:+ error)
             end]).
Proof.
  cbv zeta. unfold sendMessage, tryCatch, bind, ret, await, logError, perform.
  destruct (apiSendMessage _ _ _) as [[]|error]; reflexivity.
Qed.

(** *** Dispatch of channel posts *)

(** A message without a sender, as a channel post is, is dispatched for the
    placeholder author, whom the resolver makes an administrator before it
    looks at the owners or asks the platform. *)
Lemma getUserPermission_channel_post this msg log :
  from_id msg = None ->
  getUserPermission this (senderOf msg) (channelOf this msg) log
  = (Returned ADMIN, log).
Proof.
  intros Hfrom. rewrite getUserPermission_run. unfold senderOf. rewrite Hfrom.
  reflexivity.
Qed.

(** A channel post runs the handler of every command it triggers, but for the
    commands of the owners: it is never refused a command of the
    administrators, whoever wrote it, and never granted one of the owners. *)
Theorem channel_post_runs_as_admin (this : TelegramBot) (msg : Message)
    (command : Command) (log : list effect) :
  from_id msg = None ->
  roleOf this msg = ADMIN
  /\ exists log',
       onMessage this msg command log = (Returned tt, log')
       /\ handlersRun log'
          = handlersRun log
            ++ (if triggers this msg command
                   && negb (bool_decide (permission command = OWNER))
                then [label command] else []).
Proof.
  intros Hfrom.
  assert (roleOf this msg = ADMIN) as Hrole.
  { unfold roleOf. now rewrite getUserPermission_channel_post. }
  split; [exact Hrole|].
  destruct (onMessage_run this msg command log) as (log' & Hrun & Hhandlers).
  exists log'. split; [exact Hrun|]. rewrite Hhandlers.
  unfold permitted. rewrite Hrole.
  now destruct (permission command).
Qed.

(** A channel post to the bot of a private chat. *)
Definition channelPost (t : string) : Message :=
  {| chat_id := 5; from_id := None; text := t |}.

Lemma channel_post_runs_as_admin_witness :
  roleOf privateChatBot (channelPost "/prefix !") = ADMIN
  /\ exists log',
       onMessage privateChatBot (channelPost "/prefix !")
         (newCommand "Prefix" "Change the bot's prefix used in this channel."
            "prefix" "prefix(?<newPrefix>.*)$" (Some ADMIN) None) []
       = (Returned tt, log')
       /\ handlersRun log' = ["Prefix"].
Proof.
  apply (channel_post_runs_as_admin privateChatBot (channelPost "/prefix !")
           (newCommand "Prefix" "Change the bot's prefix used in this channel."
              "prefix" "prefix(?<newPrefix>.*)$" (Some ADMIN) None) []).
  reflexivity.
Defined.

(** *** The tag of a bot that cannot name itself *)

(** When [getMe] rejects, [getUserName] logs the failure and returns nothing,
    [getUserTag] prints that as [@undefined], and the pattern of a command is
    built, and compiled, with that tag. *)
Theorem getRegExp_without_user_name (this : TelegramBot) (command : Command)
    (channel : BotChannel) (log : list effect) (error : string) :
  getMe (bot this) = Thrown error ->
  getUserTag this log
  = (Returned (Some "@undefined"),
     log ++ [LoggedError ("Failed to get user name:" +:+ LF +:+ error)])
  /\ getRegExp command this channel log
     = (newRegExp (regexString command this channel "@undefined"),
        log ++ [LoggedError ("Failed to get user name:" +:+ LF +:+ error)]).
Proof.
  intros Hme.
  assert (getUserTag this log
          = (Returned (Some "@undefined"),
             log ++ [LoggedError ("Failed to get user name:" +:+ LF +:+ error)]))
    as Htag.
  { unfold getUserTag, getUserName, tryCatch, bind, ret, await, logError,
      perform. now rewrite Hme. }
  split; [exact Htag|].
  unfold getRegExp. now rewrite (bind_returned _ _ _ _ _ Htag).
Qed.

(** A bot whose [getMe] rejects. *)
Definition namelessBot : TelegramBot :=
  {| bot := {| getMe := Thrown "ETELEGRAM: 401 Unauthorized";
               getChat := fun _ =>
                 Returned {| all_members_are_administrators := false;
                             chat_type := "private" |};
               getChatAdministrators := fun _ => Returned None;
               apiSendMessage := fun _ _ => Returned tt |};
     prefix := "/";
     config_owners := None;
     getChannelByID := mkChannel |}.

Lemma getRegExp_without_user_name_witness :
  getUserTag namelessBot []
  = (Returned (Some "@undefined"),
     [] ++ [LoggedError ("Failed to get user name:" +:+ LF
                         +:+ "ETELEGRAM: 401 Unauthorized")])
  /\ getRegExp
       (newCommand "Help" "Display a list of all available commands." "help"
          "help\s*$" None None) namelessBot (mkChannel "5") []
     = (newRegExp
          (regexString
             (newCommand "Help" "Display a list of all available commands."
                "help" "help\s*$" None None) namelessBot (mkChannel "5")
             "@undefined"),
        [] ++ [LoggedError ("Failed to get user name:" +:+ LF
                            +:+ "ETELEGRAM: 401 Unauthorized")]).
Proof. apply getRegExp_without_user_name. reflexivity. Defined.

(** *** Notifications

    The branch of [sendMessage] for a notification. The notification class
    and the template class are not among the sources: a notification is the
    record of what the branch reads of it, its title and author, each a text
    with a link, the label and the Instant View templates of its game, and
    the markdown [toMDString] renders; a template is its [testUrl]. *)

Record NotificationElement := { element_text : string; element_link : string }.

Record TelegramIVTemplate := { testUrl : string -> string }.

Record NotificationGame := {
  game_label : string;
  telegramIVTemplates : option (list TelegramIVTemplate)
}.

Record BotNotification := {
  title : NotificationElement;
  author : NotificationElement;
  game : NotificationGame;
  toMDString : string
}.

(** The truthiness of a string. *)
Definition nonEmpty (s : string) : bool := negb (String.eqb s EmptyString).

(** The text for a template whose [testUrl] gave [templateLink]. *)
Definition templateText (message : BotNotification) (templateLink : string)
    : string :=
  let link := element_link (title message) in
  let titleText :=
    "[" +:+ element_text (title message) +:+ "](" +:+ templateLink +:+ ")" in
  let externalText := "([external link](" +:+ link +:+ "))" in
  if nonEmpty (element_text (author message)) then
    let authorText :=
      if nonEmpty (element_link (author message))
      then "[" +:+ element_text (author message) +:+ "]("
           +:+ element_link (author message) +:+ ")"
      else element_text (author message) in
    "New **" +:+ game_label (game message) +:+ "** update - " +:+ authorText
    +:+ ":" +:+ LF +:+ LF +:+ titleText +:+ LF +:+ externalText
  else
    "New **" +:+ game_label (game message) +:+ "** update:" +:+ LF +:+ LF
    +:+ titleText +:+ LF +:+ externalText.

(** Test for IV template matches: the loop over the templates. *)
Definition templateLoop (message : BotNotification)
    (templates : list TelegramIVTemplate) (text : string) : string :=
  fold_left
    (fun text telegramIVtemplate =>
       let templateLink :=
         testUrl telegramIVtemplate (element_link (title message)) in
       if nonEmpty templateLink then templateText message templateLink
       else text)
    templates text.

(** The text handed to the API. *)
Definition notificationText (message : BotNotification) : string :=
  let templates := default [] (telegramIVTemplates (game message)) in
  let text := templateLoop message templates EmptyString in
  let text :=
    (* Check if an IV template matched *)
    if negb (nonEmpty text)
    then string_of_list_ascii (msgFromMarkdown (toMDString message))
    else text in
  if 2048 <? String.length text then substring 0 2048 text else text.

Definition sendNotification (this : TelegramBot) (channel : BotChannel)
    (message : BotNotification) : Async bool :=
  let text := notificationText message in
  do* tryCatch
        (do* await (apiSendMessage (bot this) (channel_id channel) text) in
         perform (Sent (channel_id channel) text))
        (fun error =>
           logError ("Failed to send notification to channel "
                     +:+ channel_id channel +:+ ":" +:+ LF +:+ error)) in
  ret true.

Lemma substring_length_le (s : string) :
  forall n, String.length (substring 0 n s) <= n.
Proof.
  induction s as [|c s IH]; intros [|n]; cbn; try lia.
  specialize (IH n). lia.
Qed.

(** The text of a notification is cut to 2048 code units before it is handed
    to the API, whichever way it was built. *)
Theorem notificationText_bounded (message : BotNotification) :
  String.length (notificationText message) <= 2048.
Proof.
  unfold notificationText.
  destruct (2048 <? String.length _) eqn:Hlong.
  - apply substring_length_le.
  - now apply Nat.ltb_ge in Hlong.
Qed.

Lemma templateLoop_unmatched message templates text :
  forallb (fun tpl => negb (nonEmpty (testUrl tpl (element_link (title message)))))
    templates = true ->
  templateLoop message templates text = text.
Proof.
  unfold templateLoop. revert text.
  induction templates as [|tpl templates IH]; intros text; cbn; [reflexivity|].
  intros [Htpl Hrest]%andb_true_iff. apply negb_true_iff in Htpl.
  rewrite Htpl. now apply IH.
Qed.

(** When several Instant View templates match the link of the title, the
    last one in the list of the game makes the text: each match overwrites
    what the matches before it built. *)
Theorem templateLoop_last_match_wins (message : BotNotification)
    (front back : list TelegramIVTemplate) (template : TelegramIVTemplate)
    (text : string) :
  testUrl template (element_link (title message)) <> EmptyString ->
  forallb (fun tpl => negb (nonEmpty (testUrl tpl (element_link (title message)))))
    back = true ->
  templateLoop message (front ++ template :: back) text
  = templateText message (testUrl template (element_link (title message))).
Proof.
  intros Hmatch Hback. unfold templateLoop.
  rewrite fold_left_app. cbn [fold_left].
  apply String.eqb_neq in Hmatch. unfold nonEmpty at 2. rewrite Hmatch.
  cbn [negb]. now apply templateLoop_unmatched.
Qed.

(** The template of a domain: it gives the Instant View link of a link that
    begins with its domain, and nothing for another link. *)
Definition templateOf (domain hash : string) : TelegramIVTemplate :=
  {| testUrl := fun url =>
       if String.prefix domain url
       then "https://t.me/iv?url=" +:+ url +:+ "&rhash=" +:+ hash
       else EmptyString |}.

Definition patchNotes : BotNotification :=
  {| title := {| element_text := "7.22"; element_link := "dota2.com/patches/7.22" |};
     author := {| element_text := EmptyString; element_link := EmptyString |};
     game := {| game_label := "Dota 2"; telegramIVTemplates := None |};
     toMDString := "**7.22**" |}.

Lemma templateLoop_last_match_wins_witness :
  templateLoop patchNotes
    ([templateOf "dota2.com" "aaa"]
     ++ templateOf "dota2.com/patches" "bbb" :: [templateOf "steam" "ccc"])
    EmptyString
  = templateText patchNotes
      (testUrl (templateOf "dota2.com/patches" "bbb")
         (element_link (title patchNotes))).
Proof.
  apply templateLoop_last_match_wins.
  - vm_compute. discriminate.
  - vm_compute. reflexivity.
Defined.

End Telegram.

(** ** Subscriptions ([BotClient.addSubscriber], [BotClient.removeSubscriber])

    The subscriber file is a JSON object read whole by [getSubscribers] and
    written whole by [setSubscribers]: [subscribers[client][game]] is the
    array of the channels subscribed to the game on the client. The state is
    the content of the file, the number of times it was written and the
    debug log. Reading a property of [undefined] and iterating over
    [undefined] throw a TypeError, which is [None] here. *)

Module BotClient.

Record Game := { game_name : string; game_label : string }.

Section Subscribers.

(** The channel class is not among the sources: a channel, the JSON value it
    is stored as and the comparison of a channel with a stored value are
    parameters. *)
Variable BotChannel : Type.
Variable Subscriber : Type.
Variable isEqual : BotChannel -> Subscriber -> bool.
Variable toJSON : BotChannel -> Subscriber.

Record Disk := {
  subscribers : gmap string (gmap string (list Subscriber));
  writes : nat;
  (** What [logDebug] was given: the index found and the list left. *)
  debugLog : list (nat * list Subscriber)
}.

Definition getSubscribers (d : Disk) : gmap string (gmap string (list Subscriber)) :=
  subscribers d.

Definition setSubscribers (s : gmap string (gmap string (list Subscriber)))
    (d : Disk) : Disk :=
  {| subscribers := s; writes := S (writes d); debugLog := debugLog d |}.

Definition logDebug (msg : nat * list Subscriber) (d : Disk) : Disk :=
  {| subscribers := subscribers d; writes := writes d;
     debugLog := debugLog d ++ [msg] |}.

(** [subscribers[this.name][game.name]]. *)
Definition gameSubsOf (name : string) (game : Game) (d : Disk)
    : option (list Subscriber) :=
  byClient ← getSubscribers d !! name;
  byClient !! game_name game.

Definition addSubscriber (name : string) (channel : BotChannel) (game : Game)
    (d : Disk) : option (bool * Disk) :=
  let subscribers := getSubscribers d in
  byClient ← subscribers !! name;
  gameSubs ← byClient !! game_name game;
  (* Check if channel is already subscribed to this client *)
  if existsb (isEqual channel) gameSubs then Some (false, d)
  else
    (* Save changes *)
    let gameSubs := gameSubs ++ [toJSON channel] in
    let subscribers :=
      <[name := <[game_name game := gameSubs]> byClient]> subscribers in
    Some (true, setSubscribers subscribers d).

(** The loop of [removeSubscriber]: the index of the first entry equal to
    the channel, counted from [i]. *)
Fixpoint firstEqual (channel : BotChannel) (gameSubs : list Subscriber)
    (i : nat) : option nat :=
  match gameSubs with
  | [] => None
  | sub :: gameSubs' =>
      if isEqual channel sub then Some i
      else firstEqual channel gameSubs' (S i)
  end.

Definition removeSubscriber (name : string) (channel : BotChannel)
    (game : Game) (d : Disk) : option (bool * Disk) :=
  let subscribers := getSubscribers d in
  byClient ← subscribers !! name;
  gameSubs ← byClient !! game_name game;
  match firstEqual channel gameSubs 0 with
  | None => Some (false, d)
  | Some i =>
      let gameSubs := splice1 i gameSubs in
      let d := logDebug (i, gameSubs) d in
      (* Save changes *)
      let subscribers :=
        <[name := <[game_name game := gameSubs]> byClient]> subscribers in
      Some (true, setSubscribers subscribers d)
  end.

(** How many stored entries are the channel. *)
Definition entriesOf (channel : BotChannel) (gameSubs : list Subscriber) : nat :=
  length (List.filter (isEqual channel) gameSubs).

Lemma entriesOf_unsubscribed channel gameSubs :
  existsb (isEqual channel) gameSubs = false -> entriesOf channel gameSubs = 0.
Proof.
  unfold entriesOf. induction gameSubs as [|sub gameSubs IH]; cbn;
    [reflexivity|].
  intros H. apply orb_false_iff in H as [-> H]. auto.
Qed.

Lemma firstEqual_unsubscribed channel gameSubs i :
  existsb (isEqual channel) gameSubs = false ->
  firstEqual channel gameSubs i = None.
Proof.
  revert i. induction gameSubs as [|sub gameSubs IH]; cbn; intros i H;
    [reflexivity|].
  apply orb_false_iff in H as [-> H]. auto.
Qed.

(** C5. Subscribing a channel to a game it is not subscribed to, twice: the
    first call returns true and appends the channel once to the stored list,
    the second call returns false and writes nothing, and the stored list
    holds the channel exactly once. *)
Theorem addSubscriber_twice (name : string) (channel : BotChannel)
    (game : Game) (d : Disk) (gameSubs : list Subscriber) :
  gameSubsOf name game d = Some gameSubs ->
  existsb (isEqual channel) gameSubs = false ->
  isEqual channel (toJSON channel) = true ->
  exists d1,
    addSubscriber name channel game d = Some (true, d1)
    /\ addSubscriber name channel game d1 = Some (false, d1)
    /\ gameSubsOf name game d1 = Some (gameSubs ++ [toJSON channel])
    /\ entriesOf channel (gameSubs ++ [toJSON channel]) = 1.
Proof.
  unfold gameSubsOf, getSubscribers. intros Hsubs Hnew Heq.
  destruct (subscribers d !! name) as [byClient|] eqn:Hclient;
    [|discriminate]. cbn in Hsubs.
  eexists. split; [|split; [|split]].
  - unfold addSubscriber, getSubscribers. rewrite Hclient. cbn.
    rewrite Hsubs. cbn. rewrite Hnew. reflexivity.
  - unfold addSubscriber, getSubscribers, setSubscribers. cbn.
    rewrite lookup_insert_eq. cbn. rewrite lookup_insert_eq. cbn.
    rewrite existsb_app. cbn. rewrite Heq, orb_true_r. reflexivity.
  - cbn. rewrite lookup_insert_eq. cbn. apply lookup_insert_eq.
  - unfold entriesOf. rewrite List.filter_app, List.length_app.
    fold (entriesOf channel gameSubs).
    rewrite entriesOf_unsubscribed by assumption. cbn. now rewrite Heq.
Qed.

(** C8. Unsubscribing a channel from a game it is not subscribed to returns
    false and leaves the state as it was: the file is not written. *)
Theorem removeSubscriber_never_subscribed (name : string)
    (channel : BotChannel) (game : Game) (d : Disk)
    (gameSubs : list Subscriber) :
  gameSubsOf name game d = Some gameSubs ->
  existsb (isEqual channel) gameSubs = false ->
  removeSubscriber name channel game d = Some (false, d).
Proof.
  unfold gameSubsOf, removeSubscriber, getSubscribers. intros Hsubs Hnew.
  destruct (subscribers d !! name) as [byClient|]; [|discriminate].
  cbn in *. rewrite Hsubs. cbn.
  now rewrite firstEqual_unsubscribed.
Qed.

(** *** Unsubscribing what is subscribed *)

Lemma firstEqual_split channel gameSubs :
  forall k i,
    firstEqual channel gameSubs k = Some i ->
    exists front sub back,
      gameSubs = front ++ sub :: back
      /\ existsb (isEqual channel) front = false
      /\ isEqual channel sub = true
      /\ i = k + length front.
Proof.
  induction gameSubs as [|x gameSubs IH]; cbn; intros k i H; [discriminate|].
  destruct (isEqual channel x) eqn:Hx.
  - injection H as <-. exists [], x, gameSubs. cbn. repeat split; auto.
  - apply IH in H as (front & sub & back & -> & Hfront & Hsub & ->).
    exists (x :: front), sub, back. cbn. rewrite Hx, Hfront.
    repeat split; auto; lia.
Qed.

Lemma firstEqual_subscribed channel gameSubs k :
  existsb (isEqual channel) gameSubs = true ->
  exists i, firstEqual channel gameSubs k = Some i.
Proof.
  revert k. induction gameSubs as [|x gameSubs IH]; cbn; intros k H;
    [discriminate|].
  destruct (isEqual channel x); [eauto|]. now apply IH.
Qed.

Lemma gameSubsOf_stored name game byClient gameSubs s n l :
  gameSubsOf name game
    {| subscribers := <[name := <[game_name game := gameSubs]> byClient]> s;
       writes := n; debugLog := l |}
  = Some gameSubs.
Proof.
  unfold gameSubsOf, getSubscribers. cbn.
  rewrite lookup_insert_eq. cbn. apply lookup_insert_eq.
Qed.

Lemma gameSubsOf_other name game name' game' byClient gameSubs d n l :
  subscribers d !! name = Some byClient ->
  (name', game_name game') <> (name, game_name game) ->
  gameSubsOf name' game'
    {| subscribers :=
         <[name := <[game_name game := gameSubs]> byClient]> (subscribers d);
       writes := n; debugLog := l |}
  = gameSubsOf name' game' d.
Proof.
  intros Hclient Hother. unfold gameSubsOf, getSubscribers. cbn.
  destruct (decide (name' = name)) as [->|Hname].
  - rewrite lookup_insert_eq, Hclient. cbn.
    apply lookup_insert_ne. congruence.
  - now rewrite lookup_insert_ne by congruence.
Qed.

(** Unsubscribing removes one stored entry, the first that is the channel:
    the call returns true, writes the file once and logs the index, every
    entry before and after the removed one is kept in its place, so that an
    entry of the channel stored a second time is still there, and the lists
    of every other game and client are as they were. *)
Theorem removeSubscriber_removes_first (name : string) (channel : BotChannel)
    (game : Game) (d : Disk) (gameSubs : list Subscriber) :
  gameSubsOf name game d = Some gameSubs ->
  existsb (isEqual channel) gameSubs = true ->
  exists front sub back d',
    gameSubs = front ++ sub :: back
    /\ existsb (isEqual channel) front = false
    /\ isEqual channel sub = true
    /\ removeSubscriber name channel game d = Some (true, d')
    /\ gameSubsOf name game d' = Some (front ++ back)
    /\ S (entriesOf channel (front ++ back)) = entriesOf channel gameSubs
    /\ writes d' = S (writes d)
    /\ debugLog d' = debugLog d ++ [(length front, front ++ back)]
    /\ forall name' game',
         (name', game_name game') <> (name, game_name game) ->
         gameSubsOf name' game' d' = gameSubsOf name' game' d.
Proof.
  unfold gameSubsOf at 1. unfold getSubscribers. intros Hsubs Hsubbed.
  destruct (subscribers d !! name) as [byClient|] eqn:Hclient;
    [|discriminate]. cbn in Hsubs.
  destruct (firstEqual_subscribed channel gameSubs 0 Hsubbed) as [i Hi].
  destruct (firstEqual_split _ _ _ _ Hi)
    as (front & sub & back & -> & Hfront & Hsub & ->).
  exists front, sub, back. eexists.
  split; [reflexivity|]. split; [exact Hfront|]. split; [exact Hsub|].
  split.
  { unfold removeSubscriber, getSubscribers. rewrite Hclient. cbn.
    rewrite Hsubs. cbn. rewrite Hi. cbn [Nat.add].
    rewrite splice1_middle. reflexivity. }
  split; [apply gameSubsOf_stored|].
  split.
  { unfold entriesOf. rewrite !List.filter_app, !List.length_app. cbn.
    rewrite Hsub. cbn. lia. }
  split; [reflexivity|]. split; [reflexivity|].
  intros name' game' Hother. now apply gameSubsOf_other.
Qed.

(** *** Subscribing and unsubscribing again *)

Lemma firstEqual_appended channel gameSubs sub :
  existsb (isEqual channel) gameSubs = false ->
  isEqual channel sub = true ->
  forall k, firstEqual channel (gameSubs ++ [sub]) k = Some (k + length gameSubs).
Proof.
  intros Hnew Heq.
  induction gameSubs as [|x gameSubs IH]; cbn in *; intros k.
  - rewrite Heq. f_equal. lia.
  - apply orb_false_iff in Hnew as [-> Hnew]. rewrite IH by assumption.
    f_equal. lia.
Qed.

(** A channel that subscribes to a game it was not subscribed to and then
    unsubscribes leaves the file with the content it had: both calls return
    true, the file is written twice, and the list of the game is the list
    it was. *)
Theorem addSubscriber_removeSubscriber (name : string) (channel : BotChannel)
    (game : Game) (d : Disk) (gameSubs : list Subscriber) :
  gameSubsOf name game d = Some gameSubs ->
  existsb (isEqual channel) gameSubs = false ->
  isEqual channel (toJSON channel) = true ->
  exists d1 d2,
    addSubscriber name channel game d = Some (true, d1)
    /\ removeSubscriber name channel game d1 = Some (true, d2)
    /\ subscribers d2 = subscribers d
    /\ writes d2 = 2 + writes d.
Proof.
  unfold gameSubsOf, getSubscribers. intros Hsubs Hnew Heq.
  destruct (subscribers d !! name) as [byClient|] eqn:Hclient;
    [|discriminate]. cbn in Hsubs.
  eexists. eexists. split; [|split; [|split]].
  - unfold addSubscriber, getSubscribers. rewrite Hclient. cbn.
    rewrite Hsubs. cbn. rewrite Hnew. reflexivity.
  - unfold removeSubscriber, getSubscribers, setSubscribers. cbn.
    rewrite lookup_insert_eq. cbn. rewrite lookup_insert_eq. cbn.
    rewrite firstEqual_appended by assumption. cbn [Nat.add].
    rewrite splice1_middle, app_nil_r. reflexivity.
  - cbn. rewrite !insert_insert_eq.
    rewrite (insert_id byClient) by assumption.
    now apply insert_id.
  - reflexivity.
Qed.

End Subscribers.

Definition dota : Game := {| game_name := "dota"; game_label := "Dota 2" |}.

(** A subscriber file in which channel 111 is subscribed to dota on
    Telegram; channels are stored, and compared, by their id. *)
Definition oneSubscriber : Disk string :=
  {| subscribers := {[ "telegram" := {[ "dota" := ["111"] ]} ]};
     writes := 0; debugLog := [] |}.

Lemma addSubscriber_twice_witness :
  exists d1,
    addSubscriber string string String.eqb id "telegram" "222" dota
      oneSubscriber = Some (true, d1)
    /\ addSubscriber string string String.eqb id "telegram" "222" dota d1
       = Some (false, d1)
    /\ gameSubsOf string "telegram" dota d1 = Some (["111"] ++ [id "222"])
    /\ entriesOf string string String.eqb "222" (["111"] ++ [id "222"]) = 1.
Proof.
  apply (addSubscriber_twice string string String.eqb id "telegram" "222" dota
           oneSubscriber ["111"]); vm_compute; reflexivity.
Defined.

Lemma removeSubscriber_never_subscribed_witness :
  removeSubscriber string string String.eqb "telegram" "222" dota oneSubscriber
  = Some (false, oneSubscriber).
Proof.
  apply (removeSubscriber_never_subscribed string string String.eqb "telegram"
           "222" dota oneSubscriber ["111"]); vm_compute; reflexivity.
Defined.

(** A subscriber file in which channel 111 is stored twice for dota. *)
Definition twiceStored : Disk string :=
  {| subscribers := {[ "telegram" := {[ "dota" := ["111"; "222"; "111"] ]} ]};
     writes := 0; debugLog := [] |}.

Lemma removeSubscriber_removes_first_witness :
  exists front sub back d',
    ["111"; "222"; "111"] = front ++ sub :: back
    /\ existsb (String.eqb "111") front = false
    /\ String.eqb "111" sub = true
    /\ removeSubscriber string string String.eqb "telegram" "111" dota
         twiceStored = Some (true, d')
    /\ gameSubsOf string "telegram" dota d' = Some (front ++ back)
    /\ S (entriesOf string string String.eqb "111" (front ++ back))
       = entriesOf string string String.eqb "111" ["111"; "222"; "111"]
    /\ writes string d' = S (writes string twiceStored)
    /\ debugLog string d'
       = debugLog string twiceStored ++ [(length front, front ++ back)]
    /\ forall name' game',
         (name', game_name game') <> ("telegram", game_name dota) ->
         gameSubsOf string name' game' d'
         = gameSubsOf string name' game' twiceStored.
Proof.
  apply (removeSubscriber_removes_first string string String.eqb "telegram"
           "111" dota twiceStored ["111"; "222"; "111"]);
    vm_compute; reflexivity.
Defined.

Lemma addSubscriber_removeSubscriber_witness :
  exists d1 d2,
    addSubscriber string string String.eqb id "telegram" "222" dota
      oneSubscriber = Some (true, d1)
    /\ removeSubscriber string string String.eqb "telegram" "222" dota d1
       = Some (true, d2)
    /\ subscribers string d2 = subscribers string oneSubscriber
    /\ writes string d2 = 2 + writes string oneSubscriber.
Proof.
  apply (addSubscriber_removeSubscriber string string String.eqb id "telegram"
           "222" dota oneSubscriber ["111"]); vm_compute; reflexivity.
Defined.

End BotClient.

(** ** The command group ([commands.ts]): help, triggers and the prefix
       command *)

Module Commands.

Abbreviation UserRole := UserPermission.

(** A record of the subscriber file ([Subscriber] of the data manager). *)
Record Subscriber := {
  gameSubs : list string;
  id : string;
  label : option string;
  prefix : option string;
  disabled : option bool
}.

(** What the handlers read of a bot client. *)
Record BotClient := {
  name : string;
  defaultPrefix : string
}.

(** Modelled from the spec: the channel class is not among the sources. A
    channel has an id and a prefix that defaults to the prefix its bot is
    configured with and that the prefix command changes. *)
Record Channel := {
  channelId : string;
  channelPrefix : option string
}.

(** Modelled from the spec: [channel.getPrefix()], the channel's own prefix
    or, when it has none, the bot's. *)
Definition getPrefix (bot : BotClient) (channel : Channel) : string :=
  match channelPrefix channel with
  | Some p => if String.eqb p EmptyString then defaultPrefix bot else p
  | None => defaultPrefix bot
  end.

(** *** The help generator *)

(** What the help generator reads of an action: its role, absent when the
    constructor was given none, and its help line on a channel. *)
Record Action := {
  actionName : string;
  description : string;
  role : option UserRole;
  channelHelp : Channel -> string -> string
}.

(** The [switch] of the filter callback. [callerRole] is the [role] the
    generator is called with, absent when its caller gives none: it is then
    undefined and strictly equal to no role. *)
Definition helpFilter (callerRole : option UserRole) (cmd : Action) : bool :=
  match role cmd with
  | Some OWNER => bool_decide (callerRole = Some OWNER)
  | Some ADMIN =>
      bool_decide (callerRole = Some OWNER)
      || bool_decide (callerRole = Some ADMIN)
  | Some USER => true
  | None => true
  end.

Definition help (bot : BotClient) (cmds : list Action) (channel : Channel)
    (linePrefix : string) (callerRole : option UserRole) : string :=
  let cmdPrefix := string_of_list_ascii (EscapeRegex (getPrefix bot channel)) in
  let cmdLabels :=
    map (fun cmd => linePrefix +:+ channelHelp cmd channel cmdPrefix)
      (List.filter (helpFilter callerRole) cmds) in
  String.concat LF cmdLabels.

(** The role a command requires: USER when it names none. *)
Definition requiredRole (cmd : Action) : UserRole := default USER (role cmd).

(** Modelled from the spec: the action classes are not among the sources. A
    command is rendered as its compiled label between backquotes, a colon
    and its description. *)
Definition renderHelp (triggerLabel description : string) (channel : Channel)
    (cmdPrefix : string) : string :=
  "`" +:+ cmdPrefix +:+ triggerLabel +:+ "`: " +:+ description.

Definition newAction (actionName description triggerLabel : string)
    (role : option UserRole) : Action :=
  {| actionName := actionName; description := description; role := role;
     channelHelp := renderHelp triggerLabel description |}.

Definition startCmd := newAction "start" "Get started with the GameFeeder." "start" None.
Definition helpCmd := newAction "help" "Display a list of all available commands." "help" None.
Definition aboutCmd := newAction "about" "Display info about the bot." "about" None.
Definition settingsCmd :=
  newAction "settings"
    "Display an overview of the settings you can configure for the bot."
    "settings" None.
Definition gamesCmd := newAction "games" "Display all available games." "games" None.
Definition subCmd :=
  newAction "subscribe" "Subscribe to the given game's feed."
    "subscribe <game name>" (Some ADMIN).
Definition unsubCmd :=
  newAction "unsubscribe" "Unsubscribe from the given game's feed"
    "unsubscribe <game name>" (Some ADMIN).
Definition prefixAction :=
  newAction "prefix" "Change the bot's prefix used in this channel."
    "prefix <new prefix>" (Some ADMIN).
Definition notifyAllCmd :=
  newAction "notifyAll" "Notify all subscribed users." "notifyAll <message>"
    (Some OWNER).
Definition notifyGameSubsCmd :=
  newAction "notifyGameSubs" "Notify all subs of a game."
    "notifyGameSubs (<game name>) <message>" (Some OWNER).
Definition flipCmd := newAction "flip" "Flip a coin." "flip" (Some USER).
Definition rollCmd :=
  newAction "roll" "Roll some dice."
    "roll <dice count> <dice type> <modifier>" (Some USER).
Definition statsCmd :=
  newAction "stats" "Display statistics about the bot." "stats" (Some USER).
Definition pingCmd := newAction "ping" "Test the delay of the bot." "ping" (Some USER).
Definition telegramCmdsCmd :=
  newAction "telegramCmds"
    "Get the string to properly register the commands on Telegram."
    "telegramCmds" (Some OWNER).
Definition debugCmd :=
  newAction "debug" "Display some useful debug information." "debug" None.

(** The commands of the group, in the order of its declaration. *)
Definition commands : list Action := [
  (* User commands *)
  startCmd; helpCmd; settingsCmd; aboutCmd; gamesCmd; flipCmd; rollCmd;
  statsCmd; pingCmd; debugCmd;
  (* Admin commands *)
  subCmd; unsubCmd; prefixAction;
  (* Owner commands *)
  notifyAllCmd; notifyGameSubsCmd; telegramCmdsCmd
].

(** *** The trigger of the group *)

Definition groupTrigger (userTag channelPrefix botPrefix : list ascii)
    : list ascii :=
  Telegram.addressClause userTag channelPrefix botPrefix
    ++ "(?<group>.*?)(\s*" ++ userTag ++ ")?\s*$".

(** The trigger generator, given the tag the bot returns. *)
Definition trigger (bot : BotClient) (tag : string) (channel : Channel)
    : option regex :=
  let userTag := EscapeRegex tag in
  let channelPrefix := EscapeRegex (getPrefix bot channel) in
  compile (groupTrigger userTag channelPrefix (defaultPrefix bot)).

(** Whether a text is addressed to the bot: the address clause alone,
    compiled, finds a match. *)
Definition addressed (tag channelPrefix botPrefix text : string) : option bool :=
  reg ← compile (Telegram.addressClause (EscapeRegex tag)
                   (EscapeRegex channelPrefix) botPrefix);
  Some (test reg text).

(** Whether the group's trigger matches a text. *)
Definition groupTriggered (tag channelPrefix botPrefix text : string)
    : option bool :=
  reg ← compile (groupTrigger (EscapeRegex tag) (EscapeRegex channelPrefix)
                   botPrefix);
  Some (test reg text).

(** The handler of [helpCmd], for a message on [channel] from a user whose
    role there is [userRole]. It asks the group for the help of the channel
    with a line prefix and nothing else: the help generator is given no
    role, and the handler does not look at the user. The class of the group
    is not among the sources; its [channelHelp] is taken to hand what it is
    given to the help generator. *)
Definition helpHandler (bot : BotClient) (channel : Channel)
    (userRole : UserRole) : string :=
  "You can use the following commands:" +:+ LF
  +:+ help bot commands channel "- " None.

(** Given a role, the filter of the help generator keeps a command exactly
    when the role satisfies the role the command requires. *)
Lemma helpFilter_satisfies callerRole cmd :
  helpFilter (Some callerRole) cmd = satisfies callerRole (requiredRole cmd).
Proof.
  unfold helpFilter, requiredRole.
  destruct (role cmd) as [[]|], callerRole; reflexivity.
Qed.

(** Given no role, it keeps the commands a USER may run. *)
Lemma helpFilter_undefined cmd :
  helpFilter None cmd = satisfies USER (requiredRole cmd).
Proof.
  unfold helpFilter, requiredRole. destruct (role cmd) as [[]|]; reflexivity.
Qed.

Lemma filter_ext_all {A} (f g : A -> bool) (l : list A) :
  (forall x, f x = g x) -> List.filter f l = List.filter g l.
Proof. intros H. apply List.filter_ext. exact H. Qed.

(** The help generator, given a role: the text is the lines, joined by line
    breaks and in the order of declaration, of exactly the commands whose
    required role the given role satisfies under USER < ADMIN < OWNER. For
    USER that is none of the OWNER-only commands, for OWNER every command. *)
Lemma help_for_role (bot : BotClient) (cmds : list Action)
    (channel : Channel) (linePrefix : string) (callerRole : UserRole) :
  let line cmd :=
    linePrefix
    +:+ channelHelp cmd channel
          (string_of_list_ascii (EscapeRegex (getPrefix bot channel))) in
  let visible (r : UserRole) (l : list Action) :=
    List.filter (fun cmd => satisfies r (requiredRole cmd)) l in
  help bot cmds channel linePrefix (Some callerRole)
  = String.concat LF (map line (visible callerRole cmds))
  /\ (forall cmd, In cmd (visible USER cmds) -> role cmd <> Some OWNER)
  /\ visible OWNER cmds = cmds.
Proof.
  cbv zeta. split; [|split].
  - unfold help. f_equal. f_equal. apply filter_ext_all.
    intros cmd. apply helpFilter_satisfies.
  - intros cmd Hin Hrole. apply filter_In in Hin as [_ Hsat].
    unfold requiredRole in Hsat. rewrite Hrole in Hsat. discriminate Hsat.
  - induction cmds as [|cmd cmds IH]; cbn; [reflexivity|].
    assert (satisfies OWNER (requiredRole cmd) = true) as ->
      by (destruct (requiredRole cmd); reflexivity).
    now rewrite IH.
Qed.

(** C7. The help command answers every caller alike. The generator filters
    by the role it is given and [helpCmd] gives it none, so the reply lists,
    in the order of declaration, the commands that require USER or name no
    role, and no other: an OWNER is not shown every command. notifyAll,
    which the generator lists when it is given the role OWNER, is not in the
    reply to an OWNER. *)
Theorem helpCmd_ignores_caller_role (bot : BotClient) (channel : Channel)
    (userRole : UserRole) :
  let line cmd :=
    "- "
    +:+ channelHelp cmd channel
          (string_of_list_ascii (EscapeRegex (getPrefix bot channel))) in
  let visible (r : UserRole) (l : list Action) :=
    List.filter (fun cmd => satisfies r (requiredRole cmd)) l in
  helpHandler bot channel userRole
  = "You can use the following commands:" +:+ LF
    +:+ String.concat LF (map line (visible USER commands))
  /\ visible USER commands
     = [startCmd; helpCmd; settingsCmd; aboutCmd; gamesCmd; flipCmd; rollCmd;
        statsCmd; pingCmd; debugCmd]
  /\ ~ In notifyAllCmd (visible USER commands)
  /\ In notifyAllCmd (visible OWNER commands)
  /\ help bot commands channel "- " (Some OWNER)
     = String.concat LF (map line commands).
Proof.
  cbv zeta. split; [|split; [|split; [|split]]].
  - unfold helpHandler, help.
    now rewrite (filter_ext_all _ _ commands helpFilter_undefined).
  - reflexivity.
  - intros Hin. apply filter_In in Hin as [_ Hsat]. discriminate Hsat.
  - apply filter_In. split; [|reflexivity]. cbn. tauto.
  - reflexivity.
Qed.

(** *** The address clause, parsed *)

(** The pattern the address clause stands for when its three literals are
    the tag [T], the channel prefix [P] and the bot's prefix [B]. *)
Definition clauseRegex (T P B : list ascii) : regex :=
  Seq Bol
    (Seq spaces
       (Seq (Group 1 EmptyString
               (Alt (Group 2 EmptyString (literalOf T))
                  (Alt (Group 3 EmptyString
                          (Seq (Group 4 EmptyString (literalOf P))
                             (Opt true
                                (Group 5 EmptyString
                                   (mkSeq spaces (literalOf T))))))
                     (Group 6 EmptyString
                        (Seq (Group 7 EmptyString (literalOf B))
                           (Seq spaces
                              (Group 8 EmptyString (literalOf T))))))))
          spaces)).

Lemma addressClause_reads (T P B : list ascii) :
  exists n,
    n < 3 * length (Telegram.addressClause (EscapeRegex T) (EscapeRegex P) (EscapeRegex B))
    /\ reads parseDisjunction n
         (Telegram.addressClause (EscapeRegex T) (EscapeRegex P) (EscapeRegex B)) 1
         (clauseRegex T P B, [], 9).
Proof.
  unfold Telegram.addressClause. cbn [list_ascii_of_string app].
  eexists. split; cycle 1.
  - read_source.
  - repeat (rewrite length_app || cbn [length]). lia.
Qed.

Lemma compile_addressClause (T P B : list ascii) :
  compile (Telegram.addressClause (EscapeRegex T) (EscapeRegex P) (EscapeRegex B))
  = Some (clauseRegex T P B).
Proof.
  destruct (addressClause_reads T P B) as (n & Hn & Hreads).
  unfold compile. rewrite Hreads by lia. reflexivity.
Qed.

(** *** The address clause, characterised *)

(** The texts the clause is meant for, in the words of the specification:
    after white space, the tag, or the channel's prefix, or the bot's prefix,
    white space and the tag. *)
Definition startsWithAddress (T P B text : list ascii) : Prop :=
  exists w tail,
    allSpace w
    /\ (text = w ++ T ++ tail
        \/ text = w ++ P ++ tail
        \/ exists w', allSpace w' /\ text = w ++ B ++ w' ++ T ++ tail).

Lemma leads_here s p tail : leads s (p, s ++ tail) (p + length s, tail).
Proof. split; reflexivity. Qed.

Lemma leads_spaces w p tail :
  allSpace w -> matchesAt spaces (p, w ++ tail) (p + length w, tail).
Proof.
  intros Hw. apply matchesAt_spaces. exists w. split; [exact Hw|].
  apply leads_here.
Qed.

Lemma leads_nothing p tail : matchesAt spaces (p, tail) (p, tail).
Proof. constructor. Qed.

Lemma matchesAt_clause T P B x y :
  matchesAt (clauseRegex T P B) x y ->
  fst x = 0 /\ startsWithAddress T P B (snd x).
Proof.
  unfold clauseRegex. cbn [matchesAt].
  intros (x0 & [-> Hbol] & x1 & Hw & x2 & Hclause & _).
  split; [exact Hbol|].
  apply matchesAt_spaces in Hw as (w & Hw & Hx & _).
  exists w. rewrite Hx.
  destruct Hclause as [HT | [(x3 & HP & _) | (x3 & HB & x4 & Hw' & HT)]].
  - apply matchesAt_literal in HT as [-> _]. exists (snd x2). auto.
  - apply matchesAt_literal in HP as [-> _]. exists (snd x3). auto.
  - apply matchesAt_literal in HB as [-> _].
    apply matchesAt_spaces in Hw' as (w' & Hw' & -> & _).
    apply matchesAt_literal in HT as [-> _].
    exists (snd x2). split; [exact Hw|]. right. right. exists w'. auto.
Qed.

Lemma clause_matchesAt T P B text :
  startsWithAddress T P B text -> exists y, matchesAt (clauseRegex T P B) (0, text) y.
Proof.
  intros (w & tail & Hw & H). unfold clauseRegex. cbn [matchesAt].
  destruct H as [-> | [-> | (w' & Hw' & ->)]].
  - exists (0 + length w + length T, tail).
    exists (0, w ++ T ++ tail). split; [now split|].
    exists (0 + length w, T ++ tail). split; [now apply leads_spaces|].
    exists (0 + length w + length T, tail). split; [|apply leads_nothing].
    left. apply matchesAt_literal, leads_here.
  - exists (0 + length w + length P, tail).
    exists (0, w ++ P ++ tail). split; [now split|].
    exists (0 + length w, P ++ tail). split; [now apply leads_spaces|].
    exists (0 + length w + length P, tail). split; [|apply leads_nothing].
    right. left. exists (0 + length w + length P, tail).
    split; [apply matchesAt_literal, leads_here | now left].
  - exists (0 + length w + length B + length w' + length T, tail).
    exists (0, w ++ B ++ w' ++ T ++ tail). split; [now split|].
    exists (0 + length w, B ++ w' ++ T ++ tail). split; [now apply leads_spaces|].
    exists (0 + length w + length B + length w' + length T, tail).
    split; [|apply leads_nothing].
    right. right. exists (0 + length w + length B, w' ++ T ++ tail).
    split; [apply matchesAt_literal, leads_here|].
    exists (0 + length w + length B + length w', T ++ tail).
    split; [now apply leads_spaces | apply matchesAt_literal, leads_here].
Qed.

(** The compiled address clause finds a match in exactly the texts that are
    addressed to the bot. *)
Lemma test_clause T P B text :
  test (clauseRegex T P B) text = true <-> startsWithAddress T P B text.
Proof.
  rewrite test_true. split.
  - intros (i & y & Hi & Hm). apply matchesAt_clause in Hm as [Hz H].
    cbn in Hz. subst i. exact H.
  - intros H. apply clause_matchesAt in H as [y Hy].
    exists 0, y. split; [lia | exact Hy].
Qed.

(** The clause as the two generators build it, for every tag and every
    channel prefix, whatever characters they hold, and for every prefix of
    the bot that holds no character of the pattern syntax: the source
    compiles, and the pattern finds a match in exactly the texts that, after
    white space, begin with the tag, with the channel's prefix, or with the
    bot's prefix, white space and the tag. *)
Theorem addressed_escaped (tag channelPrefix botPrefix text : string) :
  forallb (fun c => negb (isSpecial c)) botPrefix = true ->
  exists b,
    addressed tag channelPrefix botPrefix text = Some b
    /\ (b = true <-> startsWithAddress tag channelPrefix botPrefix text).
Proof.
  intros Hplain.
  pose proof (compile_addressClause tag channelPrefix botPrefix) as Hcompile.
  rewrite (EscapeRegex_plain botPrefix Hplain) in Hcompile.
  unfold addressed. rewrite Hcompile. cbn [mbind option_bind].
  eexists. split; [reflexivity|]. apply test_clause.
Qed.

Lemma addressed_escaped_witness :
  exists b,
    addressed "@B.t" "(.*)" "/" "  (.*) @B.t help" = Some b
    /\ (b = true <-> startsWithAddress "@B.t" "(.*)" "/" "  (.*) @B.t help").
Proof. apply addressed_escaped. reflexivity. Defined.

(** *** The address clause on concrete channels *)

(** The examples of the specification: prefix [/], tag [@Bot]. *)
Lemma addressClause_examples :
  addressed "@Bot" "/" "/" "/help" = Some true
  /\ addressed "@Bot" "/" "/" "@Bot help" = Some true
  /\ addressed "@Bot" "/" "/" "/ @Bot help" = Some true
  /\ addressed "@Bot" "/" "/" "helper" = Some false
  /\ addressed "@Bot" "/" "/" "xhelp" = Some false
  /\ groupTriggered "@Bot" "/" "/" "/help" = Some true
  /\ groupTriggered "@Bot" "/" "/" "@Bot help" = Some true
  /\ groupTriggered "@Bot" "/" "/" "/ @Bot help" = Some true
  /\ groupTriggered "@Bot" "/" "/" "helper" = Some false
  /\ groupTriggered "@Bot" "/" "/" "xhelp" = Some false.
Proof. vm_compute. repeat split. Qed.

(** A channel prefix made of metacharacters is matched literally. *)
Lemma addressClause_escapes_channel_prefix :
  addressed "@Bot" ".*" "/" ".*help" = Some true
  /\ addressed "@Bot" ".*" "/" "xxhelp" = Some false
  /\ addressed "@Bot" "?" "/" "?help" = Some true
  /\ addressed "@B.t" "!" "/" "@B.t help" = Some true
  /\ addressed "@B.t" "!" "/" "@Bot help" = Some false.
Proof. vm_compute. repeat split. Qed.

(** C3 at its failing inputs. The bot's own prefix enters the clause
    unescaped: configured as a dot it stands for any character, so a text
    that begins with neither the tag, nor the channel's prefix, nor the dot
    followed by the tag is taken as addressed to the bot; configured as a
    question mark it leaves no pattern at all, and no text is matched. *)
Theorem addressClause_leaves_default_prefix_unescaped :
  addressed "@Bot" "/" "." "x@Bot help" = Some true
  /\ groupTriggered "@Bot" "/" "." "x@Bot help" = Some true
  /\ addressed "@Bot" "/" "?" "/help" = None
  /\ groupTriggered "@Bot" "/" "?" "/help" = None
  /\ addressed "@Bot" "/" "$" "$@Bot help" = Some false.
Proof. vm_compute. repeat split. Qed.

(** *** The prefix command

    The state a handler works on: the subscriber file, read whole by
    [getSubscriberData] and written whole by [setSubscriberData], the number
    of times it was written, and what the handler sent and logged. *)

Record World := {
  subscriberData : gmap string (list Subscriber);
  writes : nat;
  effects : list effect
}.

Definition getSubscriberData (w : World) : gmap string (list Subscriber) :=
  subscriberData w.

Definition setSubscriberData (data : gmap string (list Subscriber)) (w : World)
    : World :=
  {| subscriberData := data; writes := S (writes w); effects := effects w |}.

Definition effect_ (e : effect) (w : World) : World :=
  {| subscriberData := subscriberData w; writes := writes w;
     effects := effects w ++ [e] |}.

(** [bot.sendMessage(channel, text)] and [message.reply(text)]. *)
Definition sendMessage (channel : Channel) (text : string) (w : World) : World :=
  effect_ (Sent (channelId channel) text) w.

(** What the permission query of the bot's own user resolves to. *)
Record Permissions := { canWrite : bool }.

Definition setPrefix (p : option string) (sub : Subscriber) : Subscriber :=
  {| gameSubs := gameSubs sub; id := id sub; label := label sub;
     prefix := p; disabled := disabled sub |}.

(** The truthiness of an optional string. *)
Definition truthy (s : option string) : bool :=
  match s with
  | Some s => negb (String.eqb s EmptyString)
  | None => false
  end.

(** [newPrefix ? newPrefix.trim() : ''] on the capture of the group. *)
Definition givenPrefix (newPrefixGroup : option string) : string :=
  match newPrefixGroup with
  | Some g => if String.eqb g EmptyString then EmptyString else trim g
  | None => EmptyString
  end.

(** [channel.prefix = newPrefix]. *)
Definition withPrefix (newPrefix : string) (channel : Channel) : Channel :=
  {| channelId := channelId channel; channelPrefix := Some newPrefix |}.

(** The messages among the effects. *)
Definition sentMessages (es : list effect) : list (string * string) :=
  omap (fun e => match e with Sent c t => Some (c, t) | _ => None end) es.

(** A record holds a custom prefix when its prefix is set and is not the
    prefix the bot is configured with. *)
Definition hasCustomPrefix (bot : BotClient) (sub : Subscriber) : bool :=
  truthy (prefix sub)
  && negb (bool_decide (prefix sub = Some (defaultPrefix bot))).

Section PrefixCommand.

(** [Channel.isEqual], applied to the id of a record. *)
Variable isEqual : Channel -> string -> bool.

(** Modelled from the spec: [removeData] is not among the sources. It removes
    the channel's stored data, its subscriptions and its prefix override,
    that is every record of the channel in the bot's list, and returns
    whether there was one. *)
Definition removeData (bot : BotClient) (channel : Channel) (w : World)
    : bool * World :=
  match getSubscriberData w !! name bot with
  | Some channels =>
      if existsb (fun ch => isEqual channel (id ch)) channels then
        let channels :=
          List.filter (fun ch => negb (isEqual channel (id ch))) channels in
        (true, setSubscriberData (<[name bot := channels]> (getSubscriberData w)) w)
      else (false, w)
  | None => (false, w)
  end.

(** The handler of the prefix command. [newPrefixGroup] is the capture of
    the group [newPrefix]; [permissions] is what the query of the bot's own
    permissions on the channel settles to. The result is how the handler
    ended, the channel object and the state it left. *)
Definition prefixCmd (bot : BotClient) (permissions : outcome Permissions)
    (channel : Channel) (newPrefixGroup : option string) (w : World)
    : outcome unit * Channel * World :=
  let newPrefix := givenPrefix newPrefixGroup in
  (* Check if the user has provided a new prefix *)
  if String.eqb newPrefix EmptyString then
    let w :=
      sendMessage channel
        ("The prefix currently used on this channel is `"
         +:+ getPrefix bot channel +:+ "`." +:+ LF
         +:+ "Use `" +:+ getPrefix bot channel
         +:+ "prefix <new prefix>` to use an other prefix." +:+ LF
         +:+ "Use `" +:+ getPrefix bot channel
         +:+ "prefix reset` to reset the prefix to the default"
         +:+ "(`" +:+ defaultPrefix bot +:+ "`).") w in
    (Returned tt, channel, w)
  else
  (* Check if the user wants to reset the prefix *)
  let newPrefix :=
    if String.eqb newPrefix "reset" then defaultPrefix bot else newPrefix in
  (* Check if the bot can write to this channel *)
  match permissions with
  | Thrown error => (Thrown error, channel, w)
  | Returned permissions =>
  if negb (canWrite permissions) then
    let '(removed, w) := removeData bot channel w in
    let w :=
      if removed
      then effect_ (Logged "warn" "Can't write to channel, removing all data.") w
      else w in
    (Returned tt, channel, w)
  else
  let w :=
    sendMessage channel
      ("Changing the bot's prefix on this channel to `" +:+ newPrefix +:+ "`.")
      w in
  (* Save locally *)
  let channel := withPrefix newPrefix channel in
  (* Save in the JSON file *)
  let subscribers := getSubscriberData w in
  match subscribers !! name bot with
  | None =>
      (Thrown "TypeError: Cannot read property 'findIndex' of undefined",
       channel, w)
  | Some channels =>
  (* Check if the channel is already registered *)
  match findIndex (fun ch => isEqual channel (id ch)) channels with
  | Some existingChannelId =>
      match channels !! existingChannelId with
      | None => (Thrown "TypeError", channel, w)
      | Some existingChannel =>
          (* Update prefix *)
          let existingChannel :=
            setPrefix
              (Some (if negb (String.eqb newPrefix (defaultPrefix bot))
                     then newPrefix else EmptyString))
              existingChannel in
          (* Remove unnecessary entries *)
          if (length (gameSubs existingChannel) =? 0)
             && negb (truthy (prefix existingChannel))
          then
            let w := effect_ (Logged "debug" "Removing unnecessary channel entry...") w in
            let channels := splice1 existingChannelId channels in
            (* Save changes *)
            (Returned tt, channel,
             setSubscriberData (<[name bot := channels]> subscribers) w)
          else
            let channels := <[existingChannelId := existingChannel]> channels in
            (* Save changes *)
            (Returned tt, channel,
             setSubscriberData (<[name bot := channels]> subscribers) w)
      end
  | None =>
      (* Add channel with the new prefix *)
      let channels :=
        channels ++ [ {| gameSubs := []; id := channelId channel;
                         label := None; prefix := Some newPrefix;
                         disabled := None |} ] in
      (* Save the changes *)
      (Returned tt, channel,
       setSubscriberData (<[name bot := channels]> subscribers) w)
  end
  end
  end.

(** C6 as the specification states it, at one invocation of [prefix reset]:
    afterwards the channel's prefix is the bot's, and no record of the
    channel without subscriptions and without a custom prefix is left in the
    file. *)
Definition prefix_reset_claim_at (bot : BotClient)
    (permissions : outcome Permissions) (channel : Channel) (w : World) : Prop :=
  let '(_, channel', w') :=
    prefixCmd bot permissions channel (Some " reset") w in
  getPrefix bot channel' = defaultPrefix bot
  /\ forall channels' sub,
       subscriberData w' !! name bot = Some channels' ->
       In sub channels' -> isEqual channel' (id sub) = true ->
       gameSubs sub = [] -> hasCustomPrefix bot sub = true.

Lemma findIndexFrom_lookup {A} (p : A -> bool) (a : list A) :
  forall k i, findIndexFrom p a k = Some i ->
  exists x, a !! (i - k) = Some x /\ p x = true /\ k <= i.
Proof.
  induction a as [|y a IH]; cbn; intros k i H; [discriminate|].
  destruct (p y) eqn:Hp.
  - injection H as <-. exists y. rewrite Nat.sub_diag. auto.
  - apply IH in H as (x & Hx & Hpx & Hle). exists x.
    replace (i - k) with (S (i - S k)) by lia. cbn. repeat split; auto. lia.
Qed.

Lemma findIndex_lookup {A} (p : A -> bool) (a : list A) i :
  findIndex p a = Some i -> exists x, a !! i = Some x /\ p x = true.
Proof.
  intros H. apply findIndexFrom_lookup in H as (x & Hx & Hp & _).
  rewrite Nat.sub_0_r in Hx. eauto.
Qed.

Lemma filter_all {A} (f : A -> bool) (l : list A) :
  existsb (fun x => negb (f x)) l = false -> List.filter f l = l.
Proof.
  induction l as [|x l IH]; cbn; [reflexivity|]. intros H.
  apply orb_false_iff in H as [Hx H]. apply negb_false_iff in Hx.
  rewrite Hx, IH; auto.
Qed.

Lemma sentMessages_app es1 es2 :
  sentMessages (es1 ++ es2) = sentMessages es1 ++ sentMessages es2.
Proof. apply omap_app. Qed.

(** C10. When the bot's own permissions say it cannot write to the channel,
    the prefix command, given a new prefix, removes the channel's records
    from the file and returns: it sends nothing, it leaves the channel
    object and the records of every other channel and client as they were,
    and no record carries the new prefix. *)
Theorem prefixCmd_cannot_write (bot : BotClient) (channel : Channel)
    (newPrefixGroup : option string) (w : World) :
  givenPrefix newPrefixGroup <> EmptyString ->
  exists w',
    prefixCmd bot (Returned {| canWrite := false |}) channel newPrefixGroup w
    = (Returned tt, channel, w')
    /\ sentMessages (effects w') = sentMessages (effects w)
    /\ subscriberData w' !! name bot
       = List.filter (fun sub => negb (isEqual channel (id sub)))
           <$> subscriberData w !! name bot
    /\ forall other, other <> name bot ->
         subscriberData w' !! other = subscriberData w !! other.
Proof.
  intros Hgiven. unfold prefixCmd.
  apply String.eqb_neq in Hgiven. rewrite Hgiven. cbn [negb canWrite].
  unfold removeData, getSubscriberData.
  destruct (subscriberData w !! name bot) as [channels|] eqn:Hchannels.
  - destruct (existsb _ channels) eqn:Hex.
    + eexists. split; [reflexivity|]. cbn. split; [|split].
      * rewrite sentMessages_app. cbn. apply app_nil_r.
      * apply lookup_insert_eq.
      * intros other Hother. now apply lookup_insert_ne.
    + eexists. split; [reflexivity|]. split; [reflexivity|]. split.
      * rewrite Hchannels. cbn. f_equal. symmetry. apply filter_all.
        rewrite <- Hex. clear. induction channels as [|c cs IH]; cbn;
          [reflexivity|]. now rewrite negb_involutive, IH.
      * reflexivity.
  - eexists. split; [reflexivity|]. split; [reflexivity|]. split.
    + now rewrite Hchannels.
    + reflexivity.
Qed.

(** The branch for a registered channel. When the bot can write to the
    channel and the file holds a record of it, [prefix reset] sets the
    channel's prefix to the prefix the bot is configured with and clears the
    record's prefix override; the record is removed from the file if it holds
    no game subscriptions and kept, without its override, if it holds some. *)
Lemma prefixCmd_reset (bot : BotClient) (channel : Channel)
    (newPrefixGroup : option string) (w : World)
    (channels : list Subscriber) (i : nat) :
  givenPrefix newPrefixGroup = "reset" ->
  subscriberData w !! name bot = Some channels ->
  findIndex
    (fun sub => isEqual (withPrefix (defaultPrefix bot) channel) (id sub))
    channels = Some i ->
  exists existingChannel w',
    channels !! i = Some existingChannel
    /\ prefixCmd bot (Returned {| canWrite := true |}) channel newPrefixGroup w
       = (Returned tt, withPrefix (defaultPrefix bot) channel, w')
    /\ getPrefix bot (withPrefix (defaultPrefix bot) channel)
       = defaultPrefix bot
    /\ subscriberData w' !! name bot
       = Some (if length (gameSubs existingChannel) =? 0
               then splice1 i channels
               else <[i := setPrefix (Some EmptyString) existingChannel]> channels)
    /\ writes w' = S (writes w).
Proof.
  intros Hgiven Hchannels Hfind.
  destruct (findIndex_lookup _ _ _ Hfind) as (existingChannel & Hlookup & _).
  exists existingChannel. unfold prefixCmd. rewrite Hgiven.
  cbn [String.eqb Ascii.eqb Bool.eqb negb canWrite].
  unfold sendMessage, effect_, getSubscriberData. cbn [subscriberData].
  rewrite Hchannels, Hfind, Hlookup.
  rewrite String.eqb_refl. cbn [negb setPrefix gameSubs prefix truthy].
  cbn [String.eqb negb andb].
  rewrite andb_true_r.
  assert (getPrefix bot (withPrefix (defaultPrefix bot) channel)
          = defaultPrefix bot) as Hprefix.
  { unfold getPrefix. cbn. destruct (String.eqb _ EmptyString) eqn:E;
      [|reflexivity]. reflexivity. }
  destruct (length (gameSubs existingChannel) =? 0); eexists;
    (split; [reflexivity|]); (split; [reflexivity|]);
    (split; [exact Hprefix|]); cbn;
    (split; [apply lookup_insert_eq | reflexivity]).
Qed.

(** C6. [prefix reset] on a channel the bot can write to and that has no
    record in the file adds one. The branch for a channel that is not
    registered stores a record without game subscriptions whose prefix is
    the bot's own, which is no custom prefix, where the branch for a
    registered channel stores the empty prefix for the bot's own and removes
    a record without subscriptions. *)
Theorem prefixCmd_reset_adds_record (bot : BotClient) (channel : Channel)
    (newPrefixGroup : option string) (w : World) (channels : list Subscriber) :
  givenPrefix newPrefixGroup = "reset" ->
  subscriberData w !! name bot = Some channels ->
  findIndex
    (fun sub => isEqual (withPrefix (defaultPrefix bot) channel) (id sub))
    channels = None ->
  let added :=
    {| gameSubs := []; id := channelId channel; label := None;
       prefix := Some (defaultPrefix bot); disabled := None |} in
  exists w',
    prefixCmd bot (Returned {| canWrite := true |}) channel newPrefixGroup w
    = (Returned tt, withPrefix (defaultPrefix bot) channel, w')
    /\ subscriberData w' !! name bot = Some (channels ++ [added])
    /\ gameSubs added = []
    /\ hasCustomPrefix bot added = false
    /\ writes w' = S (writes w).
Proof.
  intros Hgiven Hchannels Hfind added. unfold prefixCmd. rewrite Hgiven.
  cbn [String.eqb Ascii.eqb Bool.eqb negb canWrite].
  unfold sendMessage, effect_, getSubscriberData. cbn [subscriberData].
  rewrite Hchannels, Hfind.
  eexists. split; [reflexivity|]. cbn.
  split; [apply lookup_insert_eq|]. split; [reflexivity|].
  split; [|reflexivity].
  unfold hasCustomPrefix, added. cbn [prefix].
  rewrite bool_decide_eq_true_2 by reflexivity. apply andb_false_r.
Qed.

(** *** What the prefix command leaves alone, and undoes *)

(** What the theorems below ask of [Channel.isEqual], whose class is not
    among the sources: it compares the id of the channel, so that the
    channel's prefix plays no part and a channel is equal to its own id. *)
Definition comparesIds : Prop :=
  (forall p channel recordId,
     isEqual (withPrefix p channel) recordId = isEqual channel recordId)
  /\ (forall channel, isEqual channel (channelId channel) = true).

Lemma filter_others_insert {A} (f : A -> bool) (l : list A) (i : nat) (x y : A) :
  l !! i = Some x -> f x = false -> f y = false ->
  List.filter f (<[i := y]> l) = List.filter f l.
Proof.
  revert i. induction l as [|z l IH]; intros [|i]; cbn; intros Hi Hx Hy;
    try discriminate.
  - injection Hi as ->. now rewrite Hx, Hy.
  - destruct (f z); [f_equal|]; now apply IH.
Qed.

Lemma filter_others_splice1 {A} (f : A -> bool) (l : list A) (i : nat) (x : A) :
  l !! i = Some x -> f x = false ->
  List.filter f (splice1 i l) = List.filter f l.
Proof.
  unfold splice1. revert i.
  induction l as [|z l IH]; intros [|i]; cbn; intros Hi Hx; try discriminate.
  - injection Hi as ->. now rewrite Hx.
  - rewrite (IH i) by assumption. reflexivity.
Qed.

(** When the bot can write to the channel, the prefix command changes, of
    the whole file, nothing but the record of the channel: the list of every
    other client and, in the list of its own client, every record of another
    channel are as they were and in the order they had. It writes the file at
    most once, sends at most one message and leaves the id of the channel
    alone. *)
Theorem prefixCmd_touches_one_record (bot : BotClient) (channel : Channel)
    (newPrefixGroup : option string) (w : World)
    (result : outcome unit) (channel' : Channel) (w' : World) :
  comparesIds ->
  prefixCmd bot (Returned {| canWrite := true |}) channel newPrefixGroup w
  = (result, channel', w') ->
  (forall other, other <> name bot ->
     subscriberData w' !! other = subscriberData w !! other)
  /\ List.filter (fun sub => negb (isEqual channel (id sub)))
       <$> subscriberData w' !! name bot
     = List.filter (fun sub => negb (isEqual channel (id sub)))
         <$> subscriberData w !! name bot
  /\ channelId channel' = channelId channel
  /\ writes w' <= S (writes w)
  /\ length (sentMessages (effects w'))
     <= S (length (sentMessages (effects w))).
Proof.
  intros [Hprefix Hself]. unfold prefixCmd.
  destruct (String.eqb (givenPrefix newPrefixGroup) EmptyString).
  { intros [= <- <- <-]. cbn. rewrite sentMessages_app, List.length_app. cbn.
    repeat split; auto; lia. }
  cbn [negb canWrite].
  set (newPrefix := if String.eqb _ "reset" then _ else _).
  unfold sendMessage, effect_, getSubscriberData. cbn [subscriberData].
  destruct (subscriberData w !! name bot) as [channels|] eqn:Hchannels.
  2:{ intros [= <- <- <-]. cbn. rewrite Hchannels, sentMessages_app, List.length_app.
      cbn. repeat split; auto; lia. }
  assert (forall data,
            (forall other, other <> name bot ->
               (<[name bot := data]> (subscriberData w)) !! other
               = subscriberData w !! other)) as Hother.
  { intros data other Hne. now apply lookup_insert_ne. }
  destruct (findIndex _ channels) as [i|] eqn:Hfind.
  - destruct (findIndex_lookup _ _ _ Hfind) as (existing & Hlookup & Hequal).
    rewrite Hlookup. rewrite Hprefix in Hequal.
    destruct (_ && _).
    + intros [= <- <- <-]. cbn.
      rewrite lookup_insert_eq, !sentMessages_app, !List.length_app. cbn.
      split; [apply Hother|]. split.
      { f_equal. apply (filter_others_splice1 _ _ _ existing Hlookup).
        now rewrite Hequal. }
      repeat split; auto; lia.
    + intros [= <- <- <-]. cbn.
      rewrite lookup_insert_eq, !sentMessages_app, !List.length_app. cbn.
      split; [apply Hother|]. split.
      { f_equal. apply (filter_others_insert _ _ _ existing); auto.
        - now rewrite Hequal.
        - cbn. now rewrite Hequal. }
      repeat split; auto; lia.
  - intros [= <- <- <-]. cbn.
    rewrite lookup_insert_eq, !sentMessages_app, !List.length_app. cbn.
    split; [apply Hother|]. split.
    { f_equal. rewrite List.filter_app. cbn. rewrite Hself. cbn.
      apply app_nil_r. }
    repeat split; auto; lia.
Qed.

Lemma others_unequal channel p channels :
  comparesIds ->
  existsb (fun sub => isEqual channel (id sub)) channels = false ->
  existsb (fun sub => isEqual (withPrefix p channel) (id sub)) channels = false.
Proof.
  intros [Hprefix _] <-. induction channels as [|c cs IH]; cbn; [reflexivity|].
  now rewrite IH, Hprefix.
Qed.

(** The record the command appends for a channel it finds none of. *)
Definition newRecord (channel : Channel) (newPrefix : string) : Subscriber :=
  {| gameSubs := []; id := channelId channel; label := None;
     prefix := Some newPrefix; disabled := None |}.

Lemma prefixCmd_appends bot channel newPrefixGroup w channels :
  comparesIds ->
  givenPrefix newPrefixGroup <> EmptyString ->
  givenPrefix newPrefixGroup <> "reset" ->
  subscriberData w !! name bot = Some channels ->
  existsb (fun sub => isEqual channel (id sub)) channels = false ->
  prefixCmd bot (Returned {| canWrite := true |}) channel newPrefixGroup w
  = (Returned tt, withPrefix (givenPrefix newPrefixGroup) channel,
     {| subscriberData :=
          <[name bot := channels
                        ++ [newRecord channel (givenPrefix newPrefixGroup)]]>
            (subscriberData w);
        writes := S (writes w);
        effects :=
          effects w
          ++ [Sent (channelId channel)
                ("Changing the bot's prefix on this channel to `"
                 +:+ givenPrefix newPrefixGroup +:+ "`.")] |}).
Proof.
  intros Hids Hgiven Hreset Hchannels Hnone.
  apply String.eqb_neq in Hgiven, Hreset.
  unfold prefixCmd. rewrite Hgiven, Hreset. cbn [negb canWrite].
  unfold sendMessage, effect_, getSubscriberData. cbn [subscriberData].
  rewrite Hchannels.
  unfold findIndex. rewrite findIndexFrom_none; [reflexivity|].
  now apply others_unequal.
Qed.

Lemma prefixCmd_removes_appended bot channel resetGroup w channels p :
  comparesIds ->
  givenPrefix resetGroup = "reset" ->
  subscriberData w !! name bot = Some (channels ++ [newRecord channel p]) ->
  existsb (fun sub => isEqual channel (id sub)) channels = false ->
  prefixCmd bot (Returned {| canWrite := true |}) channel resetGroup w
  = (Returned tt, withPrefix (defaultPrefix bot) channel,
     {| subscriberData := <[name bot := channels]> (subscriberData w);
        writes := S (writes w);
        effects :=
          (effects w
           ++ [Sent (channelId channel)
                 ("Changing the bot's prefix on this channel to `"
                  +:+ defaultPrefix bot +:+ "`.")])
          ++ [Logged "debug" "Removing unnecessary channel entry..."] |}).
Proof.
  intros Hids Hresetting Hchannels Hnone.
  unfold prefixCmd. rewrite Hresetting.
  cbn [String.eqb Ascii.eqb Bool.eqb negb canWrite].
  unfold sendMessage, effect_, getSubscriberData, setSubscriberData.
  cbn [subscriberData]. rewrite Hchannels.
  unfold findIndex. rewrite findIndexFrom_appended; cycle 1.
  { now apply others_unequal. }
  { destruct Hids as [Hprefix Hself]. cbn. rewrite Hprefix. apply Hself. }
  cbn [Nat.add].
  rewrite lookup_app_r by lia. rewrite Nat.sub_diag. cbn [lookup list_lookup].
  rewrite String.eqb_refl.
  cbn [negb setPrefix newRecord gameSubs prefix truthy length Nat.eqb
       String.eqb andb writes effects].
  now rewrite splice1_middle, app_nil_r.
Qed.

(** Setting a prefix and resetting it, on a channel the file holds no record
    of: the first call appends a record that holds nothing but the prefix,
    the second finds it, clears the prefix and removes the record, which has
    become unnecessary; the file has the content it had before, and the
    channel the prefix the bot is configured with. *)
Theorem prefixCmd_set_then_reset (bot : BotClient) (channel : Channel)
    (newPrefixGroup resetGroup : option string) (w : World)
    (channels : list Subscriber) :
  comparesIds ->
  givenPrefix newPrefixGroup <> EmptyString ->
  givenPrefix newPrefixGroup <> "reset" ->
  givenPrefix resetGroup = "reset" ->
  subscriberData w !! name bot = Some channels ->
  existsb (fun sub => isEqual channel (id sub)) channels = false ->
  let newPrefix := givenPrefix newPrefixGroup in
  exists w1 w2,
    prefixCmd bot (Returned {| canWrite := true |}) channel newPrefixGroup w
    = (Returned tt, withPrefix newPrefix channel, w1)
    /\ subscriberData w1 !! name bot
       = Some (channels ++ [newRecord channel newPrefix])
    /\ prefixCmd bot (Returned {| canWrite := true |})
         (withPrefix newPrefix channel) resetGroup w1
       = (Returned tt, withPrefix (defaultPrefix bot) channel, w2)
    /\ subscriberData w2 = subscriberData w
    /\ getPrefix bot (withPrefix (defaultPrefix bot) channel) = defaultPrefix bot
    /\ writes w2 = 2 + writes w.
Proof.
  intros Hids Hgiven Hreset Hresetting Hchannels Hnone. cbv zeta.
  eexists. eexists. split; [|split; [|split; [|split; [|split]]]].
  - apply (prefixCmd_appends bot channel newPrefixGroup w channels);
      assumption.
  - cbn. apply lookup_insert_eq.
  - apply (prefixCmd_removes_appended bot
             (withPrefix (givenPrefix newPrefixGroup) channel) resetGroup _
             channels (givenPrefix newPrefixGroup) Hids Hresetting).
    + cbn. apply lookup_insert_eq.
    + now apply others_unequal.
  - cbn. rewrite insert_insert_eq. now apply insert_id.
  - unfold getPrefix. cbn. now destruct (String.eqb _ EmptyString).
  - reflexivity.
Qed.

End PrefixCommand.

(** Channels compared by their id. *)
Definition sameId (channel : Channel) (recordId : string) : bool :=
  String.eqb (channelId channel) recordId.

Definition telegram : BotClient := {| name := "telegram"; defaultPrefix := "/" |}.

Definition record (subs : list string) (i : string) (p : option string)
    : Subscriber :=
  {| gameSubs := subs; id := i; label := None; prefix := p; disabled := None |}.

Definition fileOf (channels : list Subscriber) : World :=
  {| subscriberData := {[ "telegram" := channels ]}; writes := 0;
     effects := [] |}.

(** A channel without a record, after [prefix reset], has one without
    subscriptions and with the prefix of the bot: what C6 states of the
    invocation fails. *)
Lemma prefixCmd_reset_adds_record_witness :
  (exists w',
     prefixCmd sameId telegram (Returned {| canWrite := true |})
       {| channelId := "5"; channelPrefix := None |} (Some " reset") (fileOf [])
     = (Returned tt, {| channelId := "5"; channelPrefix := Some "/" |}, w')
     /\ subscriberData w' !! "telegram" = Some [record [] "5" (Some "/")])
  /\ ~ prefix_reset_claim_at sameId telegram (Returned {| canWrite := true |})
         {| channelId := "5"; channelPrefix := None |} (fileOf []).
Proof.
  destruct (prefixCmd_reset_adds_record sameId telegram
              {| channelId := "5"; channelPrefix := None |} (Some " reset")
              (fileOf []) [])
    as (w' & Hrun & Hdata & _); try (vm_compute; reflexivity).
  split.
  - exists w'. split; [exact Hrun | exact Hdata].
  - unfold prefix_reset_claim_at. rewrite Hrun. intros [_ H].
    assert (hasCustomPrefix telegram (record [] "5" (Some "/")) = true) as E.
    { apply (H [record [] "5" (Some "/")]); try reflexivity.
      - exact Hdata.
      - left. reflexivity. }
    vm_compute in E. discriminate E.
Defined.

Lemma prefixCmd_reset_witness :
  exists w',
    prefixCmd sameId telegram (Returned {| canWrite := true |})
      {| channelId := "5"; channelPrefix := Some "!" |} (Some " reset")
      (fileOf [record ["dota"] "4" None; record [] "5" (Some "!")])
    = (Returned tt, {| channelId := "5"; channelPrefix := Some "/" |}, w')
    /\ subscriberData w' !! "telegram" = Some [record ["dota"] "4" None].
Proof.
  destruct (prefixCmd_reset sameId telegram
              {| channelId := "5"; channelPrefix := Some "!" |} (Some " reset")
              (fileOf [record ["dota"] "4" None; record [] "5" (Some "!")])
              [record ["dota"] "4" None; record [] "5" (Some "!")] 1)
    as (existing & w' & Hlookup & Hrun & _ & Hdata & _);
    try (vm_compute; reflexivity).
  exists w'. split; [exact Hrun|].
  cbn in Hlookup. injection Hlookup as <-. exact Hdata.
Defined.

Lemma prefixCmd_cannot_write_witness :
  exists w',
    prefixCmd sameId telegram (Returned {| canWrite := false |})
      {| channelId := "5"; channelPrefix := Some "!" |} (Some " ?")
      (fileOf [record ["dota"] "4" None; record ["dota"] "5" (Some "!")])
    = (Returned tt, {| channelId := "5"; channelPrefix := Some "!" |}, w')
    /\ sentMessages (effects w') = []
    /\ subscriberData w' !! "telegram" = Some [record ["dota"] "4" None].
Proof.
  destruct (prefixCmd_cannot_write sameId telegram
              {| channelId := "5"; channelPrefix := Some "!" |} (Some " ?")
              (fileOf [record ["dota"] "4" None; record ["dota"] "5" (Some "!")]))
    as (w' & Hrun & Hsent & Hdata & _).
  - vm_compute. discriminate.
  - exists w'. split; [exact Hrun|]. split; [exact Hsent|]. exact Hdata.
Defined.

Lemma sameId_comparesIds : comparesIds sameId.
Proof. split; intros; [reflexivity | apply String.eqb_refl]. Qed.

Lemma prefixCmd_touches_one_record_witness :
  List.filter
    (fun sub => negb (sameId {| channelId := "5"; channelPrefix := None |} (id sub)))
    <$> subscriberData
          (snd (prefixCmd sameId telegram (Returned {| canWrite := true |})
                  {| channelId := "5"; channelPrefix := None |} (Some " !")
                  (fileOf [record ["dota"] "4" None; record ["dota"] "5" None;
                           record [] "6" (Some "?")])))
        !! "telegram"
  = Some [record ["dota"] "4" None; record [] "6" (Some "?")].
Proof.
  destruct (prefixCmd sameId telegram (Returned {| canWrite := true |})
              {| channelId := "5"; channelPrefix := None |} (Some " !")
              (fileOf [record ["dota"] "4" None; record ["dota"] "5" None;
                       record [] "6" (Some "?")]))
    as [[result channel'] w'] eqn:E.
  destruct (prefixCmd_touches_one_record sameId telegram _ _ _ _ _ _
              sameId_comparesIds E) as (_ & Hkept & _).
  cbn [snd]. etransitivity; [exact Hkept|]. vm_compute. reflexivity.
Defined.

Lemma prefixCmd_set_then_reset_witness :
  exists w1 w2,
    prefixCmd sameId telegram (Returned {| canWrite := true |})
      {| channelId := "5"; channelPrefix := None |} (Some " !")
      (fileOf [record ["dota"] "4" None])
    = (Returned tt, {| channelId := "5"; channelPrefix := Some "!" |}, w1)
    /\ subscriberData w1 !! "telegram"
       = Some [record ["dota"] "4" None; record [] "5" (Some "!")]
    /\ prefixCmd sameId telegram (Returned {| canWrite := true |})
         {| channelId := "5"; channelPrefix := Some "!" |} (Some " reset") w1
       = (Returned tt, {| channelId := "5"; channelPrefix := Some "/" |}, w2)
    /\ subscriberData w2 = subscriberData (fileOf [record ["dota"] "4" None])
    /\ writes w2 = 2.
Proof.
  destruct (prefixCmd_set_then_reset sameId telegram
              {| channelId := "5"; channelPrefix := None |} (Some " !")
              (Some " reset") (fileOf [record ["dota"] "4" None])
              [record ["dota"] "4" None] sameId_comparesIds)
    as (w1 & w2 & Hset & Hdata1 & Hreset & Hdata2 & _ & Hwrites);
    try (vm_compute; congruence).
  exists w1, w2. repeat split; assumption.
Defined.

(** *** The subscribe command *)

(** [s.split(sep)] for a separator that is not empty: [skip] code units of a
    separator just found are still to be passed over, [piece] is the piece
    being read. *)
Fixpoint splitFrom (sep s : list ascii) (skip : nat) (piece : list ascii)
    : list (list ascii) :=
  match s with
  | [] => [piece]
  | c :: s' =>
      match skip with
      | S skip' => splitFrom sep s' skip' piece
      | 0 =>
          match startsWith sep s with
          | Some _ => piece :: splitFrom sep s' (length sep - 1) []
          | None => splitFrom sep s' 0 (piece ++ [c])
          end
      end
  end.

Definition splitOn (sep s : string) : list string :=
  map string_of_list_ascii (splitFrom sep s 0 []).

Section SubscribeCommand.

(** The game class, the command group and the bot are not among the
    sources: the games an alias names, the join of a list in natural
    language, the label of a command on a channel and the subscription of a
    channel to a game, a promise on the state of the bot, are parameters.
    Games are objects: a [Set] tells them apart by identity. *)
Variable Game : Type.
Context `{EqDecision Game}.
Variable gameLabel : Game -> string.
Variable getGamesByAlias : string -> list Game.
Variable naturalJoin : list string -> string.
Variable tryFindCmdLabel : Action -> Channel -> string.
Variable BotState : Type.
Variable addSubscriber : Channel -> Game -> BotState -> outcome bool * BotState.

(** [[...new Set(a)]]: the first occurrence of every element, in order. *)
Fixpoint unique {A} `{EqDecision A} (a : list A) : list A :=
  match a with
  | [] => []
  | x :: a' => x :: List.filter (fun y => negb (bool_decide (y = x))) (unique a')
  end.

(** The loop over the aliases. *)
Definition sortAliases (aliases : list string) : list Game * list string :=
  fold_left
    (fun '(aliasGames, invalidAliases) alias =>
       let newGames := getGamesByAlias alias in
       if length newGames =? 0
       then (* We don't recognize that alias *)
            (aliasGames, invalidAliases ++ [alias])
       else (aliasGames ++ newGames, invalidAliases))
    aliases ([], []).

(** [mapAsync] over the games: every callback is started, in order, and
    the promise rejects with the first rejection. *)
Fixpoint subscribeAll (channel : Channel) (aliasGames : list Game)
    (st : BotState) : outcome (list (Game * bool)) * BotState :=
  match aliasGames with
  | [] => (Returned [], st)
  | game :: aliasGames' =>
      let '(isNew, st) := addSubscriber channel game st in
      let '(rest, st) := subscribeAll channel aliasGames' st in
      (match isNew, rest with
       | Thrown error, _ => Thrown error
       | Returned _, Thrown error => Thrown error
       | Returned isNew, Returned rest => Returned ((game, isNew) :: rest)
       end, st)
  end.

(** The handler of [subCmd]: [aliasGroup] is the capture of the group
    [alias]. The result is how the handler ended, the state of the bot and
    the replies, in order. *)
Definition subscribeHandler (channel : Channel) (aliasGroup : option string)
    (st : BotState) : outcome unit * BotState * list string :=
  let alias := givenPrefix aliasGroup in
  let replies :=
    if String.eqb alias EmptyString then
      ["You need to provide the name of the game you want to subscribe to."
       +:+ LF +:+ "Try `" +:+ tryFindCmdLabel subCmd channel +:+ "`."]
    else [] in
  let aliases := splitOn ", " alias in
  (* The games matching the alias *)
  let '(aliasGames, invalidAliases) := sortAliases aliases in
  (* Remove duplicates *)
  let aliasGames := unique aliasGames in
  let invalidAliases := unique invalidAliases in
  (* The map of which game is a new sub *)
  match subscribeAll channel aliasGames st with
  | (Thrown error, st) => (Thrown error, st, replies)
  | (Returned gameMap, st) =>
      let validSubs := map fst (List.filter (fun m => snd m) gameMap) in
      let invalidSubs := map fst (List.filter (fun m => negb (snd m)) gameMap) in
      let msg := EmptyString in
      (* Valid subscriptions *)
      let msg :=
        if 0 <? length validSubs
        then msg +:+ "You are now subscribed to "
             +:+ naturalJoin (map gameLabel validSubs) +:+ "."
        else msg in
      (* Already subscribed *)
      let msg :=
        if 0 <? length invalidSubs
        then msg +:+ LF +:+ "You have already subscribed to "
             +:+ naturalJoin (map gameLabel invalidSubs) +:+ "."
        else msg in
      (* Unknown aliases *)
      let msg :=
        if 0 <? length invalidAliases
        then msg +:+ LF +:+ "We don't know any game(s) with the alias(es) "
             +:+ naturalJoin (map (fun gameAlias => "'" +:+ gameAlias +:+ "'")
                                invalidAliases)
             +:+ "."
        else msg in
      (Returned tt, st, replies ++ [msg])
  end.

(** The subscribe command without a game name answers twice: after the hint
    that a name is needed the handler goes on, takes the empty name for an
    alias, finds no game by it and reports it as unknown. It subscribes the
    channel to nothing. *)
Theorem subscribeHandler_without_name (channel : Channel)
    (aliasGroup : option string) (st : BotState) :
  givenPrefix aliasGroup = EmptyString ->
  getGamesByAlias EmptyString = [] ->
  subscribeHandler channel aliasGroup st
  = (Returned tt, st,
     ["You need to provide the name of the game you want to subscribe to."
      +:+ LF +:+ "Try `" +:+ tryFindCmdLabel subCmd channel +:+ "`.";
      LF +:+ "We don't know any game(s) with the alias(es) "
      +:+ naturalJoin ["''"] +:+ "."]).
Proof.
  intros Hgiven Hnone. unfold subscribeHandler. rewrite Hgiven.
  cbn [String.eqb splitOn list_ascii_of_string splitFrom map
       string_of_list_ascii sortAliases fold_left].
  rewrite Hnone. reflexivity.
Qed.

End SubscribeCommand.

Lemma subscribeHandler_without_name_witness :
  subscribeHandler string (fun game => game)
    (fun alias => if String.eqb alias "dota" then ["dota"] else [])
    (String.concat ", ") (fun _ _ => "/subscribe <game name>") unit
    (fun _ _ st => (Returned true, st))
    {| channelId := "5"; channelPrefix := None |} (Some "  ") tt
  = (Returned tt, tt,
     ["You need to provide the name of the game you want to subscribe to."
      +:+ LF +:+ "Try `" +:+ "/subscribe <game name>" +:+ "`.";
      LF +:+ "We don't know any game(s) with the alias(es) "
      +:+ String.concat ", " ["''"] +:+ "."]).
Proof. apply subscribeHandler_without_name; reflexivity. Defined.

(** *** The roll command *)

(** [parseInt(s, 10)] on the decimal numerals the groups of the pattern
    capture, with or without a sign. A numeral of more than seven digits,
    with which a sum of dice may leave the integers a JavaScript number
    holds exactly, and any other string are left out. *)
Fixpoint digitsValue (digits : list ascii) (value : Z) : option Z :=
  match digits with
  | [] => Some value
  | d :: digits' =>
      if isDigit d
      then digitsValue digits' (10 * value + Z.of_nat (digitValue d))%Z
      else None
  end.

Definition numeral (digits : list ascii) : option Z :=
  match digits with
  | [] => None
  | _ => if length digits <=? 7 then digitsValue digits 0%Z else None
  end.

Definition parseInt (s : string) : option Z :=
  match list_ascii_of_string s with
  | "+"%char :: digits => numeral digits
  | "-"%char :: digits => Z.opp <$> numeral digits
  | digits => numeral digits
  end.

(** One roll: the dice thrown and the sum with the modifier. *)
Record Roll := {
  diceCount : Z;
  diceType : Z;
  modifier : Z;
  dice : list Z;
  sum : Z
}.

Section RollCommand.

(** [random i] is what [Math.floor(Math.random() * diceType)] is for the
    die of index [i]. *)
Variable random : nat -> Z.

(** The numbers of the handler of [rollCmd], from the captures of the groups
    [diceCountStr], [diceTypeStr] and [modifierStr]. *)
Definition rollOf (diceCountStr diceTypeStr modifierStr : option string)
    : option Roll :=
  diceCount ← (if truthy diceCountStr
               then parseInt (default EmptyString diceCountStr) else Some 1%Z);
  let diceCount := if (diceCount <=? 0)%Z then 1%Z else diceCount in
  (* dice type represents how many sides the die has *)
  diceType ← (if truthy diceTypeStr
              then parseInt (default EmptyString diceTypeStr) else Some 12%Z);
  let diceType := if (diceType <=? 1)%Z then 12%Z else diceType in
  modifier ← (if truthy modifierStr
              then parseInt (default EmptyString modifierStr) else Some 0%Z);
  let dice :=
    (* Throw a die *)
    map (fun i => (random i + 1)%Z) (seq 0 (Z.to_nat diceCount)) in
  let sum := fold_left Z.add dice 0%Z in
  let sum := if (modifier =? 0)%Z then sum else (sum + modifier)%Z in
  Some {| diceCount := diceCount; diceType := diceType; modifier := modifier;
          dice := dice; sum := sum |}.

(** The reply of the handler. *)
Definition replyOf (roll : Roll) (modifierStr : option string) : string :=
  let diceSum := fold_left Z.add (dice roll) 0%Z in
  let resultStrs :=
    map (fun dieResult =>
           (* Mark critical failure / success *)
           let isCrit := (dieResult =? 1)%Z || (dieResult =? diceType roll)%Z in
           if isCrit then "_" +:+ toString dieResult +:+ "_"
           else toString dieResult)
      (dice roll) in
  let resultStr :=
    if (diceCount roll =? 1)%Z then toString diceSum
    else String.concat " + " resultStrs +:+ " = **" +:+ toString diceSum +:+ "**" in
  let text :=
    "Rolling " +:+ toString (diceCount roll) +:+ " d" +:+ toString (diceType roll) in
  (* Add modifier *)
  let text :=
    if (modifier roll =? 0)%Z then text
    else text +:+ " with a modifier of " +:+ toString (modifier roll) in
  let resultStr :=
    if (modifier roll =? 0)%Z then resultStr
    else resultStr +:+ default "undefined" modifierStr +:+ " = **"
         +:+ toString (sum roll) +:+ "**" in
  (* Mark critical failure / success *)
  let isCriticalFailure := (diceCount roll =? 1)%Z && (sum roll =? 1)%Z in
  let isCriticalSuccess :=
    (diceCount roll =? 1)%Z && (sum roll =? diceType roll)%Z in
  let resultStr :=
    if isCriticalFailure then resultStr +:+ " _(critical failure)_"
    else if isCriticalSuccess then resultStr +:+ " _(critical success)_"
    else resultStr in
  text +:+ ":" +:+ LF +:+ resultStr.

Definition rollHandler (diceCountStr diceTypeStr modifierStr : option string)
    : option string :=
  roll ← rollOf diceCountStr diceTypeStr modifierStr;
  Some (replyOf roll modifierStr).

Lemma sum_of_dice (t : Z) (ds : list Z) :
  Forall (fun d => (1 <= d <= t)%Z) ds ->
  forall acc,
    (acc + Z.of_nat (length ds) <= fold_left Z.add ds acc
     <= acc + Z.of_nat (length ds) * t)%Z.
Proof.
  induction 1 as [|d ds Hd Hds IH]; intros acc; cbn [fold_left length].
  - lia.
  - specialize (IH (acc + d)%Z). nia.
Qed.

(** Whatever numerals of at most seven digits the command was given, at
    least one die with at least two sides is thrown: no dice and a negative
    number of dice make one die, a die of no side or one side makes a die of
    twelve. Every die shows a number from one to the number of its sides,
    and the sum reported lies between the number of dice and the number of
    dice times the sides, plus the modifier. Asked of the random numbers:
    each of them, times the sides and rounded down, is at least zero and
    less than the sides. *)
Theorem rollOf_in_range (diceCountStr diceTypeStr modifierStr : option string)
    (roll : Roll) :
  rollOf diceCountStr diceTypeStr modifierStr = Some roll ->
  (forall i, 0 <= random i < diceType roll)%Z ->
  (1 <= diceCount roll)%Z
  /\ (2 <= diceType roll)%Z
  /\ Z.of_nat (length (dice roll)) = diceCount roll
  /\ Forall (fun d => (1 <= d <= diceType roll)%Z) (dice roll)
  /\ (diceCount roll + modifier roll <= sum roll
      <= diceCount roll * diceType roll + modifier roll)%Z.
Proof.
  unfold rollOf. intros Hroll Hrandom.
  destruct (if truthy diceCountStr then _ else _) as [n|]; [|discriminate].
  destruct (if truthy diceTypeStr then _ else _) as [t|]; [|discriminate].
  destruct (if truthy modifierStr then _ else _) as [m|]; [|discriminate].
  cbn [mbind option_bind] in Hroll. injection Hroll as <-.
  cbn [diceCount diceType modifier dice sum] in *.
  set (n' := if (n <=? 0)%Z then 1%Z else n) in *.
  set (t' := if (t <=? 1)%Z then 12%Z else t) in *.
  assert (1 <= n')%Z as Hn by (subst n'; destruct (Z.leb_spec n 0); lia).
  assert (2 <= t')%Z as Ht by (subst t'; destruct (Z.leb_spec t 1); lia).
  assert (Forall (fun d => (1 <= d <= t')%Z)
            (map (fun i => (random i + 1)%Z) (seq 0 (Z.to_nat n')))) as Hdice.
  { apply List.Forall_forall. intros d (i & <- & _)%in_map_iff.
    specialize (Hrandom i). lia. }
  assert (Z.of_nat (length (map (fun i => (random i + 1)%Z)
                              (seq 0 (Z.to_nat n')))) = n') as Hlength.
  { rewrite length_map, length_seq. lia. }
  pose proof (sum_of_dice t' _ Hdice 0%Z) as Hsum. rewrite Hlength in Hsum.
  repeat split; auto; destruct (Z.eqb_spec m 0); lia.
Qed.

End RollCommand.

Lemma rollOf_in_range_witness :
  (1 <= 1)%Z /\ (2 <= 12)%Z
  /\ Z.of_nat (length [4%Z]) = 1%Z
  /\ Forall (fun d => (1 <= d <= 12)%Z) [4%Z]
  /\ (1 + -2 <= 2 <= 1 * 12 + -2)%Z.
Proof.
  apply (rollOf_in_range (fun _ => 3%Z) (Some "0") (Some "1") (Some "-2")
           {| diceCount := 1; diceType := 12; modifier := -2; dice := [4%Z];
              sum := 2 |}).
  - reflexivity.
  - intros i. cbn. lia.
Defined.

(** *** The patterns of the commands without a label *)

(** The pattern [aboutCmd] is made with. *)
Definition aboutPattern : regex := literal "^\s*(about)|(info)\s*$".

(** The pattern [settingsCmd] is made with. *)
Definition settingsPattern : regex :=
  literal "^\s*(settings)|(options)|(config)\s*$".

Lemma aboutPattern_read :
  aboutPattern
  = Alt (Seq Bol (Seq spaces (Group 1 EmptyString (literalOf "about"))))
        (Seq (Group 2 EmptyString (literalOf "info")) (Seq spaces Eol)).
Proof. vm_compute. reflexivity. Qed.

Lemma settingsPattern_read :
  settingsPattern
  = Alt (Seq Bol (Seq spaces (Group 1 EmptyString (literalOf "settings"))))
        (Alt (Group 2 EmptyString (literalOf "options"))
             (Seq (Group 3 EmptyString (literalOf "config")) (Seq spaces Eol))).
Proof. vm_compute. reflexivity. Qed.

(** A text that begins, after white space, with [word]. *)
Definition beginsWith (word text : list ascii) : Prop :=
  exists w tail, allSpace w /\ text = w ++ word ++ tail.

(** A text that ends, before white space, with [word]. *)
Definition endsWith (word text : list ascii) : Prop :=
  exists front w, allSpace w /\ text = front ++ word ++ w.

(** A text that holds [word]. *)
Definition holds (word text : list ascii) : Prop :=
  exists front tail, text = front ++ word ++ tail.

Lemma skipn_front {A} (front tail : list A) :
  skipn (length front) (front ++ tail) = tail.
Proof. induction front as [|x front IH]; cbn; auto. Qed.

Lemma anchored_word word s :
  (exists i y, i <= length s
     /\ matchesAt (Seq Bol (Seq spaces (Group 1 EmptyString (literalOf word))))
          (i, skipn i s) y)
  <-> beginsWith word s.
Proof.
  cbn [matchesAt]. split.
  - intros (i & y & _ & x0 & [-> Hbol] & x1 & Hw & Hword).
    cbn in Hbol. subst i.
    apply matchesAt_spaces in Hw as (w & Hw & Hs & _).
    apply matchesAt_literal in Hword as [Hword _].
    change (s = w ++ snd x1) in Hs.
    exists w, (snd y). split; [exact Hw|]. now rewrite Hs, Hword.
  - intros (w & tail & Hw & ->).
    exists 0, (0 + length w + length word, tail). split; [lia|].
    exists (0, w ++ word ++ tail). split; [now split|].
    exists (0 + length w, word ++ tail). split.
    + apply matchesAt_spaces. exists w. split; [exact Hw|]. now split.
    + apply matchesAt_literal. now split.
Qed.

Lemma word_at_end n word s :
  (exists i y, i <= length s
     /\ matchesAt (Seq (Group n EmptyString (literalOf word)) (Seq spaces Eol))
          (i, skipn i s) y)
  <-> endsWith word s.
Proof.
  cbn [matchesAt]. split.
  - intros (i & y & _ & x1 & Hword & x2 & Hw & -> & Hend).
    apply matchesAt_literal in Hword as [Hword _].
    apply matchesAt_spaces in Hw as (w & Hw & Hs & _).
    cbn in Hword. rewrite Hs, Hend, app_nil_r in Hword.
    exists (firstn i s), w. split; [exact Hw|].
    now rewrite <- Hword, firstn_skipn.
  - intros (front & w & Hw & ->).
    exists (length front), (length front + length word + length w, []).
    split; [rewrite List.length_app; lia|].
    rewrite skipn_front.
    exists (length front + length word, w). split.
    + apply matchesAt_literal. split; [reflexivity|]. reflexivity.
    + exists (length front + length word + length w, []). split.
      * apply matchesAt_spaces. exists w. split; [exact Hw|].
        split; [now rewrite app_nil_r | reflexivity].
      * now split.
Qed.

Lemma word_anywhere n word s :
  (exists i y, i <= length s
     /\ matchesAt (Group n EmptyString (literalOf word)) (i, skipn i s) y)
  <-> holds word s.
Proof.
  cbn [matchesAt]. split.
  - intros (i & y & _ & Hword).
    apply matchesAt_literal in Hword as [Hword _]. cbn in Hword.
    exists (firstn i s), (snd y). now rewrite <- Hword, firstn_skipn.
  - intros (front & tail & ->).
    exists (length front), (length front + length word, tail).
    split; [rewrite List.length_app; lia|].
    rewrite skipn_front. apply matchesAt_literal. now split.
Qed.

(** In the pattern of [aboutCmd] the alternation binds weaker than the
    anchors: the pattern finds a match in every text that begins, after
    white space, with [about], whatever follows, and in every text that
    ends, before white space, with [info], whatever goes before, and in no
    other text. *)
Theorem aboutPattern_matches (text : list ascii) :
  test aboutPattern text = true
  <-> beginsWith "about" text \/ endsWith "info" text.
Proof.
  rewrite aboutPattern_read, test_true.
  rewrite <- anchored_word, <- (word_at_end 2).
  cbn [matchesAt]. split.
  - intros (i & y & Hi & [H|H]); [left | right]; exists i, y; auto.
  - intros [(i & y & Hi & H)|(i & y & Hi & H)]; exists i, y; auto.
Qed.

(** In the pattern of [settingsCmd] only the first alternative is anchored
    at the start and only the last at the end: the pattern finds a match in
    every text that begins, after white space, with [settings], in every
    text that holds [options] anywhere, and in every text that ends, before
    white space, with [config], and in no other text. *)
Theorem settingsPattern_matches (text : list ascii) :
  test settingsPattern text = true
  <-> beginsWith "settings" text \/ holds "options" text
      \/ endsWith "config" text.
Proof.
  rewrite settingsPattern_read, test_true.
  rewrite <- anchored_word, <- (word_anywhere 2), <- (word_at_end 3).
  cbn [matchesAt]. split.
  - intros (i & y & Hi & [H|[H|H]]);
      [left | right; left | right; right]; exists i, y; auto.
  - intros [(i & y & Hi & H)|[(i & y & Hi & H)|(i & y & Hi & H)]];
      exists i, y; auto.
Qed.

End Commands.

(** ** The handlers of the standard commands ([commands] of [util.ts]) *)

Module StandardCommands.

Import BotClient.

Section Handlers.

(** The channel class and the game class are not among the sources: what
    the handlers ask of a channel, how a channel is stored and compared, the
    games and which alias names which game are parameters. *)
Variable BotChannel : Type.
Variable Subscriber : Type.
Variable isEqual : BotChannel -> Subscriber -> bool.
Variable toJSON : BotChannel -> Subscriber.
Variable getPrefix : BotChannel -> string.
Variable games : list Game.
Variable hasAlias : Game -> string -> bool.

(** What a handler leaves: the state of the subscriber file and the texts it
    sent to the channel, in order. A TypeError of [addSubscriber] or
    [removeSubscriber], which the handler does not catch, is [None]. *)
Definition Handled : Type := option (Disk Subscriber * list string).

(** The loop over the games of the Subscribe handler. *)
Fixpoint subscribeLoop (name : string) (channel : BotChannel) (alias : string)
    (games : list Game) (d : Disk Subscriber) (sent : list string) : Handled :=
  match games with
  | [] => Some (d, sent)
  | game :: games' =>
      if hasAlias game alias then
        match addSubscriber BotChannel Subscriber isEqual toJSON name channel
                game d with
        | None => None
        | Some (isNew, d) =>
            subscribeLoop name channel alias games' d
              (sent ++ [if isNew : bool
                        then "You are now subscribed to the **"
                             +:+ game_label game +:+ "** feed!"
                        else "You have already subscribed to the **"
                             +:+ game_label game +:+ "** feed!"])
        end
      else subscribeLoop name channel alias games' d sent
  end.

(** The handler of Subscribe: [aliasGroup] is the capture of the group
    [alias]. After the hint for a missing name the handler goes on. *)
Definition subscribe (name : string) (channel : BotChannel)
    (aliasGroup : string) (d : Disk Subscriber) : Handled :=
  let alias := trim aliasGroup in
  let sent :=
    if String.eqb alias EmptyString then
      ["You need to provide the name of the game you want to subscribe to."
       +:+ LF +:+ "Try `" +:+ getPrefix channel +:+ "subscribe <game name>`."]
    else [] in
  subscribeLoop name channel alias games d sent.

Fixpoint unsubscribeLoop (name : string) (channel : BotChannel) (alias : string)
    (games : list Game) (d : Disk Subscriber) (sent : list string) : Handled :=
  match games with
  | [] => Some (d, sent)
  | game :: games' =>
      if hasAlias game alias then
        match removeSubscriber BotChannel Subscriber isEqual name channel game
                d with
        | None => None
        | Some (wasSubscribed, d) =>
            unsubscribeLoop name channel alias games' d
              (sent ++ [if wasSubscribed : bool
                        then "You are now unsubscribed from the **"
                             +:+ game_label game +:+ "** feed!"
                        else "You have never subscribed to the **"
                             +:+ game_label game
                             +:+ "** feed in the first place!"])
        end
      else unsubscribeLoop name channel alias games' d sent
  end.

(** The handler of Unsubscribe. *)
Definition unsubscribe (name : string) (channel : BotChannel)
    (aliasGroup : string) (d : Disk Subscriber) : Handled :=
  let alias := trim aliasGroup in
  let sent :=
    if String.eqb alias EmptyString then
      ["You need to provide the name of the game you want to unsubscribe from."
       +:+ LF +:+ "Try `" +:+ getPrefix channel +:+ "unsubscribe <game name>`."]
    else [] in
  unsubscribeLoop name channel alias games d sent.

Lemma subscribeLoop_unknown name channel alias d :
  forall gs sent,
    (forall game, In game gs -> hasAlias game alias = false) ->
    subscribeLoop name channel alias gs d sent = Some (d, sent).
Proof.
  induction gs as [|game gs IH]; intros sent Hunknown; cbn; [reflexivity|].
  rewrite Hunknown by now left. apply IH. intros g Hg. apply Hunknown. now right.
Qed.

Lemma unsubscribeLoop_unknown name channel alias d :
  forall gs sent,
    (forall game, In game gs -> hasAlias game alias = false) ->
    unsubscribeLoop name channel alias gs d sent = Some (d, sent).
Proof.
  induction gs as [|game gs IH]; intros sent Hunknown; cbn; [reflexivity|].
  rewrite Hunknown by now left. apply IH. intros g Hg. apply Hunknown. now right.
Qed.

(** A name that is the alias of no game is passed over in silence: the
    handlers of Subscribe and Unsubscribe send no reply, neither that the
    game is unknown nor any other, and leave the file as it is. *)
Theorem unknown_game_is_passed_over (name : string) (channel : BotChannel)
    (aliasGroup : string) (d : Disk Subscriber) :
  trim aliasGroup <> EmptyString ->
  (forall game, In game games -> hasAlias game (trim aliasGroup) = false) ->
  subscribe name channel aliasGroup d = Some (d, [])
  /\ unsubscribe name channel aliasGroup d = Some (d, []).
Proof.
  intros Hgiven Hunknown. apply String.eqb_neq in Hgiven.
  unfold subscribe, unsubscribe. rewrite Hgiven.
  split; [now apply subscribeLoop_unknown | now apply unsubscribeLoop_unknown].
Qed.

End Handlers.

(** The games of a bot, named by their alias in lower case. *)
Definition twoGames : list Game :=
  [dota; {| game_name := "artifact"; game_label := "Artifact" |}].

Lemma unknown_game_is_passed_over_witness :
  subscribe string string String.eqb id (fun _ => "/") twoGames
    (fun game alias => String.eqb (game_name game) alias)
    "telegram" "222" " underlords" oneSubscriber
  = Some (oneSubscriber, [])
  /\ unsubscribe string string String.eqb (fun _ => "/") twoGames
       (fun game alias => String.eqb (game_name game) alias)
       "telegram" "222" " underlords" oneSubscriber
     = Some (oneSubscriber, []).
Proof.
  apply unknown_game_is_passed_over.
  - vm_compute. discriminate.
  - intros game [<-|[<-|[]]]; vm_compute; reflexivity.
Defined.

End StandardCommands.

(** ** The Discord client ([bot_discord.ts]) *)

Module Discord.

(** [DiscordBot.msgFromMarkdown]. *)
Definition msgFromMarkdown (markdown : list ascii) (isEmbed : bool)
    : list ascii :=
  let markdown :=
    if negb isEmbed then
      (* Short links are not supported outside of embeds *)
      replace (literal "\[(.*)\]\((.*)\)") "$1 ($2)" markdown
    else markdown in
  (* Linewise formatting *)
  let lineArray := split Telegram.nl markdown in
  let lineArray :=
    (* Lists *)
    map (fun line => replace (literal "^\s*\*\s+") "- " line) lineArray in
  fold_left (fun newMarkdown line => newMarkdown ++ line ++ [Telegram.nl])
    lineArray [].

(** Both patterns of the conversion are read whole by the parser. *)
Lemma discordPatterns_compile :
  is_Some (compile "\[(.*)\]\((.*)\)") /\ is_Some (compile "^\s*\*\s+").
Proof. split; vm_compute; eauto. Qed.

(** A text without an asterisk, and without an opening bracket when it is
    not for an embed, comes back as it is, line breaks included, followed by
    one more line break: the empty text comes back as a line break. *)
Theorem msgFromMarkdown_keeps_plain_text (markdown : list ascii)
    (isEmbed : bool) :
  isEmbed = true \/ ~ In "["%char markdown ->
  ~ In "*"%char markdown ->
  msgFromMarkdown markdown isEmbed = markdown ++ [Telegram.nl].
Proof.
  intros Hlink Hlist. unfold msgFromMarkdown.
  assert ((if negb isEmbed
           then replace (literal "\[(.*)\]\((.*)\)") "$1 ($2)" markdown
           else markdown) = markdown) as ->.
  { destruct isEmbed; [reflexivity|]. destruct Hlink as [|Hlink]; [discriminate|].
    cbn [negb]. apply (replace_absent "["%char).
    rewrite (occ_absent _ _ Hlink). vm_compute. lia. }
  rewrite fold_left_lines. cbn [app].
  rewrite <- (split_lines Telegram.nl markdown).
  f_equal. f_equal. rewrite <- (map_id (split Telegram.nl markdown)) at 2.
  apply map_ext_in. intros line Hline.
  apply (replace_absent "*"%char). rewrite occ_absent; [vm_compute; lia|].
  intros Hin. apply Hlist. now apply (split_In _ _ _ Hline).
Qed.

Lemma msgFromMarkdown_keeps_plain_text_witness :
  msgFromMarkdown "Patch 7.22 is out." false
  = "Patch 7.22 is out." ++ [Telegram.nl].
Proof.
  apply msgFromMarkdown_keeps_plain_text.
  - right. vm_compute. intuition discriminate.
  - vm_compute. intuition discriminate.
Defined.

End Discord.

(** ** The project manager ([project_manager.ts]) *)

Module ProjectManager.

(** What [FileManager.parseFile] reads of [package.json]. *)
Record project_info := {
  name : string;
  version : string;
  description : string;
  author : string;
  license : string;
  homepage : string
}.

Section Project.

(** The file manager is not among the sources: the parsed [package.json] is
    a parameter. *)
Variable packageJson : project_info.

Definition getProjectInfo : project_info := packageJson.

Definition getVersionNumber : string := version getProjectInfo.

Definition getURL : string := homepage getProjectInfo.

(** Gets the identifier of this project. *)
Definition getIdentifier : list ascii :=
  (* Remove https prefix *)
  replace (literal "^https:\/\/") [] getURL.

(** [process.env.NODE_ENV || 'dev']. *)
Definition getEnvironment (NODE_ENV : option string) : string :=
  match NODE_ENV with
  | Some env => if String.eqb env EmptyString then "dev" else env
  | None => "dev"
  end.

End Project.

(** A URL without the scheme [https://] it begins with, or the URL itself
    when it begins with something else. *)
Definition withoutScheme (url : list ascii) : list ascii :=
  default url (startsWith "https://" url).

Lemma schemePattern : literal "^https:\/\/" = Seq Bol (literalOf "https://").
Proof. vm_compute. reflexivity. Qed.

(** [getIdentifier] removes the scheme [https://] from the front of the
    project's URL, once, and returns every other URL as it is: a scheme
    further in, or another scheme, stays. *)
Theorem getIdentifier_strips_scheme (packageJson : project_info) :
  getIdentifier packageJson = withoutScheme (homepage packageJson).
Proof.
  unfold getIdentifier, getURL, getProjectInfo, withoutScheme, replace.
  rewrite schemePattern, exec_anchored, run_literalOf. cbn [rest].
  generalize (list_ascii_of_string (homepage packageJson)). intros url.
  destruct (startsWith "https://" url) as [tl|] eqn:Hstarts; [|reflexivity].
  apply startsWith_app in Hstarts as ->. reflexivity.
Qed.

End ProjectManager.

(** ** The Reddit provider ([Reddit]) *)

Module Reddit.

(** The reddit section of the API config. A string the file leaves out is
    undefined. *)
Record reddit_config := {
  enabled : bool;
  clientId : option string;
  clientSecret : option string;
  refreshToken : option string;
  userName : option string
}.

(** What the provider reads of a submission. *)
Record Submission := {
  created_utc : Z;
  subreddit_name_prefixed : string;
  title : string;
  url : string;
  selftext : string
}.

Record RedditUserProvider := {
  name : string;
  titleFilter : regex
}.

(** The client [new Snoowrap] makes: the options it was made with and, of
    its requests, the submissions of a user, a promise that resolves or
    rejects. *)
Record Snoowrap := {
  client_id : string;
  client_secret : string;
  refresh_token : string;
  userAgent : string;
  getSubmissions : string -> outcome (list Submission)
}.

(** The variables of the module and what its logger was given. *)
Record State := {
  reddit : option Snoowrap;
  isInit : bool;
  isEnabled : bool;
  logged : list effect
}.

(** The module as it is loaded. *)
Definition loaded : State :=
  {| reddit := None; isInit := false; isEnabled := true; logged := [] |}.

Definition log (level msg : string) (st : State) : State :=
  {| reddit := reddit st; isInit := isInit st; isEnabled := isEnabled st;
     logged := logged st ++ [Logged level msg] |}.

Definition disable (st : State) : State :=
  {| reddit := reddit st; isInit := true; isEnabled := false;
     logged := logged st |}.

Definition truthy := Commands.truthy.

Section Provider.

(** What the project manager returns and what Reddit answers are parameters
    of the module. *)
Variable environment identifier versionNumber : string.
Variable submissionsOf : string -> outcome (list Submission).

Definition init (redditConfig : reddit_config) (st : State) : State :=
  if isInit st then st else
  let st := log "debug" "Initializing Reddit API..." st in
  if negb (enabled redditConfig) then
    log "debug" "Autostart disabled." (disable st)
  else
  (* Check for parameters *)
  let missingParams :=
    (if negb (truthy (clientId redditConfig)) then ["clientId"] else [])
    ++ (if negb (truthy (clientSecret redditConfig)) then ["clientSecret"] else [])
    ++ (if negb (truthy (refreshToken redditConfig)) then ["refreshToken"] else [])
    ++ (if negb (truthy (userName redditConfig)) then ["userName"] else []) in
  if 0 <? length missingParams then
    disable
      (log "warn"
         ("Missing parameters in 'api_config.json': "
          +:+ String.concat ", " missingParams
          +:+ LF +:+ "  Disabling reddit updates.") st)
  else
  let userAgent :=
    "discord/telegram(" +:+ environment +:+ "):" +:+ identifier +:+ ":v"
    +:+ versionNumber +:+ " (by /u/" +:+ default "undefined" (userName redditConfig)
    +:+ ")" in
  let st :=
    {| reddit :=
         Some {| client_id := default EmptyString (clientId redditConfig);
                 client_secret := default EmptyString (clientSecret redditConfig);
                 refresh_token := default EmptyString (refreshToken redditConfig);
                 userAgent := userAgent;
                 getSubmissions := submissionsOf |};
       isInit := isInit st; isEnabled := isEnabled st; logged := logged st |} in
  let st :=
    log "info"
      ("Initialization successful with userAgent '" +:+ userAgent +:+ "'.") st in
  {| reddit := reddit st; isInit := true; isEnabled := isEnabled st;
     logged := logged st |}.

(** *** The filters of a submission *)

(** Checks if the submission is new. A comparison with an undefined date is
    false. *)
Definition isNew (submission : Submission) (date : option Z) : bool :=
  match date with
  | Some date => (date <? created_utc submission * 1000)%Z
  | None => false
  end.

(** Checks if the subreddit is correct. *)
Definition isCorrectSub (submission : Submission) (subreddit : string) : bool :=
  String.eqb (subreddit_name_prefixed submission) ("r/" +:+ subreddit).

(** Checks the title to determine if the post is an update. *)
Definition isValidTitle (submission : Submission) (user : RedditUserProvider)
    : bool :=
  test (titleFilter user) (title submission).

(** Checks if the url is already covered by other providers: every filter is
    compiled and tested, also after one has matched. *)
Fixpoint isNewSourceFrom (isNewSource : bool) (submission : Submission)
    (urlFilters : list string) : outcome bool :=
  match urlFilters with
  | [] => Returned isNewSource
  | filter :: urlFilters' =>
      match Telegram.newRegExp filter with
      | Thrown error => Thrown error
      | Returned reg =>
          let alreadyCovered := test reg (url submission) in
          isNewSourceFrom (if alreadyCovered then false else isNewSource)
            submission urlFilters'
      end
  end.

Definition isNewSource (submission : Submission) (urlFilters : list string)
    : outcome bool :=
  isNewSourceFrom true submission urlFilters.

(** Checks if the post has been deleted. *)
Definition isDeleted (submission : Submission) : bool :=
  test (literal "^\[removed\]$") (selftext submission).

(** Determines if the submission is valid: the conjunction stops at its
    first false operand. *)
Definition isValidSubmission (submission : Submission) (subreddit : string)
    (user : RedditUserProvider) (date : option Z) (urlFilters : list string)
    : outcome bool :=
  if negb (isNew submission date) then Returned false else
  if negb (isCorrectSub submission subreddit) then Returned false else
  if negb (isValidTitle submission user) then Returned false else
  match isNewSource submission urlFilters with
  | Thrown error => Thrown error
  | Returned false => Returned false
  | Returned true => Returned (negb (isDeleted submission))
  end.

(** Both replacements are computed and dropped: the text is returned. *)
Definition mdFromReddit (text : list ascii) : list ascii :=
  let fulltext : list ascii := [] in
  (* User links *)
  let fulltext :=
    replace (literal "\/u\/([a-zA-Z0-9]+)") "[/u/$1](https://reddit.com/user/$1)"
      text in
  (* Subreddit links *)
  let fulltext :=
    replace (literal "\/r\/([a-zA-Z0-9]+)") "[/r/$1](https://reddit.com/r/$1)"
      text in
  text.

(** *** Notifications *)

(** The notification class is not among the sources: a notification is the
    record of what its builders were given. *)
Record Notification := {
  timestamp : Z;
  notification_title : string * string;
  content : list ascii;
  notification_author : string * string * string;
  game : string
}.

(** Convert the post into a notification. *)
Definition notificationOf (post : Submission) (user : RedditUserProvider)
    (game : string) : Notification :=
  {| timestamp := (created_utc post * 1000)%Z;
     notification_title := (title post, url post);
     content := mdFromReddit (selftext post);
     notification_author :=
       ("/u/" +:+ name user, "https://www.reddit.com/user/" +:+ name user,
        "https://www.redditstatic.com/new-icon.png");
     game := game |}.

(** [allPosts.filter(...)] with a callback that may throw. *)
Fixpoint filterValid (allPosts : list Submission) (subreddit : string)
    (user : RedditUserProvider) (date : option Z) (urlFilters : list string)
    : outcome (list Submission) :=
  match allPosts with
  | [] => Returned []
  | submission :: allPosts' =>
      match isValidSubmission submission subreddit user date urlFilters with
      | Thrown error => Thrown error
      | Returned keep =>
          match filterValid allPosts' subreddit user date urlFilters with
          | Thrown error => Thrown error
          | Returned posts =>
              Returned (if keep then submission :: posts else posts)
          end
      end
  end.

(** [sortLimitEnd] is not among the sources. *)
Variable sortLimitEnd : list Notification -> option nat -> list Notification.

(** The body of the loop over the users, for one user. *)
Definition notificationsOfUser (st : State) (subreddit : string)
    (user : RedditUserProvider) (urlFilters : list string) (game : string)
    (date : option Z) (acc : list Notification * list effect)
    : list Notification * list effect :=
  let '(notifications, logged) := acc in
  (* Get all new submissions in the given subreddit *)
  let logged :=
    logged ++ [Logged "debug" ("Getting posts from /u/" +:+ name user +:+ " on /r/"
                               +:+ subreddit +:+ "...")] in
  let failed error :=
    (notifications,
     logged ++ [Logged "error" ("Failed to get notification from Reddit:"
                                +:+ LF +:+ error)]) in
  match reddit st with
  | None => failed "TypeError: Cannot read property 'getUser' of undefined"
  | Some client =>
      match getSubmissions client (name user) with
      | Thrown error => failed error
      | Returned allPosts =>
          match filterValid allPosts subreddit user date urlFilters with
          | Thrown error => failed error
          | Returned posts =>
              (notifications
               ++ map (fun post => notificationOf post user game) posts,
               logged)
          end
      end
  end.

Definition getNotifications (st : State) (subreddit : string)
    (users : list RedditUserProvider) (urlFilters : list string)
    (game : string) (date : option Z) (limit : option nat)
    : list Notification * list effect :=
  if negb (isInit st) || negb (isEnabled st) then ([], logged st) else
  let '(notifications, logged) :=
    fold_left
      (fun acc user =>
         notificationsOfUser st subreddit user urlFilters game date acc)
      users ([], logged st) in
  (* Limit the length *)
  (sortLimitEnd notifications limit, logged).

(** *** Initialisation *)

Ltac init_cases redditConfig :=
  unfold init, log, disable; cbn;
  destruct (enabled redditConfig); cbn;
  [ destruct (truthy (clientId redditConfig)),
      (truthy (clientSecret redditConfig)),
      (truthy (refreshToken redditConfig)),
      (truthy (userName redditConfig)); cbn
  | ].

Lemma init_isInit redditConfig st : isInit (init redditConfig st) = true.
Proof.
  destruct (isInit st) eqn:Hinit.
  - unfold init. now rewrite Hinit.
  - unfold init. rewrite Hinit. clear Hinit.
    init_cases redditConfig; reflexivity.
Qed.

(** The provider is initialised once: a second call of [init], whatever the
    config holds by then, changes nothing and logs nothing. *)
Theorem init_once (first second : reddit_config) (st : State) :
  init second (init first st) = init first st.
Proof.
  unfold init at 1. now rewrite init_isInit.
Qed.

(** On the module as it is loaded, [init] enables the provider exactly when
    the config enables it and names a client id, a client secret, a refresh
    token and a user name, none of them empty; exactly then it makes the
    client, so that an enabled provider always has one. *)
Theorem init_enables_when_complete (redditConfig : reddit_config) :
  let st := init redditConfig loaded in
  let complete :=
    enabled redditConfig
    && truthy (clientId redditConfig) && truthy (clientSecret redditConfig)
    && truthy (refreshToken redditConfig) && truthy (userName redditConfig) in
  isInit st = true
  /\ isEnabled st = complete
  /\ bool_decide (is_Some (reddit st)) = complete.
Proof.
  cbv zeta. unfold loaded.
  init_cases redditConfig; repeat split; reflexivity.
Qed.

(** *** What becomes a notification *)

(** A submission is taken for deleted exactly when its text is [[removed]]:
    a text that only contains the word, or has anything around it, is not. *)
Theorem isDeleted_iff (submission : Submission) :
  isDeleted submission = true <-> selftext submission = "[removed]".
Proof.
  unfold isDeleted.
  assert (literal "^\[removed\]$" = Seq Bol (literalThen "[removed]" Eol))
    as -> by (vm_compute; reflexivity).
  unfold test. rewrite bool_decide_eq_true, exec_anchored, run_literalThen.
  cbn [rest].
  assert (forall s : string,
            list_ascii_of_string s = list_ascii_of_string "[removed]"
            <-> s = "[removed]") as Hstring.
  { intros s. split; [|now intros ->]. intros H.
    rewrite <- (string_of_list_ascii_of_string s), H. reflexivity. }
  rewrite <- Hstring.
  generalize (list_ascii_of_string (selftext submission)). intros s.
  destruct (startsWith "[removed]" s) as [tl|] eqn:Hstarts.
  - apply startsWith_app in Hstarts as ->. cbn [run rest].
    destruct tl as [|c tl].
    + split; [reflexivity | eauto].
    + split; [intros [? ?]; discriminate|].
      intros H. apply (f_equal (@length ascii)) in H.
      rewrite List.length_app in H. cbn in H. lia.
  - split; [intros [? ?]; discriminate|].
    intros ->. vm_compute in Hstarts. discriminate.
Qed.

Lemma isDeleted_of_removed submission :
  selftext submission = "[removed]" -> isDeleted submission = true.
Proof. unfold isDeleted. intros ->. vm_compute. reflexivity. Qed.

Lemma filterValid_valid subreddit user date urlFilters :
  forall allPosts posts,
    filterValid allPosts subreddit user date urlFilters = Returned posts ->
    forall post,
      In post posts ->
      In post allPosts
      /\ isValidSubmission post subreddit user date urlFilters = Returned true.
Proof.
  induction allPosts as [|submission allPosts IH]; cbn; intros posts H post Hin.
  - injection H as <-. destruct Hin.
  - destruct (isValidSubmission submission _ _ _ _) as [keep|] eqn:Hkeep;
      [|discriminate].
    destruct (filterValid allPosts _ _ _ _) as [posts'|]; [|discriminate].
    injection H as <-. destruct keep.
    + destruct Hin as [<-|Hin]; [auto|].
      destruct (IH posts' eq_refl post Hin). auto.
    + destruct (IH posts' eq_refl post Hin). auto.
Qed.

(** The notifications the loop has collected come from valid submissions of
    the users. *)
Definition fromValidSubmission (st : State) (subreddit : string)
    (users : list RedditUserProvider) (urlFilters : list string)
    (game : string) (date : option Z) (notification : Notification) : Prop :=
  exists client user allPosts post,
    reddit st = Some client
    /\ In user users
    /\ getSubmissions client (name user) = Returned allPosts
    /\ In post allPosts
    /\ isValidSubmission post subreddit user date urlFilters = Returned true
    /\ notification = notificationOf post user game.

Lemma notificationsOfUser_valid st subreddit users user urlFilters game date acc :
  In user users ->
  (forall n, In n (fst acc) ->
     fromValidSubmission st subreddit users urlFilters game date n) ->
  forall n,
    In n (fst (notificationsOfUser st subreddit user urlFilters game date acc)) ->
    fromValidSubmission st subreddit users urlFilters game date n.
Proof.
  intros Huser Hacc n. destruct acc as [notifications logged0].
  unfold notificationsOfUser.
  destruct (reddit st) as [client|] eqn:Hclient; [|apply Hacc].
  destruct (getSubmissions client (name user)) as [allPosts|] eqn:Hposts;
    [|apply Hacc].
  destruct (filterValid allPosts _ _ _ _) as [posts|] eqn:Hvalid; [|apply Hacc].
  cbn [fst]. intros [Hin|Hin]%in_app_or; [now apply Hacc|].
  apply in_map_iff in Hin as (post & <- & Hpost).
  destruct (filterValid_valid _ _ _ _ _ _ Hvalid post Hpost) as [Hall Hok].
  exists client, user, allPosts, post. auto 10.
Qed.

Lemma usersLoop_valid st subreddit users urlFilters game date :
  forall remaining acc,
    (forall user, In user remaining -> In user users) ->
    (forall n, In n (fst acc) ->
       fromValidSubmission st subreddit users urlFilters game date n) ->
    forall n,
      In n (fst (fold_left
                   (fun acc user =>
                      notificationsOfUser st subreddit user urlFilters game
                        date acc)
                   remaining acc)) ->
      fromValidSubmission st subreddit users urlFilters game date n.
Proof.
  induction remaining as [|user remaining IH]; intros acc Hsub Hacc n Hin.
  - now apply Hacc.
  - cbn [fold_left] in Hin. apply IH in Hin; [exact Hin| |].
    + intros user' Huser'. apply Hsub. now right.
    + intros n'. apply notificationsOfUser_valid; [|exact Hacc].
      apply Hsub. now left.
Qed.

Lemma isValidSubmission_true submission subreddit user date urlFilters :
  isValidSubmission submission subreddit user date urlFilters = Returned true ->
  isNew submission date = true
  /\ isCorrectSub submission subreddit = true
  /\ isValidTitle submission user = true
  /\ isNewSource submission urlFilters = Returned true
  /\ selftext submission <> "[removed]".
Proof.
  unfold isValidSubmission.
  destruct (isNew _ _); [|discriminate].
  destruct (isCorrectSub _ _); [|discriminate].
  destruct (isValidTitle _ _); [|discriminate]. cbn [negb].
  destruct (isNewSource _ _) as [[]|]; try discriminate.
  intros [= Hdeleted]. apply negb_true_iff in Hdeleted.
  repeat split; auto. intros H. apply isDeleted_of_removed in H. congruence.
Qed.

(** Every notification [getNotifications] returns was made from a submission
    that Reddit listed for one of the given users and that passed every
    filter: it is newer than the date, in the subreddit, its title matches
    the filter of the user, no URL filter matches its URL and its text is not
    [[removed]]. The text of the notification is the text of the submission
    as it is. Asked of [sortLimitEnd], which is not among the sources: it
    returns notifications it was given. *)
Theorem getNotifications_valid (st : State) (subreddit : string)
    (users : list RedditUserProvider) (urlFilters : list string)
    (game : string) (date : option Z) (limit : option nat)
    (notification : Notification) :
  (forall l n, In n (sortLimitEnd l limit) -> In n l) ->
  In notification
    (fst (getNotifications st subreddit users urlFilters game date limit)) ->
  exists client user allPosts post,
    reddit st = Some client
    /\ In user users
    /\ getSubmissions client (name user) = Returned allPosts
    /\ In post allPosts
    /\ notification = notificationOf post user game
    /\ content notification = selftext post
    /\ isNew post date = true
    /\ isCorrectSub post subreddit = true
    /\ isValidTitle post user = true
    /\ isNewSource post urlFilters = Returned true
    /\ selftext post <> "[removed]".
Proof.
  intros Hsort. unfold getNotifications.
  destruct (negb (isInit st) || negb (isEnabled st)); [intros []|].
  destruct (fold_left _ users _) as [notifications logged0] eqn:Hloop.
  cbn [fst]. intros Hin%Hsort.
  assert (fromValidSubmission st subreddit users urlFilters game date
            notification) as (client & user & allPosts & post & Hclient
                              & Huser & Hposts & Hpost & Hvalid & ->).
  { change notifications with (fst (notifications, logged0)) in Hin.
    rewrite <- Hloop in Hin.
    apply (usersLoop_valid st subreddit users urlFilters game date users
             ([], logged st)); auto. intros n []. }
  destruct (isValidSubmission_true _ _ _ _ _ Hvalid)
    as (Hnew & Hsubreddit & Htitle & Hsource & Hkept).
  exists client, user, allPosts, post. repeat split; auto.
Qed.

End Provider.

(** A provider on one user whose two submissions are an update and a deleted
    post. *)
Definition patch : Submission :=
  {| created_utc := 1600000000; subreddit_name_prefixed := "r/DotA2";
     title := "Dota 2 Update"; url := "https://redd.it/abc";
     selftext := "Fixed a crash." |}.

Definition removedPost : Submission :=
  {| created_utc := 1600000100; subreddit_name_prefixed := "r/DotA2";
     title := "Dota 2 Update"; url := "https://redd.it/abd";
     selftext := "[removed]" |}.

Definition updateUser : RedditUserProvider :=
  {| name := "SirBelvedere"; titleFilter := literal "Update" |}.

Definition initialised : State :=
  init "prod" "github.com/GameFeeder/GameFeeder" "1.0.0"
    (fun _ => Returned [patch; removedPost])
    {| enabled := true; clientId := Some "id"; clientSecret := Some "secret";
       refreshToken := Some "token"; userName := Some "owner" |}
    loaded.

Lemma getNotifications_valid_witness :
  exists client user allPosts post,
    reddit initialised = Some client
    /\ In user [updateUser]
    /\ getSubmissions client (name user) = Returned allPosts
    /\ In post allPosts
    /\ notificationOf patch updateUser "dota" = notificationOf post user "dota"
    /\ content (notificationOf patch updateUser "dota") = selftext post
    /\ isNew post (Some 0%Z) = true
    /\ isCorrectSub post "DotA2" = true
    /\ isValidTitle post user = true
    /\ isNewSource post ["steamcommunity"] = Returned true
    /\ selftext post <> "[removed]".
Proof.
  apply (getNotifications_valid (fun l _ => l) initialised "DotA2" [updateUser]
           ["steamcommunity"] "dota" (Some 0%Z) None).
  - auto.
  - vm_compute. left. reflexivity.
Defined.

End Reddit.

(** ** The first data module ([data.js]) *)

Module DataJS.

(** A game of [data_config.json]. *)
Record GameConfig := {
  name : string;
  title : string;
  aliases : list string
}.

(** A subscribed chat of [subscribers.json]. *)
Record Chat := {
  id : Z;
  type : string
}.

(** The files the module reads and writes, parsed: the games of the data
    config, the subscribers by client and game, and how often the
    subscribers were written. *)
Record Files := {
  games : list GameConfig;
  subscribers : gmap string (gmap string (list Chat));
  writes : nat
}.

(** Get the path of important files. *)
Definition getFilePath (file : string) : outcome string :=
  let basePath := "src/data" in
  if String.eqb file "subscribers" then Returned (basePath +:+ "/subscribers.json")
  else if String.eqb file "bot_config" then Returned (basePath +:+ "/bot_config.json")
  else if String.eqb file "data_config" then Returned (basePath +:+ "/data_config.json")
  else Thrown "SyntaxError: Unexpected file.".

Definition getSubscribers (files : Files) : gmap string (gmap string (list Chat)) :=
  subscribers files.

Definition writeSubscribers (s : gmap string (gmap string (list Chat)))
    (files : Files) : Files :=
  {| games := games files; subscribers := s; writes := S (writes files) |}.

Section Games.

(** [String.prototype.toLocaleLowerCase] depends on the locale of the host:
    it is a parameter. *)
Variable toLocaleLowerCase : string -> string.

(** Get the name of a game by an alias: every game is visited, and a later
    game with the alias overwrites an earlier one. *)
Definition getGameName (alias : string) (files : Files) : string :=
  (* Ignore capitalization *)
  let lowerAlias := toLocaleLowerCase (trim alias) in
  fold_left
    (fun gameName game =>
       (* Look for the alias in the game *)
       if includes (aliases game) lowerAlias then name game else gameName)
    (games files) EmptyString.

(** Get the title of a game. An array is truthy, the empty one too, so the
    title of its first element is read whether or not there is one. *)
Definition getGameTitle (alias : string) (files : Files) : outcome string :=
  let gameName := getGameName alias files in
  (* Look for the game name *)
  let games := List.filter (fun game => String.eqb (name game) gameName) (games files) in
  (* Get the title of the game *)
  match games with
  | game :: _ => Returned (title game)
  | [] => Thrown "TypeError: Cannot read property 'title' of undefined"
  end.

End Games.

(** Get an array of all game names. *)
Definition getAllGameNames (files : Files) : list string :=
  map name (games files).

(** Get an array of all game titles. *)
Definition getAllGameTitles (files : Files) : list string :=
  map title (games files).

(** [subscribers[client][game]]. *)
Definition getSubscribersByGameAndClient (client alias : string) (files : Files)
    : option (list Chat) :=
  byClient ← getSubscribers files !! client;
  byClient !! alias.

(** Add a chat to the subscriptions. Reading a property of [undefined]
    throws a TypeError, which is [None]. *)
Definition addSubscriber (chatId : Z) (type : string) (client game : string)
    (files : Files) : option (bool * Files) :=
  let subscribers := getSubscribers files in
  byClient ← subscribers !! client;
  gameSubscribers ← byClient !! game;
  (* Check if the chat is already subscribed *)
  if existsb (fun chat => (id chat =? chatId)%Z) gameSubscribers
  then Some (false, files)
  else
    (* Add chat to subscription list *)
    let gameSubscribers := gameSubscribers ++ [ {| id := chatId; type := type |} ] in
    (* Save changes *)
    let subscribers :=
      <[client := <[game := gameSubscribers]> byClient]> subscribers in
    Some (true, writeSubscribers subscribers files).

(** Remove a chat from the subscriptions. *)
Definition removeSubscriber (chatId : Z) (type : string) (client game : string)
    (files : Files) : option (bool * Files) :=
  let subscribers := getSubscribers files in
  byClient ← subscribers !! client;
  gameSubscribers ← byClient !! game;
  (* Check if the chat is already subscribed *)
  match findIndex (fun chat => (id chat =? chatId)%Z) gameSubscribers with
  | Some i =>
      (* Unsubscribe chat *)
      let gameSubscribers := splice1 i gameSubscribers in
      (* Save changes *)
      let subscribers :=
        <[client := <[game := gameSubscribers]> byClient]> subscribers in
      Some (true, writeSubscribers subscribers files)
  | None =>
      (* Chat isn't subscribed *)
      Some (false, files)
  end.

(** *** Games by alias *)

Lemma getGameName_loop lowerAlias (gs : list GameConfig) :
  forall gameName,
    fold_left
      (fun gameName game =>
         if includes (aliases game) lowerAlias then name game else gameName)
      gs gameName
    = match List.filter (fun game => includes (aliases game) lowerAlias) (rev gs) with
      | game :: _ => name game
      | [] => gameName
      end.
Proof.
  induction gs as [|g gs IH]; intros gameName; cbn [fold_left rev].
  - reflexivity.
  - rewrite IH, List.filter_app. cbn [List.filter].
    destruct (List.filter _ (rev gs)) as [|g' gs']; cbn [app].
    + now destruct (includes (aliases g) lowerAlias).
    + reflexivity.
Qed.

(** An alias no game has makes [getGameTitle] throw: the name it is resolved
    to is the empty string, no game has that name, and the title of the
    first of no games is read. The empty title its comment promises is never
    returned. *)
Theorem getGameTitle_unknown_alias (toLocaleLowerCase : string -> string)
    (alias : string) (files : Files) :
  (forall game, In game (games files) ->
     ~ In (toLocaleLowerCase (trim alias)) (aliases game)) ->
  (forall game, In game (games files) -> name game <> EmptyString) ->
  getGameName toLocaleLowerCase alias files = EmptyString
  /\ getGameTitle toLocaleLowerCase alias files
     = Thrown "TypeError: Cannot read property 'title' of undefined".
Proof.
  intros Hunknown Hnamed.
  assert (getGameName toLocaleLowerCase alias files = EmptyString) as Hname.
  { unfold getGameName. rewrite getGameName_loop.
    destruct (List.filter _ (rev (games files))) as [|g gs] eqn:Hfilter;
      [reflexivity|].
    assert (In g (List.filter
                    (fun game => includes (aliases game)
                                   (toLocaleLowerCase (trim alias)))
                    (rev (games files)))) as Hin
      by (rewrite Hfilter; now left).
    apply filter_In in Hin as [Hin Halias]. apply in_rev in Hin.
    apply includes_In in Halias. now apply Hunknown in Halias. }
  split; [exact Hname|].
  unfold getGameTitle. rewrite Hname.
  destruct (List.filter _ (games files)) as [|g gs] eqn:Hfilter; [reflexivity|].
  assert (In g (List.filter (fun game => String.eqb (name game) EmptyString)
                  (games files))) as Hin
    by (rewrite Hfilter; now left).
  apply filter_In in Hin as [Hin Hempty]. apply String.eqb_eq in Hempty.
  now apply Hnamed in Hempty.
Qed.

(** When several games have an alias, [getGameName] returns the name of the
    last of them in the order of the config. *)
Theorem getGameName_last_wins (toLocaleLowerCase : string -> string)
    (alias : string) (files : Files) (before after : list GameConfig)
    (game : GameConfig) :
  games files = before ++ game :: after ->
  In (toLocaleLowerCase (trim alias)) (aliases game) ->
  (forall later, In later after ->
     ~ In (toLocaleLowerCase (trim alias)) (aliases later)) ->
  getGameName toLocaleLowerCase alias files = name game.
Proof.
  intros Hgames Halias Hafter. unfold getGameName.
  rewrite getGameName_loop, Hgames, rev_app_distr. cbn [rev].
  rewrite <- app_assoc, List.filter_app. cbn [app].
  assert (List.filter
            (fun g => includes (aliases g) (toLocaleLowerCase (trim alias)))
            (rev after) = []) as ->.
  { clear - Hafter. 
    assert (forall g, In g (rev after) ->
              includes (aliases g) (toLocaleLowerCase (trim alias)) = false) as H.
    { intros g Hg. apply includes_not_In, Hafter. now apply in_rev. }
    induction (rev after) as [|g gs IH]; cbn; [reflexivity|].
    rewrite H by now left. apply IH. intros g' Hg'. apply H. now right. }
  cbn [app List.filter]. apply includes_In in Halias. now rewrite Halias.
Qed.

(** *** Subscriptions *)

Definition idsOf (chats : list Chat) : list Z := map id chats.

Lemma existsb_id_In chatId chats :
  existsb (fun chat => (id chat =? chatId)%Z) chats = true <-> In chatId (idsOf chats).
Proof.
  unfold idsOf. rewrite existsb_exists, in_map_iff. split.
  - intros (chat & Hin & E). apply Z.eqb_eq in E. eauto.
  - intros (chat & E & Hin). exists chat. split; [exact Hin|]. now apply Z.eqb_eq.
Qed.

(** [addSubscriber] keeps the ids of a list distinct and leaves the chat
    subscribed: when the id of the chat is not in the list it returns true,
    appends the chat to the list, which it leaves as it was otherwise, and
    writes the file once; when the id is in the list it returns false and
    leaves the files as they are. The lists of the other games and clients
    are as they were. *)
Theorem addSubscriber_keeps_ids_distinct (chatId : Z) (type client game : string)
    (files : Files) (chats : list Chat) :
  getSubscribersByGameAndClient client game files = Some chats ->
  List.NoDup (idsOf chats) ->
  exists (added : bool) files',
    let chats' :=
      if added then chats ++ [ {| id := chatId; type := type |} ] else chats in
    addSubscriber chatId type client game files = Some (added, files')
    /\ (added = true <-> ~ In chatId (idsOf chats))
    /\ getSubscribersByGameAndClient client game files' = Some chats'
    /\ List.NoDup (idsOf chats')
    /\ In chatId (idsOf chats')
    /\ (forall client' game',
          (client', game') <> (client, game) ->
          getSubscribersByGameAndClient client' game' files'
          = getSubscribersByGameAndClient client' game' files)
    /\ writes files' = (if added then S (writes files) else writes files)
    /\ (added = false -> files' = files).
Proof.
  unfold getSubscribersByGameAndClient, getSubscribers. intros Hchats Hdistinct.
  destruct (subscribers files !! client) as [byClient|] eqn:Hclient;
    [|discriminate]. cbn in Hchats.
  unfold addSubscriber, getSubscribers. rewrite Hclient. cbn. rewrite Hchats.
  cbn.
  destruct (existsb _ chats) eqn:Hsubscribed.
  - apply existsb_id_In in Hsubscribed.
    exists false, files. cbn zeta. rewrite Hclient. cbn.
    repeat split; auto; try discriminate; tauto.
  - assert (~ In chatId (idsOf chats)) as Hnew.
    { intros H. apply existsb_id_In in H. congruence. }
    eexists true, _. cbn zeta. split; [reflexivity|]. cbn.
    split; [tauto|].
    rewrite lookup_insert_eq. cbn. rewrite lookup_insert_eq.
    split; [reflexivity|]. unfold idsOf in *. rewrite map_app. cbn.
    split; [|split; [|split; [|split]]].
    + apply List.NoDup_app; auto.
      * apply List.NoDup_cons; [intros [] | constructor].
      * intros x Hx [<-|[]]. contradiction.
    + apply in_or_app. right. now left.
    + intros client' game' Hother.
      destruct (decide (client' = client)) as [->|Hc].
      * rewrite lookup_insert_eq, Hclient. cbn.
        apply lookup_insert_ne. congruence.
      * now rewrite lookup_insert_ne by congruence.
    + reflexivity.
    + discriminate.
Qed.

Lemma findIndex_ids chatId chats i :
  findIndex (fun chat => (id chat =? chatId)%Z) chats = Some i ->
  exists front chat back,
    chats = front ++ chat :: back /\ ~ In chatId (idsOf front)
    /\ id chat = chatId /\ i = length front.
Proof.
  intros H. apply findIndexFrom_found in H
    as (front & chat & back & -> & Hfront & Hchat & ->).
  exists front, chat, back. repeat split; auto.
  - intros Hin. apply existsb_id_In in Hin. congruence.
  - now apply Z.eqb_eq.
Qed.

(** On a list of distinct ids, [removeSubscriber] leaves the chat
    unsubscribed and every other chat in its place: it returns true and
    removes the entry of the chat when there is one, and returns false and
    writes nothing when there is none. *)
Theorem removeSubscriber_unsubscribes (chatId : Z) (type client game : string)
    (files : Files) (chats : list Chat) :
  getSubscribersByGameAndClient client game files = Some chats ->
  List.NoDup (idsOf chats) ->
  exists removed files',
    removeSubscriber chatId type client game files = Some (removed, files')
    /\ getSubscribersByGameAndClient client game files'
       = Some (List.filter (fun chat => negb (id chat =? chatId)%Z) chats)
    /\ ~ In chatId
         (idsOf (List.filter (fun chat => negb (id chat =? chatId)%Z) chats))
    /\ (removed = true <-> In chatId (idsOf chats))
    /\ (removed = false -> files' = files).
Proof.
  unfold getSubscribersByGameAndClient, getSubscribers. intros Hchats Hdistinct.
  destruct (subscribers files !! client) as [byClient|] eqn:Hclient;
    [|discriminate]. cbn in Hchats.
  unfold removeSubscriber, getSubscribers. rewrite Hclient. cbn. rewrite Hchats.
  cbn.
  assert (~ In chatId
            (idsOf (List.filter (fun chat => negb (id chat =? chatId)%Z) chats)))
    as Hgone.
  { unfold idsOf. intros (chat & E & Hin)%in_map_iff.
    apply filter_In in Hin as [_ Hin]. apply negb_true_iff, Z.eqb_neq in Hin.
    congruence. }
  destruct (findIndex _ chats) as [i|] eqn:Hfind.
  - apply findIndex_ids in Hfind as (front & chat & back & -> & Hfront & Hid & ->).
    eexists true, _. split; [reflexivity|]. cbn.
    rewrite lookup_insert_eq. cbn. rewrite lookup_insert_eq.
    rewrite splice1_middle.
    assert (forall l, ~ In chatId (idsOf l) ->
              List.filter (fun chat => negb (id chat =? chatId)%Z) l = l) as Hkeep.
    { clear. induction l as [|c l IH]; cbn; [reflexivity|]. intros H.
      destruct (Z.eqb_spec (id c) chatId) as [E|_]; [exfalso; auto|].
      cbn. rewrite IH; auto. }
    assert (~ In chatId (idsOf back)) as Hback.
    { unfold idsOf in Hdistinct. rewrite map_app in Hdistinct. cbn in Hdistinct.
      apply List.NoDup_remove_2 in Hdistinct. rewrite Hid in Hdistinct.
      intros H. apply Hdistinct, in_or_app. now right. }
    rewrite List.filter_app. cbn [List.filter]. rewrite Hid, Z.eqb_refl. cbn [negb].
    rewrite !Hkeep by assumption.
    split; [reflexivity|]. split.
    { unfold idsOf. rewrite map_app. intros [H|H]%in_app_or; auto. }
    split; [|discriminate]. split; [|reflexivity]. intros _.
    unfold idsOf. rewrite map_app. apply in_or_app. right. now left.
  - exists false, files. split; [reflexivity|]. rewrite Hclient. cbn.
    assert (~ In chatId (idsOf chats)) as Hnot.
    { intros H. apply existsb_id_In in H.
      unfold findIndex in Hfind.
      assert (forall k, findIndexFrom (fun chat => (id chat =? chatId)%Z) chats k
                        <> None) as Hsome.
      { clear - H. induction chats as [|c cs IH]; cbn in *; [discriminate|].
        intros k. destruct (id c =? chatId)%Z; [discriminate|]. now apply IH. }
      now apply (Hsome 0). }
    assert (List.filter (fun chat => negb (id chat =? chatId)%Z) chats = chats)
      as Hsame.
    { clear - Hnot. induction chats as [|c l IH]; cbn; [reflexivity|].
      destruct (Z.eqb_spec (id c) chatId) as [E|_];
        [exfalso; apply Hnot; now left|].
      cbn. rewrite IH; auto. intros H. apply Hnot. now right. }
    rewrite Hsame. split; [exact Hchats|]. split; [exact Hnot|].
    split; [|reflexivity]. split; [discriminate | contradiction].
Qed.

(** The games of a config and a file in which chat 111 is subscribed to
    dota on Telegram. *)
Definition someFiles : Files :=
  {| games := [ {| name := "dota"; title := "Dota 2";
                   aliases := ["dota"; "dota2"] |};
                {| name := "underlords"; title := "Dota Underlords";
                   aliases := ["underlords"; "dota"] |} ];
     subscribers := {[ "telegram" := {[ "dota" := [ {| id := 111; type := "group" |} ] ]} ]};
     writes := 0 |}.

Lemma getGameTitle_unknown_alias_witness :
  getGameName (fun s => s) "artifact" someFiles = EmptyString
  /\ getGameTitle (fun s => s) "artifact" someFiles
     = Thrown "TypeError: Cannot read property 'title' of undefined".
Proof.
  apply getGameTitle_unknown_alias.
  - intros game [<-|[<-|[]]]; vm_compute; intuition discriminate.
  - intros game [<-|[<-|[]]]; discriminate.
Defined.

Lemma getGameName_last_wins_witness :
  getGameName (fun s => s) " dota " someFiles = "underlords".
Proof.
  apply (getGameName_last_wins (fun s => s) " dota " someFiles
           [ {| name := "dota"; title := "Dota 2"; aliases := ["dota"; "dota2"] |} ]
           []
           {| name := "underlords"; title := "Dota Underlords";
              aliases := ["underlords"; "dota"] |}).
  - reflexivity.
  - vm_compute. auto.
  - intros later [].
Defined.

Lemma addSubscriber_keeps_ids_distinct_witness :
  exists files',
    addSubscriber 222 "private" "telegram" "dota" someFiles = Some (true, files')
    /\ getSubscribersByGameAndClient "telegram" "dota" files'
       = Some [ {| id := 111; type := "group" |};
                {| id := 222; type := "private" |} ]
    /\ writes files' = 1.
Proof.
  destruct (addSubscriber_keeps_ids_distinct 222 "private" "telegram" "dota"
              someFiles [ {| id := 111; type := "group" |} ])
    as (added & files' & Hrun & Hadded & Hchats & _ & _ & _ & Hwrites & _).
  - reflexivity.
  - cbn. apply List.NoDup_cons; [intros [] | constructor].
  - assert (added = true) as ->.
    { apply Hadded. cbn. intros [E|[]]. discriminate E. }
    exists files'. split; [exact Hrun|]. split; [exact Hchats | exact Hwrites].
Defined.

Lemma removeSubscriber_unsubscribes_witness :
  exists removed files',
    removeSubscriber 111 "group" "telegram" "dota" someFiles
    = Some (removed, files')
    /\ getSubscribersByGameAndClient "telegram" "dota" files'
       = Some (List.filter (fun chat => negb (id chat =? 111)%Z)
                 [ {| id := 111; type := "group" |} ])
    /\ ~ In 111%Z
         (idsOf (List.filter (fun chat => negb (id chat =? 111)%Z)
                   [ {| id := 111; type := "group" |} ]))
    /\ (removed = true <-> In 111%Z (idsOf [ {| id := 111; type := "group" |} ]))
    /\ (removed = false -> files' = someFiles).
Proof.
  apply (removeSubscriber_unsubscribes 111 "group" "telegram" "dota" someFiles
           [ {| id := 111; type := "group" |} ]).
  - reflexivity.
  - cbn. apply List.NoDup_cons; [intros [] | constructor].
Defined.

End DataJS.

(** ** Nested objects ([ObjUtil] of [util.ts]) *)

Module ObjUtil.

(** The values the functions are given: parsed JSON. A plain object is the
    list of its own properties in the order they were added; a number, a
    boolean or a string is a scalar. Arrays are left out. *)
#[local] Unset Elimination Schemes.
Inductive value : Type :=
| VUndefined
| VNull
| VScalar (json : string)
| VObject (fields : list (string * value)).
#[local] Set Elimination Schemes.

(** How an operation ends: with a value, with a TypeError, or outside of
    what is modelled. *)
Inductive result (A : Type) : Type :=
| Ok (a : A)
| TypeError
| Unmodelled.
Arguments Ok {A} a.
Arguments TypeError {A}.
Arguments Unmodelled {A}.

(** The names every plain object inherits from [Object.prototype]. *)
Definition inherited (key : string) : bool :=
  includes
    ["constructor"; "hasOwnProperty"; "isPrototypeOf"; "propertyIsEnumerable";
     "toLocaleString"; "toString"; "valueOf"; "__proto__"; "__defineGetter__";
     "__defineSetter__"; "__lookupGetter__"; "__lookupSetter__"] key.

Fixpoint own (fields : list (string * value)) (key : string) : option value :=
  match fields with
  | [] => None
  | (k, v) :: fields' => if String.eqb k key then Some v else own fields' key
  end.

Fixpoint assign (fields : list (string * value)) (key : string) (v : value)
    : list (string * value) :=
  match fields with
  | [] => [(key, v)]
  | (k, x) :: fields' =>
      if String.eqb k key then (k, v) :: fields'
      else (k, x) :: assign fields' key v
  end.

(** [target[key]]: undefined and null have no properties; a property an
    object does not own is undefined unless the object inherits it, and what
    it inherits, like the properties of a scalar, is not modelled. *)
Definition read (target : value) (key : string) : result value :=
  match target with
  | VUndefined | VNull => TypeError
  | VScalar _ => Unmodelled
  | VObject fields =>
      match own fields key with
      | Some v => Ok v
      | None => if inherited key then Unmodelled else Ok VUndefined
      end
  end.

(** [target[key] = v], which changes the object in place: the result is the
    object afterwards. Assigning to [__proto__] sets no property. *)
Definition write (target : value) (key : string) (v : value) : result value :=
  match target with
  | VUndefined | VNull => TypeError
  | VScalar _ => Unmodelled
  | VObject fields =>
      if String.eqb key "__proto__" then Unmodelled
      else Ok (VObject (assign fields key v))
  end.

(** The loop of [getInnerObject]. *)
Fixpoint follow (targetObject : value) (path : list string) : result value :=
  match path with
  | [] => Ok targetObject
  | key :: path' =>
      match read targetObject key with
      | Ok targetObject => follow targetObject path'
      | TypeError => TypeError
      | Unmodelled => Unmodelled
      end
  end.

Definition getInnerObject (object : value) (path : option (list string))
    : result value :=
  match path with
  | None | Some [] => Ok object
  | Some path => follow object path
  end.

(** [setInnerObjectHelper] returns the object it changed in place; [shift]
    removes the first key from the array [path] itself, which is the array
    of the caller: the second component is what that array holds when the
    call ends. *)
Fixpoint setInnerObjectHelper (object toAdd : value) (path : list string)
    : result value * list string :=
  match path with
  | [] => (Ok toAdd, [])
  | key :: newPath =>
      match newPath with
      | [] => (write object key toAdd, [key])
      | _ :: _ =>
          match read object key with
          | Ok inner =>
              match setInnerObjectHelper inner toAdd newPath with
              | (Ok inner', path') => (write object key inner', path')
              | (TypeError, path') => (TypeError, path')
              | (Unmodelled, path') => (Unmodelled, path')
              end
          | TypeError => (TypeError, newPath)
          | Unmodelled => (Unmodelled, newPath)
          end
      end
  end.

Definition setInnerObject (object toAdd : value) (path : list string)
    : result value * list string :=
  setInnerObjectHelper object toAdd path.

(** *** Reading what was written *)

Lemma setInnerObjectHelper_deep object toAdd key key' path :
  setInnerObjectHelper object toAdd (key :: key' :: path)
  = match read object key with
    | Ok inner =>
        match setInnerObjectHelper inner toAdd (key' :: path) with
        | (Ok inner', path') => (write object key inner', path')
        | (TypeError, path') => (TypeError, path')
        | (Unmodelled, path') => (Unmodelled, path')
        end
    | TypeError => (TypeError, key' :: path)
    | Unmodelled => (Unmodelled, key' :: path)
    end.
Proof. reflexivity. Qed.

Lemma own_assign fields key v : own (assign fields key v) key = Some v.
Proof.
  induction fields as [|[k x] fields IH]; cbn.
  - now rewrite String.eqb_refl.
  - destruct (String.eqb k key) eqn:E; cbn; now rewrite E.
Qed.

Lemma own_assign_other fields key v other :
  other <> key -> own (assign fields key v) other = own fields other.
Proof.
  intros Hne. induction fields as [|[k x] fields IH]; cbn.
  - apply String.eqb_neq in Hne. rewrite String.eqb_sym in Hne. now rewrite Hne.
  - destruct (String.eqb k key) eqn:E; cbn.
    + apply String.eqb_eq in E. subst k.
      apply String.eqb_neq in Hne. rewrite String.eqb_sym in Hne. now rewrite Hne.
    + now rewrite IH.
Qed.

Lemma read_write object key v object' :
  write object key v = Ok object' -> read object' key = Ok v.
Proof.
  destruct object as [| | |fields]; cbn; try discriminate.
  destruct (String.eqb key "__proto__"); [discriminate|].
  intros [= <-]. cbn. now rewrite own_assign.
Qed.

Lemma read_write_other object key v object' other :
  write object key v = Ok object' -> other <> key ->
  read object' other = read object other.
Proof.
  destruct object as [| | |fields]; cbn; try discriminate.
  destruct (String.eqb key "__proto__"); [discriminate|].
  intros [= <-] Hne. cbn. now rewrite own_assign_other.
Qed.

(** After [setInnerObject] has written a value at a path of at least one
    key, [getInnerObject] reads that value at the path. *)
Theorem getInnerObject_setInnerObject (object toAdd object' : value)
    (path path' : list string) :
  path <> [] ->
  setInnerObject object toAdd path = (Ok object', path') ->
  getInnerObject object' (Some path) = Ok toAdd.
Proof.
  unfold setInnerObject, getInnerObject. intros Hne Hset.
  destruct path as [|key path]; [congruence|]. clear Hne.
  revert object object' key path' Hset.
  induction path as [|key' path IH]; intros object object' key path' Hset.
  - cbn in *. injection Hset as Hwrite _. now rewrite (read_write _ _ _ _ Hwrite).
  - rewrite setInnerObjectHelper_deep in Hset. cbn [follow].
    destruct (read object key) as [inner| |] eqn:Hread; try discriminate.
    destruct (setInnerObjectHelper inner toAdd (key' :: path))
      as [[inner'| |] path''] eqn:Hinner; try discriminate.
    injection Hset as Hwrite _.
    rewrite (read_write _ _ _ _ Hwrite). now apply (IH inner inner' key' path'').
Qed.

(** [setInnerObject] uses up the path it is given: when it has written at a
    path of two keys or more, the caller's array holds the last key only, so
    that reading at the same array afterwards reads a property of the object
    itself and not what was written. *)
Theorem setInnerObject_consumes_path (object toAdd object' : value)
    (path path' : list string) (key : string) :
  path <> [] ->
  setInnerObject object toAdd path = (Ok object', path') ->
  path' = [List.last path key]
  /\ getInnerObject object' (Some path') = read object' (List.last path key).
Proof.
  unfold setInnerObject. intros Hne Hset.
  assert (path' = [List.last path key]) as ->.
  { destruct path as [|k path]; [congruence|]. clear Hne.
    revert object object' k path' Hset.
    induction path as [|k' path IH]; intros object object' k path' Hset.
    - cbn in *. now injection Hset as _ <-.
    - rewrite setInnerObjectHelper_deep in Hset.
      destruct (read object k) as [inner| |]; try discriminate.
      destruct (setInnerObjectHelper inner toAdd (k' :: path))
        as [[inner'| |] path''] eqn:Hinner; try discriminate.
      injection Hset as _ <-.
      now apply (IH inner inner' k' path''). }
  split; [reflexivity|]. cbn. now destruct (read object' _).
Qed.

(** [setInnerObject] makes no object on its way: at a path of two keys or
    more whose first key the object neither owns nor inherits, it throws a
    TypeError and has written nothing. *)
Theorem setInnerObject_missing_key (fields : list (string * value))
    (toAdd : value) (key key' : string) (path : list string) :
  own fields key = None -> inherited key = false ->
  fst (setInnerObject (VObject fields) toAdd (key :: key' :: path)) = TypeError.
Proof.
  intros Hown Hinherited. unfold setInnerObject.
  rewrite setInnerObjectHelper_deep. cbn [read].
  rewrite Hown, Hinherited. destruct path as [|key'' path]; reflexivity.
Qed.

(** The object [{ telegram: { prefix: "/" } }]. *)
Definition botConfig : value :=
  VObject [("telegram", VObject [("prefix", VScalar "/")])].

Lemma getInnerObject_setInnerObject_witness :
  getInnerObject
    (VObject [("telegram", VObject [("prefix", VScalar "!")])])
    (Some ["telegram"; "prefix"])
  = Ok (VScalar "!").
Proof.
  apply (getInnerObject_setInnerObject botConfig (VScalar "!") _
           ["telegram"; "prefix"] ["prefix"]).
  - discriminate.
  - reflexivity.
Defined.

Lemma setInnerObject_consumes_path_witness :
  ["prefix"] = [List.last ["telegram"; "prefix"] EmptyString]
  /\ getInnerObject
       (VObject [("telegram", VObject [("prefix", VScalar "!")])])
       (Some ["prefix"])
     = read (VObject [("telegram", VObject [("prefix", VScalar "!")])])
         (List.last ["telegram"; "prefix"] EmptyString).
Proof.
  apply (setInnerObject_consumes_path botConfig (VScalar "!")).
  - discriminate.
  - reflexivity.
Defined.

Lemma setInnerObject_missing_key_witness :
  fst (setInnerObject botConfig (VScalar "!") ["discord"; "prefix"]) = TypeError.
Proof.
  apply (setInnerObject_missing_key _ (VScalar "!") "discord" "prefix" []);
    reflexivity.
Defined.

End ObjUtil.
